(** * Valentine Garden: procedural field, rose surface and tap trigger

    A shallow embedding of the procedural core of [src/main.js]:
    the seeded generator [mulberry32] with [rand] and [pick], the instanced
    flower field of [createFlowerField], the tapered stem of
    [createRealRoseStemMesh], the bloom surface of
    [buildRealisticRosePetalsGeometry], the wind displacement of
    [applyWindShader] and the tap handling of [onPointerDown] /
    [onRoseTapped].

    Integers follow the 32-bit conversions of the language, written out on
    [Z].  Numbers of the field, the stem and the wind shader are finite
    doubles throughout the code and are read as real numbers (rounding is not
    modelled).  The bloom surface and the tap handler test or store
    non-finite numbers, so they run on [JS.num], which has the two
    infinities and NaN next to the finite values. *)

From Stdlib Require Import ZArith List Bool Lia Reals Lra Psatz.
Import ListNotations.

#[local] Set Warnings "-abstract-large-number".

(* ================================================================== *)
(** * 32-bit integer operators *)
(* ================================================================== *)

Module Int32.
Local Open Scope Z_scope.

Definition two32 : Z := 4294967296.
Definition two31 : Z := 2147483648.

(** [ToUint32] of an integral number: the number modulo [2^32], taken on
    the bits (the low 32 bits of the two's complement form). *)
Definition ToUint32 (x : Z) : Z := Z.land x 4294967295.

(** [ToInt32]: the same 32 bits, read as a signed number. *)
Definition ToInt32 (x : Z) : Z :=
  let u := ToUint32 x in
  if u <? two31 then u else u - two32.

(** [a | b], [a ^ b]: both operands to int32, result is an int32. *)
Definition bor (a b : Z) : Z := ToInt32 (Z.lor (ToInt32 a) (ToInt32 b)).
Definition bxor (a b : Z) : Z := ToInt32 (Z.lxor (ToInt32 a) (ToInt32 b)).

(** [a >>> n]: the operand to uint32, the count modulo 32, result is a uint32. *)
Definition ushr (a n : Z) : Z := Z.shiftr (ToUint32 a) (n mod 32).

(** [Math.imul(a, b)]: the low 32 bits of the product, as an int32. *)
Definition imul (a b : Z) : Z := ToInt32 (ToInt32 a * ToInt32 b).
End Int32.

(* ================================================================== *)
(** * Seeded RNG *)
(* ================================================================== *)

Module Rng.
Import Int32.

(** The captured variable [a] of the closure returned by [mulberry32]. *)
Definition state := Z.

(** [mulberry32(seed)]: [let a = seed >>> 0]. *)
Definition mulberry32 (seed : Z) : state := ushr seed 0.

(** One call of the returned closure, up to the final division: the new
    value of [a] and the 32-bit numerator [(t ^ (t >>> 14)) >>> 0]. *)
Definition next_bits (a : state) : Z * state :=
  let a := bor a 0 in
  let a := bor (a + 0x6D2B79F5)%Z 0 in
  let t := imul (bxor a (ushr a 15)) (bor 1 a) in
  let t := bxor (t + imul (bxor t (ushr t 7)) (bor 61 t))%Z t in
  (ushr (bxor t (ushr t 14)) 0, a).

(** Computations that call the shared generator. *)
Definition M (A : Type) : Type := state -> A * state.

Definition ret {A} (x : A) : M A := fun s => (x, s).
Definition bind {A B} (m : M A) (k : A -> M B) : M B :=
  fun s => let (x, s') := m s in k x s'.

Declare Scope rng_scope.
Delimit Scope rng_scope with rng.
Notation "x <- m ;; k" := (bind m (fun x => k))
  (at level 61, m at next level, right associativity) : rng_scope.
Local Open Scope rng_scope.

Definition bits : M Z := next_bits.

(** [rng()]: the numerator divided by 4294967296. *)
Definition rng : M R :=
  k <- bits ;; ret (IZR k / 4294967296)%R.

(** [rand(min, max) = min + rng() * (max - min)]. *)
Definition rand (min max : R) : M R :=
  u <- rng ;; ret (min + u * (max - min))%R.

(** [Math.floor] of a real number. *)
Definition floor (x : R) : Z := Int_part x.

(** [pick(arr) = arr[Math.floor(rng() * arr.length)]]; the default stands
    for [undefined], read when the array is empty. *)
Definition pick {A} (undefined : A) (arr : list A) : M A :=
  u <- rng ;;
  ret (nth (Z.to_nat (floor (u * INR (length arr)))) arr undefined).

(** The state after [n] calls. *)
Fixpoint iterate {A} (f : A -> A) (n : nat) (x : A) : A :=
  match n with
  | O => x
  | S n' => iterate f n' (f x)
  end.

Definition step (a : state) : state := snd (next_bits a).
Definition skip (n : nat) (a : state) : state := iterate step n a.

(** [n] successive numerators. *)
Fixpoint draws (n : nat) (a : state) : list Z :=
  match n with
  | O => []
  | S n' => let (k, a') := next_bits a in k :: draws n' a'
  end.
End Rng.

(* ================================================================== *)
(** * Configuration *)
(* ================================================================== *)

(** The fields of [CONFIG] read by the modelled code.  [flowerCount] is
    [isMobile() ? 9000 : 10000] in the source and so depends on the device. *)
Record Config : Type := mkConfig {
  seed : Z;
  flowerCount : nat;
  fieldRadius : R;
  clearRadius : R;
  tapCooldownMs : R
}.

Definition CONFIG (mobile : bool) : Config :=
  {| seed := 20260214;
     flowerCount := if mobile then 9000 else 10000;
     fieldRadius := 120;
     clearRadius := 12;
     tapCooldownMs := 900 |}.

(** The configuration of the end-to-end scenario: ten flowers, field radius
    10, clear radius 2, on the shipped seed. *)
Definition scenario : Config :=
  {| seed := 20260214;
     flowerCount := 10;
     fieldRadius := 10;
     clearRadius := 2;
     tapCooldownMs := 900 |}.

(* ================================================================== *)
(** * Flower field *)
(* ================================================================== *)

Module FlowerField.
Import Rng.
Local Open Scope rng_scope.
Local Open Scope R_scope.

Definition Vec3 : Type := (R * R * R)%type.

(** What the loop of [createFlowerField] stores for instance [i]: the
    arguments of [tmpM.compose(tmpP, tmpQ, tmpS)] (the quaternion is given
    by its Euler angles, order XYZ), the three entries of [instanceColors]
    and the entries of [aSway] and [aPhase]. *)
Record FlowerInstance : Type := mkInstance {
  position : Vec3;
  rotation : Vec3;
  scale : Vec3;
  color : Vec3;
  sway : R;
  phase : R
}.

(** The random factors of the scale, [s] (girth) and [h] (height), kept
    next to the instance they belong to. *)
Record Sample : Type := mkSample {
  inst : FlowerInstance;
  radial : R;
  girth : R;
  heightFactor : R
}.

(** The palette, as the hexadecimal literals of the source. *)
Definition palette : list Z :=
  [0xff69b4; 0xff1493; 0xffb6c1; 0xff6b9d; 0xffc0cb;
   0xff8fab; 0xff91a4; 0xdb7093; 0xffb3d9; 0xff4d88]%Z.

(** The layers of petals of [buildSingleFlowerGeometry]: their counts. *)
Definition layers : list nat := [6; 8]%nat.

Section WithColor.
(** [new THREE.Color(hex).clone().offsetHSL(h, s, l)], read back as
    [(r, g, b)]: a function of the library, pure in its arguments. *)
Variable offsetHSL : Z -> R -> R -> R -> Vec3.

(** The angles of one layer: [(i / count) * Math.PI * 2 + rng() * 0.1]. *)
Fixpoint layerAngles (count : nat) (i todo : nat) : M (list R) :=
  match todo with
  | O => ret []
  | S todo' =>
      u <- rng ;;
      rest <- layerAngles count (S i) todo' ;;
      ret (((INR i / INR count) * PI * 2 + u * 0.1) :: rest)
  end.

Fixpoint petalAngles (ls : list nat) : M (list R) :=
  match ls with
  | [] => ret []
  | count :: ls' =>
      here <- layerAngles count 0 count ;;
      rest <- petalAngles ls' ;;
      ret (here ++ rest)
  end.

(** [buildSingleFlowerGeometry()], as far as it touches the generator:
    one call per petal. *)
Definition buildSingleFlowerGeometry : M (list R) := petalAngles layers.

(** The body of the loop of [createFlowerField]. *)
Definition flowerSample (cfg : Config) : M Sample :=
  u <- rand 0 1 ;;
  let r := clearRadius cfg + u * (fieldRadius cfg - clearRadius cfg) in
  a <- rand 0 (PI * 2) ;;
  jx <- rand (-2.5) 2.5 ;;
  let x := cos a * r + jx in
  jz <- rand (-2.5) 2.5 ;;
  let z := sin a * r + jz in
  h <- rand 0.6 1.6 ;;
  s <- rand 0.65 1.4 ;;
  tiltX <- rand (-0.18) 0.18 ;;
  tiltZ <- rand (-0.18) 0.18 ;;
  yaw <- rand 0 (PI * 2) ;;
  hex <- pick 0%Z palette ;;
  dh <- rand (-0.02) 0.02 ;;
  ds <- rand (-0.03) 0.03 ;;
  dl <- rand (-0.04) 0.04 ;;
  sw <- rand 0.3 1.1 ;;
  ph <- rand 0 (PI * 2) ;;
  ret {| inst := {| position := (x, 0, z);
                    rotation := (tiltX, yaw, tiltZ);
                    scale := (s, s * h, s);
                    color := offsetHSL hex dh ds dl;
                    sway := sw;
                    phase := ph |};
         radial := r;
         girth := s;
         heightFactor := h |}.

(** [for (let i = 0; i < CONFIG.flowerCount; i++) { ... }]. *)
Fixpoint fieldLoop (cfg : Config) (n : nat) : M (list Sample) :=
  match n with
  | O => ret []
  | S n' =>
      x <- flowerSample cfg ;;
      rest <- fieldLoop cfg n' ;;
      ret (x :: rest)
  end.

(** [createFlowerField()]: the archetype first, then the instances. *)
Definition createFlowerField (cfg : Config) : M (list Sample) :=
  _ <- buildSingleFlowerGeometry ;;
  fieldLoop cfg (flowerCount cfg).

(** The field of a session: [const rng = mulberry32(CONFIG.seed)] and the
    first use of the generator, [flowerField = createFlowerField()]. *)
Definition samples (cfg : Config) : list Sample :=
  fst (createFlowerField cfg (mulberry32 (seed cfg))).

Definition instances (cfg : Config) : list FlowerInstance :=
  map inst (samples cfg).
End WithColor.

(** An instance of the library's colour function for closed examples: the
    palette colour itself, its three bytes scaled to [[0, 1]], with no
    offset applied. *)
Definition plainColor (hex : Z) (_ _ _ : R) : Vec3 :=
  (IZR (hex / 65536) / 255,
   IZR ((hex / 256) mod 256) / 255,
   IZR (hex mod 256) / 255).

(** What the loop body guarantees of one instance: a radius in the
    annulus, a jitter of at most 2.5 on each horizontal axis around the
    annulus point, and the two factors of the scale in their ranges. *)
Definition placed (cfg : Config) (x : Sample) : Prop :=
  clearRadius cfg <= radial x <= fieldRadius cfg /\
  (exists a jx jz,
      -2.5 <= jx <= 2.5 /\ -2.5 <= jz <= 2.5 /\
      position (inst x) = (cos a * radial x + jx, 0, sin a * radial x + jz)) /\
  0.65 <= girth x <= 1.4 /\
  0.6 <= heightFactor x <= 1.6 /\
  scale (inst x) = (girth x, girth x * heightFactor x, girth x).

(** Distance of a position from the origin (the field is centred there). *)
Definition distance_from_origin (p : Vec3) : R :=
  let '(x, y, z) := p in sqrt (x * x + y * y + z * z).
End FlowerField.

(* ================================================================== *)
(** * Typed arrays and counted loops *)
(* ================================================================== *)

Module TypedArray.
(** [arr[k] = v] on a typed array: a store outside the array is ignored. *)
Fixpoint store {A} (arr : list A) (k : nat) (v : A) : list A :=
  match arr, k with
  | [], _ => []
  | _ :: rest, O => v :: rest
  | a :: rest, S k' => a :: store rest k' v
  end.

(** [for (const x of xs) st = body(x, st)]. *)
Definition for_ {A S} (xs : list A) (body : A -> S -> S) (st : S) : S :=
  fold_left (fun st x => body x st) xs st.
End TypedArray.

(* ================================================================== *)
(** * Numbers with infinities and NaN *)
(* ================================================================== *)

Module JS.
Local Open Scope R_scope.

(** A number: a finite value, read as a real, or one of the three
    non-finite values.  Both zeros are [Fin 0]. *)
Inductive num : Type :=
| Fin (x : R)
| PInf
| NInf
| NaN.

(** [Number.MAX_VALUE] and the largest finite single-precision value. *)
Definition MAX_VALUE : R := (2 - / 2 ^ 52) * 2 ^ 1023.
Definition FLT_MAX : R := (2 - / 2 ^ 23) * 2 ^ 127.

(** The result of an operation whose exact value is [x]: results beyond
    the largest finite value overflow to an infinity. *)
Definition overflow (max x : R) : num :=
  if Rlt_dec max x then PInf
  else if Rlt_dec x (- max) then NInf
  else Fin x.

Definition ofR (x : R) : num := overflow MAX_VALUE x.

Definition ofnat (n : nat) : num := Fin (INR n).

(** [Number.isFinite]. *)
Definition isFinite (a : num) : bool :=
  match a with Fin _ => true | _ => false end.

(** The infinity of the sign of [x * y], for [x], [y] not zero. *)
Definition inf_of_sign (positive : bool) : num :=
  if positive then PInf else NInf.

Definition is_pos (x : R) : bool := if Rlt_dec 0 x then true else false.
Definition is_zero (x : R) : bool := if Req_dec_T x 0 then true else false.

Definition neg (a : num) : num :=
  match a with
  | Fin x => Fin (- x)
  | PInf => NInf
  | NInf => PInf
  | NaN => NaN
  end.

Definition add (a b : num) : num :=
  match a, b with
  | NaN, _ | _, NaN => NaN
  | PInf, NInf | NInf, PInf => NaN
  | PInf, _ | _, PInf => PInf
  | NInf, _ | _, NInf => NInf
  | Fin x, Fin y => ofR (x + y)
  end.

Definition sub (a b : num) : num := add a (neg b).

Definition mul (a b : num) : num :=
  match a, b with
  | NaN, _ | _, NaN => NaN
  | Fin x, Fin y => ofR (x * y)
  | Fin x, PInf | PInf, Fin x =>
      if is_zero x then NaN else inf_of_sign (is_pos x)
  | Fin x, NInf | NInf, Fin x =>
      if is_zero x then NaN else inf_of_sign (negb (is_pos x))
  | PInf, PInf | NInf, NInf => PInf
  | PInf, NInf | NInf, PInf => NInf
  end.

Definition div (a b : num) : num :=
  match a, b with
  | NaN, _ | _, NaN => NaN
  | Fin x, Fin y =>
      if is_zero y then
        (if is_zero x then NaN else inf_of_sign (is_pos x))
      else ofR (x / y)
  | Fin _, PInf | Fin _, NInf => Fin 0
  | PInf, Fin y => inf_of_sign (orb (is_zero y) (is_pos y))
  | NInf, Fin y => inf_of_sign (negb (orb (is_zero y) (is_pos y)))
  | _, _ => NaN
  end.

(** Rounding towards zero. *)
Definition trunc (x : R) : Z :=
  if Rle_dec 0 x then Int_part x else (- Int_part (- x))%Z.

(** [x % y] on finite values, [y] not zero: the remainder of the division
    truncated towards zero; it has the sign of [x]. *)
Definition fmod (x y : R) : R := x - y * IZR (trunc (x / y)).

Definition rem (a b : num) : num :=
  match a, b with
  | NaN, _ | _, NaN => NaN
  | PInf, _ | NInf, _ => NaN
  | Fin x, PInf | Fin x, NInf => Fin x
  | Fin x, Fin y => if is_zero y then NaN else Fin (fmod x y)
  end.

(** [a < b]: false as soon as one side is NaN. *)
Definition lt (a b : num) : bool :=
  match a, b with
  | NaN, _ | _, NaN => false
  | Fin x, Fin y => if Rlt_dec x y then true else false
  | NInf, NInf | PInf, PInf => false
  | NInf, _ | _, PInf => true
  | _, _ => false
  end.

(** [Math.min], [Math.max]: NaN if one argument is NaN. *)
Definition min (a b : num) : num :=
  match a, b with
  | NaN, _ | _, NaN => NaN
  | _, _ => if lt b a then b else a
  end.

Definition max (a b : num) : num :=
  match a, b with
  | NaN, _ | _, NaN => NaN
  | _, _ => if lt a b then b else a
  end.

(** [THREE.MathUtils.clamp(value, min, max)], which is
    [Math.max(min, Math.min(max, value))]. *)
Definition clamp (value lo hi : num) : num := max lo (min hi value).

(** [Math.pow(a, 2)] and [a ** 2]. *)
Definition sqr (a : num) : num := mul a a.

Definition Math_sin (a : num) : num :=
  match a with Fin x => Fin (sin x) | _ => NaN end.

Definition Math_cos (a : num) : num :=
  match a with Fin x => Fin (cos x) | _ => NaN end.

Definition Math_exp (a : num) : num :=
  match a with
  | Fin x => ofR (exp x)
  | PInf => PInf
  | NInf => Fin 0
  | NaN => NaN
  end.

Definition Math_PI : num := Fin PI.

(** Values of magnitude at most 1000: far from any overflow. *)
Definition small (x : R) : Prop := -1000 <= x <= 1000.

(** A store into a [Float32Array]: the conversion to single precision
    overflows beyond [FLT_MAX]. *)
Definition fround (a : num) : num :=
  match a with Fin x => overflow FLT_MAX x | _ => a end.
End JS.

(* ================================================================== *)
(** * Rose bloom surface *)
(* ================================================================== *)

Module Rose.
Import JS TypedArray.
Local Open Scope R_scope.

Definition nu : nat := 28.
Definition nv : nat := 320.

Definition TWO_PI : num := mul Math_PI (Fin 2).

(** [const mod = (n, m) => ((n % m) + m) % m]. *)
Definition mod_ (n m : num) : num := rem (add (rem n m) m) m.

(** [const x = i / (nu - 1)]. *)
Definition x_of (i : nat) : num := div (ofnat i) (sub (ofnat nu) (Fin 1)).

(** [const theta = -TWO_PI + (j / (nv - 1)) * (17 * Math.PI)]. *)
Definition theta_of (j : nat) : num :=
  add (neg TWO_PI)
      (mul (div (ofnat j) (sub (ofnat nv) (Fin 1))) (mul (Fin 17) Math_PI)).

(** [const phi = (Math.PI / 2) * Math.exp(-theta / (8 * Math.PI))]. *)
Definition phi_of (theta : num) : num :=
  mul (div Math_PI (Fin 2))
      (Math_exp (div (neg theta) (mul (Fin 8) Math_PI))).

(** [const t = mod(3.6 * theta, TWO_PI) / Math.PI]. *)
Definition t_of (theta : num) : num :=
  div (mod_ (mul (Fin 3.6) theta) TWO_PI) Math_PI.

(** [X], before and after the clamp. *)
Definition X_raw (theta : num) : num :=
  let inner := sub (Fin 1) (t_of theta) in
  sub (Fin 1)
      (mul (Fin 0.5)
           (sqr (sub (mul (div (Fin 5) (Fin 4)) (sub (Fin 1) (sqr inner)))
                     (Fin 0.25)))).

Definition X_of (theta : num) : num :=
  clamp (X_raw theta) (Fin 0.05) (Fin 1.35).

(** [const y = 1.95653 * (x ** 2) * ((1.27689 * x - 1) ** 2) * Math.sin(phi)]. *)
Definition y_of (x phi : num) : num :=
  mul (mul (mul (Fin 1.95653) (sqr x))
           (sqr (sub (mul (Fin 1.27689) x) (Fin 1))))
      (Math_sin phi).

(** [r] and [h] as first computed. *)
Definition rh_raw (i j : nat) : num * num :=
  let x := x_of i in
  let theta := theta_of j in
  let phi := phi_of theta in
  let X := X_of theta in
  let y := y_of x phi in
  (mul X (add (mul x (Math_sin phi)) (mul y (Math_cos phi))),
   mul X (sub (mul x (Math_cos phi)) (mul y (Math_sin phi)))).

Definition eps : num := Fin 0.002.

(** The guard on the axis:
    [if (!Number.isFinite(r) || !Number.isFinite(h)) { r = eps; h = 0; }
     else if (r < eps) { r = eps; }]. *)
Definition guard (rh : num * num) : num * num :=
  let (r, h) := rh in
  if negb (isFinite r) || negb (isFinite h) then (eps, Fin 0)
  else if lt r eps then (eps, h)
  else (r, h).

Definition scale : num := Fin 0.30.

(** The three numbers stored for grid point [(i, j)]. *)
Definition vertex (i j : nat) : num * num * num :=
  let theta := theta_of j in
  let (r, h) := guard (rh_raw i j) in
  let r := mul r scale in
  let h := mul h scale in
  let px := mul r (Math_sin theta) in
  let py := add h (Fin 0.62) in
  let pz := mul r (Math_cos theta) in
  (fround px, fround py, fround pz).

(** The [positions] array, a [Float32Array] of [nu * nv * 3] zeros filled
    row by row at [base = v * 3], with [v] counting the grid points. *)
Definition put_vertex (i j : nat) (st : list num * nat) : list num * nat :=
  let (positions, v) := st in
  let '(px, py, pz) := vertex i j in
  let base := (v * 3)%nat in
  (store (store (store positions base px) (base + 1) py) (base + 2) pz,
   S v).

Definition positions : list num :=
  fst (for_ (seq 0 nu) (fun i => for_ (seq 0 nv) (put_vertex i))
            (repeat (Fin 0) (nu * nv * 3), 0%nat)).

(** The [indices] array, a [Uint32Array] of [(nu - 1) * (nv - 1) * 6]
    zeros filled through [indices[k++] = ...]: two triangles per quad. *)
Definition put_quad (nv i j : nat) (st : list nat * nat) : list nat * nat :=
  let (indices, k) := st in
  let a := (i * nv + j)%nat in
  let b := ((i + 1) * nv + j)%nat in
  let c := ((i + 1) * nv + (j + 1))%nat in
  let d := (i * nv + (j + 1))%nat in
  let indices := store indices k a in
  let indices := store indices (k + 1) b in
  let indices := store indices (k + 2) d in
  let indices := store indices (k + 3) b in
  let indices := store indices (k + 4) c in
  let indices := store indices (k + 5) d in
  (indices, (k + 6)%nat).

Definition indices_of (nu nv : nat) : list nat :=
  fst (for_ (seq 0 (nu - 1))
            (fun i => for_ (seq 0 (nv - 1)) (put_quad nv i))
            (repeat 0%nat ((nu - 1) * (nv - 1) * 6), 0%nat)).

Definition indices : list nat := indices_of nu nv.

(** The vertex count of the geometry: the count of its position
    attribute, [positions.length / 3]. *)
Definition vertexCount : nat := Nat.div (length positions) 3.
End Rose.

(* ================================================================== *)
(** * Flower archetype: vertex colours *)
(* ================================================================== *)

Module Archetype.
Import TypedArray FlowerField.
Local Open Scope R_scope.

Definition Rltb (x y : R) : bool := if Rlt_dec x y then true else false.

Section Colours.
(** [cStem], [cLeaf], [cPetal], [cCenter]: the components the library
    gives to the four hexadecimal literals. *)
Variables cStem cLeaf cPetal cCenter : Vec3.

(** The colour rule of [buildSingleFlowerGeometry], by height and
    distance from the axis. *)
Definition vertexColor (p : Vec3) : Vec3 :=
  let '(x, y, z) := p in
  let r := sqrt (x * x + z * z) in
  if Rltb y 1.2 then cStem
  else if Rltb y 1.35 && Rltb 0.14 r then cLeaf
  else if Rltb 1.48 y && Rltb r 0.16 then cCenter
  else cPetal.

(** One round of the loop: [colors[i * 3 + 0] = c.r] and so on. *)
Definition put_color (pos : list Vec3) (i : nat) (colors : list R)
  : list R :=
  let '(r, g, b) := vertexColor (nth i pos (0, 0, 0)) in
  let colors := store colors (i * 3 + 0) r in
  let colors := store colors (i * 3 + 1) g in
  store colors (i * 3 + 2) b.

(** [colors], a [Float32Array] of [pos.count * 3] zeros, after the loop
    over the vertices of the merged geometry. *)
Definition colors (pos : list Vec3) : list R :=
  for_ (seq 0 (length pos)) (put_color pos)
       (repeat 0 (length pos * 3)).

(** The count of [new THREE.BufferAttribute(colors, 3)]. *)
Definition colorCount (pos : list Vec3) : nat :=
  Nat.div (length (colors pos)) 3.
End Colours.
End Archetype.

(* ================================================================== *)
(** * Rose stem: the tapered tube *)
(* ================================================================== *)

Module Stem.
Import FlowerField.
Local Open Scope R_scope.

(** The methods of [THREE.Vector3] used by the taper. *)
Definition vadd (a b : Vec3) : Vec3 :=
  let '(ax, ay, az) := a in let '(bx, by_, bz) := b in
  (ax + bx, ay + by_, az + bz).

Definition vsub (a b : Vec3) : Vec3 :=
  let '(ax, ay, az) := a in let '(bx, by_, bz) := b in
  (ax - bx, ay - by_, az - bz).

Definition dot (a b : Vec3) : R :=
  let '(ax, ay, az) := a in let '(bx, by_, bz) := b in
  ax * bx + ay * by_ + az * bz.

Definition multiplyScalar (a : Vec3) (k : R) : Vec3 :=
  let '(ax, ay, az) := a in (ax * k, ay * k, az * k).

(** [a.addScaledVector(v, k)]. *)
Definition addScaledVector (a v : Vec3) (k : R) : Vec3 :=
  let '(ax, ay, az) := a in let '(vx, vy, vz) := v in
  (ax + vx * k, ay + vy * k, az + vz * k).

Definition lengthSq (a : Vec3) : R := dot a a.
Definition length (a : Vec3) : R := sqrt (lengthSq a).

(** [divideScalar(k) = multiplyScalar(1 / k)] and
    [normalize() = divideScalar(length() || 1)]. *)
Definition divideScalar (a : Vec3) (k : R) : Vec3 := multiplyScalar a (1 / k).

Definition or_one (l : R) : R := if Req_dec_T l 0 then 1 else l.

Definition normalize (a : Vec3) : Vec3 := divideScalar a (or_one (length a)).

(** [setLength(l) = normalize().multiplyScalar(l)]. *)
Definition setLength (a : Vec3) (l : R) : Vec3 :=
  multiplyScalar (normalize a) l.

(** [THREE.MathUtils.lerp(x, y, t) = (1 - t) * x + t * y]. *)
Definition lerp (x y t : R) : R := (1 - t) * x + t * y.

Definition tubularSegments : nat := 120.
Definition radialSegments : nat := 14.
Definition ringSize : nat := radialSegments + 1.

Definition rBase : R := 0.052.
Definition rTop : R := 0.028.

(** [mesh.userData.radiusAt]. *)
Definition radiusAt (t : R) : R := lerp rBase rTop t.

(** The body of the inner loop: the vertex [p] of the unit tube is moved
    to distance [r] from the curve point [c], in the plane of the normal
    [n] and the binormal [b]. *)
Definition rebuild (n b : Vec3) (tmp : Vec3) (r : R) : Vec3 :=
  let offN := dot tmp n in
  let offB := dot tmp b in
  let rebuilt := addScaledVector (addScaledVector (0, 0, 0) n offN) b offB in
  if Archetype.Rltb (lengthSq rebuilt) (/ 100000000)
  then multiplyScalar n r
  else setLength rebuilt r.

Definition ringVertex (c n b p : Vec3) (r : R) : Vec3 :=
  vadd c (rebuild n b (vsub p c) r).

Section Tube.
(** What the library hands to the loop: [curve.getPointAt], the frames
    of [curve.computeFrenetFrames] and the positions of the
    [TubeGeometry] of radius 1. *)
Variable getPointAt : R -> Vec3.
Variables normals binormals : nat -> Vec3.
Variable tube : nat -> Vec3.

(** [const t = i / tubularSegments]. *)
Definition param (i : nat) : R := INR i / INR tubularSegments.

(** The position written at [idx = i * ringSize + j]. *)
Definition stemVertex (i j : nat) : Vec3 :=
  ringVertex (getPointAt (param i)) (normals i) (binormals i)
             (tube (i * ringSize + j)%nat)
             (lerp rBase rTop (param i)).
End Tube.
End Stem.

(* ================================================================== *)
(** * Wind: the vertex displacement of the field shader *)
(* ================================================================== *)

Module Wind.
Import FlowerField.
Local Open Scope R_scope.

(** The built-in functions of the shading language. *)
Definition clamp (x lo hi : R) : R := Rmin (Rmax x lo) hi.

Definition smoothstep (edge0 edge1 x : R) : R :=
  let t := clamp ((x - edge0) / (edge1 - edge0)) 0 1 in
  t * t * (3 - 2 * t).

Definition yMask (y : R) : R := clamp (y * 0.70) 0 1.
Definition topBend (y : R) : R := smoothstep 1.2 1.6 y.

(** The lines added after [#include <begin_vertex>]: [transformed] before
    and after. *)
Definition displace (uTime aSway aPhase : R) (transformed : Vec3) : Vec3 :=
  let '(x, y, z) := transformed in
  let t := uTime * 1.1 + aPhase in
  let bendX := sin t * 0.12 * aSway in
  let bendZ := cos (t * 0.85) * 0.09 * aSway in
  let x := x + bendX * yMask y in
  let z := z + bendZ * yMask y in
  let x := x + sin (t * 1.3) * 0.08 * topBend y * aSway in
  (x, y, z).
End Wind.

(* ================================================================== *)
(** * Interaction: the tap on the rose *)
(* ================================================================== *)

Module Tap.
Import JS.
Local Open Scope R_scope.

(** What [onRoseTapped] does to the page and the scene. *)
Inductive Signal : Type := HideHint | ShowCard | StartPop | PlayChime.

(** The globals [lastTapTime] and [triggered], and the signals sent so
    far. *)
Record State : Type := mkState {
  lastTapTime : num;
  triggered : bool;
  sent : list Signal
}.

(** [let lastTapTime = -Infinity; let triggered = false;]. *)
Definition boot : State :=
  {| lastTapTime := NInf; triggered := false; sent := [] |}.

(** A pointer-down: the value of [performance.now()] and whether the ray
    hits the collider ([hits.length] not zero). *)
Record PointerDown : Type := mkPointerDown {
  now : R;
  hit : bool
}.

(** The effects of the handler: [hintEl.classList.add('hide')],
    [cardEl.classList.add('show')], [playChime()]; the second copy of the
    handler in the file also calls [rose.pop()]. *)
Definition effects : list Signal := [HideHint; ShowCard; PlayChime].
Definition effects_with_pop : list Signal :=
  [HideHint; ShowCard; StartPop; PlayChime].

Section Handler.
Variable fx : list Signal.
Variable cfg : Config.

(** [onRoseTapped()]. *)
Definition onRoseTapped (st : State) : State :=
  if triggered st then st
  else {| lastTapTime := lastTapTime st;
          triggered := true;
          sent := sent st ++ fx |}.

(** The cooldown test: [now - lastTapTime < CONFIG.tapCooldownMs]. *)
Definition cooling (e : PointerDown) (st : State) : bool :=
  lt (sub (Fin (now e)) (lastTapTime st)) (Fin (tapCooldownMs cfg)).

(** An event is accepted when the handler does not return at the
    cooldown test. *)
Definition accepted (e : PointerDown) (st : State) : bool :=
  negb (cooling e st).

(** [onPointerDown(e)]. *)
Definition onPointerDown (e : PointerDown) (st : State) : State :=
  if cooling e st then st
  else
    let st := {| lastTapTime := Fin (now e);
                 triggered := triggered st;
                 sent := sent st |} in
    if hit e then onRoseTapped st else st.

(** Armed with nothing sent, or triggered with the effects sent once. *)
Definition one_shot (st : State) : Prop :=
  (triggered st = false /\ sent st = []) \/
  (triggered st = true /\ sent st = fx).

(** A session: the events in order. *)
Definition run (events : list PointerDown) (st : State) : State :=
  fold_left (fun st e => onPointerDown e st) events st.

(** Which events of a session are accepted. *)
Fixpoint acceptance (events : list PointerDown) (st : State) : list bool :=
  match events with
  | [] => []
  | e :: rest => accepted e st :: acceptance rest (onPointerDown e st)
  end.
End Handler.
End Tap.

(** The exact values of the finite case of the bloom surface: what the
    operations of [Rose] compute when nothing overflows. *)
Module RoseR.
Local Open Scope R_scope.

Definition xR (i : nat) : R := INR i / (INR Rose.nu - 1).
Definition thetaR (j : nat) : R :=
  - (PI * 2) + INR j / (INR Rose.nv - 1) * (17 * PI).
Definition phiR (theta : R) : R := PI / 2 * exp (- theta / (8 * PI)).
Definition tR (theta : R) : R :=
  JS.fmod (JS.fmod (3.6 * theta) (PI * 2) + PI * 2) (PI * 2) / PI.
Definition wR (theta : R) : R :=
  5 / 4 * (1 - (1 - tR theta) * (1 - tR theta)) - 0.25.
Definition XR (theta : R) : R := 1 - 0.5 * (wR theta * wR theta).
Definition petalR (x : R) : R :=
  1.95653 * (x * x) * ((1.27689 * x - 1) * (1.27689 * x - 1)).
Definition yR (x phi : R) : R := petalR x * sin phi.
Definition rR (x theta : R) : R :=
  XR theta * (x * sin (phiR theta) + yR x (phiR theta) * cos (phiR theta)).
Definition hR (x theta : R) : R :=
  XR theta * (x * cos (phiR theta) - yR x (phiR theta) * sin (phiR theta)).
End RoseR.

(* ================================================================== *)
(** * Loops that fill a typed array front to back *)
(* ================================================================== *)

Module Fill.
(** [body] writes [chunk] right after the part already written.  The
    counter [cnt] of the loop stands for the array index [cnt * r] and
    advances by [u]; [z] is the value the array was allocated with. *)
Definition fills {A} (r u : nat) (z : A) (chunk : list A)
    (body : list A * nat -> list A * nat) : Prop :=
  length chunk = u * r /\
  forall pre m cnt,
    length pre = cnt * r -> u * r <= m ->
    body (pre ++ repeat z m, cnt)
    = (pre ++ chunk ++ repeat z (m - u * r), cnt + u).
End Fill.

(** The entries one grid point and one quad of the bloom surface put into
    the buffers, as lists. *)
Module RoseLayout.
Import JS Rose.

Definition quad_indices (nv0 i j : nat) : list nat :=
  [i * nv0 + j; (i + 1) * nv0 + j; i * nv0 + (j + 1);
   (i + 1) * nv0 + j; (i + 1) * nv0 + (j + 1); i * nv0 + (j + 1)]%nat.

Definition vertex_entries (i j : nat) : list num :=
  let '(px, py, pz) := vertex i j in [px; py; pz].
End RoseLayout.

(* ================================================================== *)
(** * Pointer coordinates *)
(* ================================================================== *)

Module Pointer.
Local Open Scope R_scope.

(** The normalised device coordinates [onPointerDown] hands to the
    raycaster, from the pointer position and the rectangle of the canvas:
    [x = ((e.clientX - rect.left) / rect.width) * 2 - 1] and
    [y = -(((e.clientY - rect.top) / rect.height) * 2 - 1)]. *)
Definition ndc (clientX clientY left top width height : R) : R * R :=
  ((clientX - left) / width * 2 - 1,
   - ((clientY - top) / height * 2 - 1)).
End Pointer.

(* ================================================================== *)
(** * Easing curves and the pop of the rose *)
(* ================================================================== *)

Module Pop.
Local Open Scope R_scope.

(** The helpers at the end of the file. *)
Definition lerp (a b t : R) : R := a + (b - a) * t.

Definition easeOutCubic (t : R) : R := 1 - (1 - t) ^ 3.

Definition easeOutBack (t : R) : R :=
  let c1 := 1.70158 in
  let c3 := c1 + 1 in
  1 + c3 * (t - 1) ^ 3 + c1 * (t - 1) ^ 2.

Definition upPhase : R := 0.65.
Definition peak : R := 1.14.

(** The factor [k] by which [animateRose] multiplies the scale of the rose
    at progress [u] of a pop. *)
Definition popFactor (u : R) : R :=
  if Archetype.Rltb u upPhase
  then lerp 1.0 peak (easeOutBack (u / upPhase))
  else lerp peak 1.0 (easeOutCubic ((u - upPhase) / (1 - upPhase))).

(** [popAnim]: [null], or the start and the duration of the pop. *)
Record PopAnim : Type := mkPopAnim { start : R; duration : R }.

(** [pop()], called at time [performance.now() = now]. *)
Definition pop (now : R) : option PopAnim :=
  Some {| start := now; duration := 520 |}.

(** [const u = Math.min(1, (now - popAnim.start) / popAnim.duration)]. *)
Definition progress (p : PopAnim) (now : R) : R :=
  Rmin 1 ((now - start p) / duration p).

(** The part of [animateRose] under [if (popAnim)]: the factor applied to
    the scale in this frame (1 when nothing is applied) and the new value
    of [popAnim]. *)
Definition popStep (popAnim : option PopAnim) (now : R)
  : R * option PopAnim :=
  match popAnim with
  | None => (1, None)
  | Some p =>
      let u := progress p now in
      (popFactor u, if Rle_dec 1 u then None else Some p)
  end.

(** What [animateRose] writes to the group of the rose. *)
Record Pose : Type := mkPose {
  rotation_y : R; rotation_z : R;
  scale_x : R; scale_y : R; scale_z : R
}.

Section AnimateRose.
(** [baseRot] and [baseScale], cloned when the rose is created. *)
Variables baseRot_y baseRot_z : R.
Variables baseScale_x baseScale_y baseScale_z : R.

(** [animateRose(t)], called in a frame where [performance.now()] is
    [now]: the pose it writes and the new value of [popAnim]. *)
Definition animateRose (t now : R) (popAnim : option PopAnim)
  : Pose * option PopAnim :=
  let sway := sin (t * 0.85) * 0.055 in
  let swayZ := cos (t * 0.65) * 0.028 in
  let breath := 1.0 + sin (t * 1.1) * 0.015 in
  let sx := baseScale_x * breath in
  let sy := baseScale_y * (1.0 + sin (t * 1.1 + 1.2) * 0.012) in
  let sz := baseScale_z * breath in
  let '(k, popAnim') := popStep popAnim now in
  ({| rotation_y := baseRot_y + sway;
      rotation_z := baseRot_z + swayZ;
      scale_x := sx * k; scale_y := sy * k; scale_z := sz * k |},
   popAnim').
End AnimateRose.
End Pop.

(* ================================================================== *)
(** * Falling hearts *)
(* ================================================================== *)

Module Hearts.
Import Rng.
Local Open Scope rng_scope.
Local Open Scope R_scope.

#[local] Abbreviation Vec3 := FlowerField.Vec3.

(** The fields of [CONFIG] for the hearts; [heartCount] is
    [isMobile() ? 200 : 400]. *)
Record HeartConfig : Type := mkHeartConfig {
  heartCount : nat;
  heartFallSpeedMin : R;
  heartFallSpeedMax : R;
  heartStartYMin : R;
  heartStartYMax : R;
  heartScale : R
}.

Definition HEARTS (mobile : bool) : HeartConfig :=
  {| heartCount := if mobile then 200 else 400;
     heartFallSpeedMin := -0.5;
     heartFallSpeedMax := -1.2;
     heartStartYMin := 10;
     heartStartYMax := 20;
     heartScale := 0.4 |}.

(** Entry [i] of the arrays [positions], [velocities] and [phases]. *)
Record Heart : Type := mkHeart {
  position : Vec3;
  velocity : R;
  phase : R
}.

(** An instance matrix, given by the arguments of [tmpM.compose]: the
    position, the quaternion (by its Euler angles) and the scale. *)
Record Matrix : Type := mkMatrix {
  translation : Vec3;
  euler : Vec3;
  scaling : Vec3
}.

(** What the closure [update] shares with the creation loop: the three
    arrays, the instance matrices of the mesh, and the scratch objects
    [tmpQ] and [tmpS]. *)
Record State : Type := mkState {
  hearts : list Heart;
  instanceMatrix : list Matrix;
  tmpQ : Vec3;
  tmpS : Vec3
}.

(** Before the loop: empty arrays, the identity quaternion and
    [new THREE.Vector3(1, 1, 1)]. *)
Definition initial : State :=
  {| hearts := []; instanceMatrix := [];
     tmpQ := (0, 0, 0); tmpS := (1, 1, 1) |}.

Definition height (h : Heart) : R := snd (fst (position h)).
Definition offAxisSq (h : Heart) : R :=
  fst (fst (position h)) * fst (fst (position h))
  + snd (position h) * snd (position h).

(** A heart within the ranges of a spawn: at most [fieldRadius * 1.2] from
    the axis, between the two start heights, and with a speed between
    [heartFallSpeedMax] and [heartFallSpeedMin]. *)
Definition spawned (cfg : Config) (hc : HeartConfig) (h : Heart) : Prop :=
  offAxisSq h <= (fieldRadius cfg * 1.2) * (fieldRadius cfg * 1.2) /\
  heartStartYMin hc <= height h <= heartStartYMax hc /\
  heartFallSpeedMax hc <= velocity h <= heartFallSpeedMin hc.

(** The hearts that a frame of length [delta] takes below the ground. *)
Definition respawns (delta : R) (hs : list Heart) : nat :=
  length (filter (fun h =>
                    Archetype.Rltb (height h + velocity h * delta) 0) hs).

(** The matrix composed from the scratch objects as they are before the
    creation loop. *)
Definition unset : Matrix :=
  {| translation := (0, 0, 0); euler := (0, 0, 0); scaling := (1, 1, 1) |}.

Section WithConfig.
Variable cfg : Config.
Variable hc : HeartConfig.

(** One turn of the creation loop; [setMatrixAt(i, tmpM)] and the three
    [push]es fill the next entry. *)
Definition createBody (st : State) : M State :=
  r <- rand 0 (fieldRadius cfg * 1.2) ;;
  a <- rand 0 (PI * 2) ;;
  let x := cos a * r in
  let z := sin a * r in
  y <- rand (heartStartYMin hc) (heartStartYMax hc) ;;
  ex <- rand 0 PI ;;
  ey <- rand 0 (PI * 2) ;;
  ez <- rand 0 PI ;;
  s <- rand 0.5 1.5 ;;
  let q := (ex, ey, ez) in
  let sc := heartScale hc * s in
  v <- rand (heartFallSpeedMin hc) (heartFallSpeedMax hc) ;;
  ph <- rand 0 (PI * 2) ;;
  ret {| hearts := hearts st ++ [mkHeart (x, y, z) v ph];
         instanceMatrix :=
           instanceMatrix st ++ [mkMatrix (x, y, z) q (sc, sc, sc)];
         tmpQ := q;
         tmpS := (sc, sc, sc) |}.

Fixpoint createLoop (n : nat) (st : State) : M State :=
  match n with
  | O => ret st
  | S n' => st' <- createBody st ;; createLoop n' st'
  end.

Definition createFallingHearts : M State :=
  createLoop (heartCount hc) initial.

(** One turn of the loop of [update(delta, t)]: the new entry [i] of the
    arrays. *)
Definition updateHeart (delta t : R) (h : Heart) : M Heart :=
  let '(x, y, z) := position h in
  let y := y + velocity h * delta in
  let swayX := sin (t + phase h) * 0.5 in
  let swayZ := cos (t + phase h * 0.7) * 0.3 in
  let x := x + swayX * delta in
  let z := z + swayZ * delta in
  if Archetype.Rltb y 0 then
    r <- rand 0 (fieldRadius cfg * 1.2) ;;
    a <- rand 0 (PI * 2) ;;
    y' <- rand (heartStartYMin hc) (heartStartYMax hc) ;;
    v <- rand (heartFallSpeedMin hc) (heartFallSpeedMax hc) ;;
    ret (mkHeart (cos a * r, y', sin a * r) v (phase h))
  else
    ret (mkHeart (x, y, z) (velocity h) (phase h)).

Fixpoint updateLoop (delta t : R) (hs : list Heart) : M (list Heart) :=
  match hs with
  | [] => ret []
  | h :: rest =>
      h' <- updateHeart delta t h ;;
      rest' <- updateLoop delta t rest ;;
      ret (h' :: rest')
  end.

(** [update(delta, t)]: the loop visits the [heartCount] entries of the
    arrays; every matrix is composed anew from the moved position and
    the scratch objects [tmpQ] and [tmpS]. *)
Definition update (delta t : R) (st : State) : M State :=
  hs <- updateLoop delta t (hearts st) ;;
  ret {| hearts := hs;
         instanceMatrix :=
           map (fun h => mkMatrix (position h) (tmpQ st) (tmpS st)) hs;
         tmpQ := tmpQ st;
         tmpS := tmpS st |}.

(** [frames]: [update] called once per frame with the given
    [(delta, t)] pairs. *)
Fixpoint frames (fs : list (R * R)) (st : State) : M State :=
  match fs with
  | [] => ret st
  | (delta, t) :: rest => st' <- update delta t st ;; frames rest st'
  end.
End WithConfig.
End Hearts.

(* ================================================================== *)
(** * The serrated leaflet: its outline *)
(* ================================================================== *)

Module Leaflet.
Local Open Scope R_scope.

Abbreviation Vec2 := (R * R)%type.

Definition toothDepth : R := 0.008.

(** [p.x = -p.x] on a clone of [p]. *)
Definition mirror (p : Vec2) : Vec2 := (- fst p, snd p).

Section Outline.
(** The arguments [length], [width] and [numTeeth]. *)
Variables (length width : R) (numTeeth : nat).

Definition halfWidth : R := width / 2.

(** The two points pushed in turn [i] of the first loop. *)
Definition edgePoint (i : nat) : Vec2 :=
  let t := INR i / INR numTeeth in
  let y := t * length in
  let w := halfWidth * sin (PI * t) in
  (- w, y).

Definition toothPoint (i : nat) : Vec2 :=
  let tt := (INR i - 0.5) / INR numTeeth in
  let ty := tt * length in
  let tw := halfWidth * sin (PI * tt) in
  (- tw - toothDepth, ty).

(** [leftPoints]: the base, two points for [i = 1 .. numTeeth - 1], the
    tip. *)
Definition leftPoints : list Vec2 :=
  (0, 0)
    :: flat_map (fun i => [edgePoint i; toothPoint i])
                (seq 1 (numTeeth - 1))
    ++ [(0, length)].

(** [rightPoints]: entry [i] is the mirrored clone of
    [leftPoints[leftPoints.length - 1 - i]]. *)
Definition rightPoints : list Vec2 :=
  map (fun i =>
         mirror (nth (List.length leftPoints - 1 - i) leftPoints (0, 0)))
      (seq 0 (List.length leftPoints)).

(** [leftPoints.concat(rightPoints.slice(1))]. *)
Definition allPoints : list Vec2 := leftPoints ++ skipn 1 rightPoints.

(** The bend written to the z coordinate of a vertex at [(x, y)]. *)
Definition curve (x y : R) : R := sin ((y / length) * PI) * x * 1.2.
End Outline.

(** The box [|x| <= width / 2 + toothDepth], [0 <= y <= length]. *)
Definition inBox (length width : R) (p : Vec2) : Prop :=
  Rabs (fst p) <= width / 2 + toothDepth /\ 0 <= snd p <= length.
End Leaflet.

(* ================================================================== *)
(** * Thorns on the stem *)
(* ================================================================== *)

Module Thorns.
Import FlowerField Stem.
Local Open Scope R_scope.

(** [crossVectors(a, b)] of [THREE.Vector3]. *)
Definition crossVectors (a b : Vec3) : Vec3 :=
  let '(ax, ay, az) := a in let '(bx, by_, bz) := b in
  (ay * bz - az * by_, az * bx - ax * bz, ax * by_ - ay * bx).

Definition thornCount : nat := 9.

(** [const u = i / (thornCount - 1)] and
    [const t = THREE.MathUtils.lerp(0.18, 0.74, u)]. *)
Definition u (i : nat) : R := INR i / INR (thornCount - 1).
Definition t (i : nat) : R := lerp 0.18 0.74 (u i).

(** The reference vector: [(0, 1, 0)] unless the tangent is too close to
    it. *)
Definition up (tangent : Vec3) : Vec3 :=
  if Archetype.Rltb 0.9 (Rabs (dot tangent (0, 1, 0)))
  then (1, 0, 0) else (0, 1, 0).

Definition normal (tangent : Vec3) : Vec3 :=
  normalize (crossVectors tangent (up tangent)).

Definition binormal (tangent : Vec3) : Vec3 :=
  normalize (crossVectors (normal tangent) tangent).

Definition angle (i : nat) : R := u i * PI * 2 * 1.8 + INR i * 0.45.

Definition outward (tangent : Vec3) (i : nat) : Vec3 :=
  normalize
    (addScaledVector
       (addScaledVector (0, 0, 0) (normal tangent) (cos (angle i)))
       (binormal tangent) (sin (angle i))).

Section Curve.
(** [curve.getPointAt] and [curve.getTangentAt] of the stem. *)
Variables getPointAt getTangentAt : R -> Vec3.

Definition tangentAt (i : nat) : Vec3 := normalize (getTangentAt (t i)).

(** [thornPos] of thorn [i]; the thorn then looks at
    [thornPos + outward]. *)
Definition thornPos (i : nat) : Vec3 :=
  addScaledVector (getPointAt (t i)) (outward (tangentAt i) i)
                  (radiusAt (t i) * 0.98).

Definition lookAtTarget (i : nat) : Vec3 :=
  vadd (thornPos i) (outward (tangentAt i) i).
End Curve.
End Thorns.

(* ================================================================== *)
(** * Ground and grass *)
(* ================================================================== *)

Module Ground.
Local Open Scope R_scope.

(** The height that the first loop of [createGround] writes at
    [(x, z)]. *)
Definition terrainY (x z : R) : R :=
  sin (x * 0.035) * 0.09 +
  cos (z * 0.030) * 0.09 +
  sin ((x + z) * 0.020) * 0.06.

(** The local function [heightAt] used for the grass. *)
Definition heightAt (x z : R) : R :=
  sin (x * 0.035) * 0.09 +
  cos (z * 0.030) * 0.09 +
  sin ((x + z) * 0.020) * 0.06.

(** Half the side of [new THREE.PlaneGeometry(260, 260, 120, 120)]. *)
Definition halfSide : R := 260 / 2.

(** The blend factor [n] of the vertex colours. *)
Definition noise (x z : R) : R :=
  let n1 := 0.5 + 0.5 * sin (x * 0.09) * cos (z * 0.08) in
  let n2 := 0.5 + 0.5 * sin ((x + z) * 0.05) in
  n1 * 0.65 + n2 * 0.35.

(** One channel of [THREE.Color.lerp]: [this.r += (color.r - this.r) *
    alpha]. *)
Definition mix (c target alpha : R) : R := c + (target - c) * alpha.

(** One channel of
    [base.clone().lerp(dark, (1.0 - n) * 0.55).lerp(light, n * 0.45)]. *)
Definition vertexChannel (base dark light : R) (x z : R) : R :=
  let n := noise x z in
  mix (mix base dark ((1.0 - n) * 0.55)) light (n * 0.45).

(** A blade of grass: what the loop writes to [positions], [sizes] and
    [phases], from the four results of [Math.random()] of the turn. *)
Record Blade : Type := mkBlade {
  bx : R; by_ : R; bz : R;
  size : R;
  phase : R
}.

Definition blade (r1 r2 r3 r4 : R) : Blade :=
  let x := (r1 - 0.5) * 250 in
  let z := (r2 - 0.5) * 250 in
  let y := heightAt x z + 0.01 in
  {| bx := x; by_ := y; bz := z;
     size := 0.035 + r3 * 0.055;
     phase := r4 * PI * 2 |}.
End Ground.

(* ================================================================== *)
(** * A run of the page: the seeded generator and [Math.random] *)
(* ================================================================== *)

Module Session.
Import Rng FlowerField.
Local Open Scope R_scope.

(** The two sources of random numbers of a run.  [gen] is the captured
    state of the shared generator [rng].  [Math.random] is not seeded by
    the page: the results of its successive calls in this run are
    [entropy 0], [entropy 1], ..., and [calls] counts the calls made. *)
Record World : Type := mkWorld {
  gen : Rng.state;
  entropy : nat -> R;
  calls : nat
}.

(** Code that may call both. *)
Definition Run (A : Type) : Type := World -> A * World.

Definition unit_ {A} (x : A) : Run A := fun w => (x, w).
Definition then_ {A B} (m : Run A) (k : A -> Run B) : Run B :=
  fun w => let (x, w') := m w in k x w'.

Declare Scope run_scope.
Delimit Scope run_scope with run.
Notation "x <<- m ;; k" := (then_ m (fun x => k))
  (at level 61, m at next level, right associativity) : run_scope.
Local Open Scope run_scope.

(** [Math.random()]. *)
Definition Math_random : Run R :=
  fun w => (entropy w (calls w),
            {| gen := gen w; entropy := entropy w; calls := S (calls w) |}).

(** Code that calls only [rng], [rand] and [pick]. *)
Definition seeded {A} (m : Rng.M A) : Run A :=
  fun w => let (x, a) := m (gen w) in
           (x, {| gen := a; entropy := entropy w; calls := calls w |}).

(** The grass of [createGround]: [grassCount] blades, four calls of
    [Math.random] each (x, z, size, phase). *)
Definition grassCount (mobile : bool) : nat :=
  if mobile then 22000 else 55000.

Definition grassBlade : Run Ground.Blade :=
  r1 <<- Math_random ;;
  r2 <<- Math_random ;;
  r3 <<- Math_random ;;
  r4 <<- Math_random ;;
  unit_ (Ground.blade r1 r2 r3 r4).

Fixpoint grassLoop (n : nat) : Run (list Ground.Blade) :=
  match n with
  | O => unit_ []
  | S n' =>
      b <<- grassBlade ;;
      rest <<- grassLoop n' ;;
      unit_ (b :: rest)
  end.

Definition createGround (mobile : bool) : Run (list Ground.Blade) :=
  grassLoop (grassCount mobile).

(** The end of a turn of [addThornsToStem]: the angles of
    [thorn.rotateZ((Math.random() - 0.5) * 0.25)] and
    [thorn.rotateY((Math.random() - 0.5) * 0.18)]. *)
Definition thornJitter : Run (R * R) :=
  r1 <<- Math_random ;;
  r2 <<- Math_random ;;
  unit_ ((r1 - 0.5) * 0.25, (r2 - 0.5) * 0.18).

Fixpoint thornLoop (n : nat) : Run (list (R * R)) :=
  match n with
  | O => unit_ []
  | S n' =>
      j <<- thornJitter ;;
      rest <<- thornLoop n' ;;
      unit_ (j :: rest)
  end.

Definition addThornsToStem : Run (list (R * R)) :=
  thornLoop Thorns.thornCount.

(** What [init] builds from random numbers. *)
Record Scene : Type := mkScene {
  grass : list Ground.Blade;
  flowerField : list Sample;
  thornJitters : list (R * R);
  fallingHearts : Hearts.State
}.

Section Init.
Variable offsetHSL : Z -> R -> R -> R -> Vec3.
Variable cfg : Config.
Variable hc : Hearts.HeartConfig.
Variable mobile : bool.

(** [init()], in the order of its calls: [initScene()] (which calls
    [createGround()]), [createFlowerField()], [createRose()] (which
    calls [addThornsToStem]) and [createFallingHearts()]. *)
Definition init : Run Scene :=
  g <<- createGround mobile ;;
  f <<- seeded (createFlowerField offsetHSL cfg) ;;
  t <<- addThornsToStem ;;
  h <<- seeded (Hearts.createFallingHearts cfg hc) ;;
  unit_ {| grass := g; flowerField := f;
           thornJitters := t; fallingHearts := h |}.

(** A run of the page with the results [e] of [Math.random]:
    [const rng = mulberry32(CONFIG.seed)] when the module is loaded,
    then [init()]. *)
Definition run (e : nat -> R) : Scene :=
  fst (init {| gen := mulberry32 (seed cfg); entropy := e;
               calls := 0 |}).
End Init.
End Session.

(* ================================================================== *)
(** * Rose bloom surface: the evaluation at a sample point *)
(* ================================================================== *)

Module RoseSurface.
Import JS Rose.
Local Open Scope R_scope.

(** The body of the inner loop from [const phi] to the first values of
    [r] and [h], as a function of [x] and [theta]. *)
Definition surface (x theta : num) : num * num :=
  let phi := phi_of theta in
  let X := X_of theta in
  let y := y_of x phi in
  (mul X (add (mul x (Math_sin phi)) (mul y (Math_cos phi))),
   mul X (sub (mul x (Math_cos phi)) (mul y (Math_sin phi)))).

(** [x = i / (nu - 1)] and
    [theta = -TWO_PI + (j / (nv - 1)) * (17 * Math.PI)] for a grid of
    [nu0] by [nv0] samples; the source fixes [nu = 28] and [nv = 320]. *)
Definition x_at (nu0 i : nat) : num :=
  div (ofnat i) (sub (ofnat nu0) (Fin 1)).

Definition theta_at (nv0 j : nat) : num :=
  add (neg TWO_PI)
      (mul (div (ofnat j) (sub (ofnat nv0) (Fin 1))) (mul (Fin 17) Math_PI)).

(** The first values of [r] and [h] at sample point [(i, j)]. *)
Definition sample (nu0 nv0 i j : nat) : num * num :=
  surface (x_at nu0 i) (theta_at nv0 j).
End RoseSurface.

(* ================================================================== *)
(** * 32-bit conversions: ranges *)
(* ================================================================== *)

Module Int32Facts.
Import Int32.
Local Open Scope Z_scope.

(** The low 32 bits are the number modulo [2^32]. *)
Lemma ToUint32_mod x : ToUint32 x = x mod two32.
Proof.
  unfold ToUint32, two32. change 4294967295 with (Z.ones 32).
  rewrite Z.land_ones by lia. reflexivity.
Qed.

Lemma ToUint32_range x : 0 <= ToUint32 x < two32.
Proof.
  rewrite ToUint32_mod. unfold two32. apply Z.mod_pos_bound. lia.
Qed.

Lemma ToInt32_range x : - two31 <= ToInt32 x < two31.
Proof.
  unfold ToInt32. pose proof (ToUint32_range x) as H.
  destruct (ToUint32 x <? two31) eqn:E;
    [apply Z.ltb_lt in E | apply Z.ltb_ge in E];
    unfold two31, two32 in *; lia.
Qed.

(** [ToInt32] differs from the number by a multiple of [2^32]. *)
Lemma ToInt32_mod x : ToInt32 x mod two32 = x mod two32.
Proof.
  unfold ToInt32. rewrite ToUint32_mod.
  destruct (x mod two32 <? two31).
  - apply Z.mod_mod. unfold two32. lia.
  - rewrite <- (Z.mod_add _ 1 two32) by (unfold two32; lia).
    replace (x mod two32 - two32 + 1 * two32) with (x mod two32) by lia.
    apply Z.mod_mod. unfold two32. lia.
Qed.

Lemma ToUint32_idem x : ToUint32 (ToUint32 x) = ToUint32 x.
Proof.
  rewrite !ToUint32_mod. unfold two32. apply Z.mod_mod. lia.
Qed.

Lemma ushr_0_range a : 0 <= ushr a 0 < two32.
Proof.
  unfold ushr. change (0 mod 32) with 0. rewrite Z.shiftr_0_r.
  apply ToUint32_range.
Qed.
End Int32Facts.

(* ================================================================== *)
(** * The generator: range and call counts *)
(* ================================================================== *)

Module RngFacts.
Import Int32 Int32Facts Rng.
Local Open Scope rng_scope.

Lemma bits_range a : (0 <= fst (next_bits a) < two32)%Z.
Proof. unfold next_bits; cbn [fst]. apply ushr_0_range. Qed.

(** [rng()] is in [[0, 1)]. *)
Lemma rng_range a : (0 <= fst (rng a) < 1)%R.
Proof.
  unfold rng, bind, bits, ret.
  destruct (next_bits a) as [k a'] eqn:E. cbn [fst].
  pose proof (bits_range a) as H. rewrite E in H. cbn [fst] in H.
  destruct H as [H0 H1]. apply IZR_le in H0. apply IZR_lt in H1.
  unfold two32 in H1. split.
  - apply Rmult_le_pos; [exact H0 | lra].
  - apply Rmult_lt_reg_r with 4294967296%R; [lra |].
    unfold Rdiv. rewrite Rmult_assoc, Rinv_l by lra. lra.
Qed.

Lemma rng_state a : snd (rng a) = step a.
Proof.
  unfold rng, bind, bits, ret, step. destruct (next_bits a); reflexivity.
Qed.

(** [rand(min, max)] stays between its bounds. *)
Lemma rand_range min max a :
  (min <= max)%R -> (min <= fst (rand min max a) <= max)%R.
Proof.
  intros Hle. unfold rand, bind, ret.
  pose proof (rng_range a) as H. destruct (rng a) as [u a']. cbn [fst] in *.
  split; nra.
Qed.

Lemma rand_state min max a : snd (rand min max a) = step a.
Proof.
  unfold rand, bind, ret. rewrite <- rng_state.
  destruct (rng a); reflexivity.
Qed.

Lemma rand_value min max a :
  fst (rand min max a)
  = (min + IZR (fst (next_bits a)) / 4294967296 * (max - min))%R.
Proof.
  unfold rand, rng, bits, bind, ret. destruct (next_bits a); reflexivity.
Qed.

Lemma pick_state {A} (d : A) arr a : snd (pick d arr a) = step a.
Proof.
  unfold pick, bind, ret. rewrite <- rng_state.
  destruct (rng a); reflexivity.
Qed.

Section Iterate.
Context {A : Type} (f : A -> A).

Lemma iterate_S n x : iterate f (S n) x = iterate f n (f x).
Proof. reflexivity. Qed.

Lemma iterate_add n m : forall x,
  iterate f (n + m) x = iterate f m (iterate f n x).
Proof.
  induction n as [|n IH]; intros x.
  - reflexivity.
  - change (S n + m)%nat with (S (n + m)). rewrite !iterate_S. apply IH.
Qed.
End Iterate.

Lemma skip_0 a : skip 0 a = a.
Proof. reflexivity. Qed.

Lemma skip_S n a : skip (S n) a = skip n (step a).
Proof. exact (iterate_S step n a). Qed.

Lemma skip_add n m a : skip (n + m) a = skip m (skip n a).
Proof. exact (iterate_add step n m a). Qed.

Lemma mulberry32_ToUint32 s : mulberry32 s = ToUint32 s.
Proof. unfold mulberry32, ushr. change (0 mod 32)%Z with 0%Z. apply Z.shiftr_0_r. Qed.
End RngFacts.

(* ================================================================== *)
(** * Flower field: how the generator is consumed *)
(* ================================================================== *)

Module FieldFacts.
Import Int32 Rng RngFacts FlowerField.
Local Open Scope R_scope.

Lemma bind_eq {A B} (m : M A) (k : A -> M B) s :
  bind m k s = k (fst (m s)) (snd (m s)).
Proof. unfold bind. destruct (m s); reflexivity. Qed.

Ltac unbind :=
  repeat rewrite bind_eq;
  repeat (rewrite ?rand_state, ?pick_state, ?rng_state);
  unfold ret; cbn [fst snd].

Section WithColor.
Variable offsetHSL : Z -> R -> R -> R -> Vec3.

Lemma layerAngles_S count i todo :
  layerAngles count i (S todo)
  = bind rng (fun u =>
      bind (layerAngles count (S i) todo) (fun rest =>
        ret (((INR i / INR count) * PI * 2 + u * 0.1) :: rest))).
Proof. reflexivity. Qed.

Lemma fieldLoop_S cfg n :
  fieldLoop offsetHSL cfg (S n)
  = bind (flowerSample offsetHSL cfg) (fun x =>
      bind (fieldLoop offsetHSL cfg n) (fun rest => ret (x :: rest))).
Proof. reflexivity. Qed.

Lemma layerAngles_state count todo : forall i a,
  snd (layerAngles count i todo a) = skip todo a.
Proof.
  induction todo as [|todo IH]; intros i a.
  - reflexivity.
  - rewrite layerAngles_S, skip_S, !bind_eq. unfold ret; cbn [snd].
    rewrite IH, rng_state. reflexivity.
Qed.

Lemma petalAngles_cons count ls :
  petalAngles (count :: ls)
  = bind (layerAngles count 0 count) (fun here =>
      bind (petalAngles ls) (fun rest => ret (here ++ rest))).
Proof. reflexivity. Qed.

Lemma petalAngles_state ls : forall a,
  snd (petalAngles ls a) = skip (fold_right Nat.add 0%nat ls) a.
Proof.
  induction ls as [|count ls IH]; intros a.
  - reflexivity.
  - rewrite petalAngles_cons, !bind_eq. unfold ret.
    change (snd (?x, ?y)) with y.
    rewrite IH, layerAngles_state.
    change (fold_right Nat.add 0%nat (count :: ls))
      with (count + fold_right Nat.add 0%nat ls)%nat.
    rewrite skip_add. reflexivity.
Qed.

(** The archetype costs fourteen calls, one per petal. *)
Lemma buildSingleFlowerGeometry_state a :
  snd (buildSingleFlowerGeometry a) = skip 14 a.
Proof. unfold buildSingleFlowerGeometry. apply petalAngles_state. Qed.

(** Every instance costs fifteen calls. *)
Lemma flowerSample_state cfg a :
  snd (flowerSample offsetHSL cfg a) = skip 15 a.
Proof.
  unfold flowerSample. unbind.
  do 15 rewrite skip_S. rewrite skip_0. reflexivity.
Qed.

Lemma fieldLoop_length cfg n : forall a,
  length (fst (fieldLoop offsetHSL cfg n a)) = n.
Proof.
  induction n as [|n IH]; intros a.
  - reflexivity.
  - rewrite fieldLoop_S, !bind_eq. unfold ret; cbn [fst length].
    now rewrite IH.
Qed.

Lemma samples_length cfg : length (samples offsetHSL cfg) = flowerCount cfg.
Proof.
  unfold samples, createFlowerField. rewrite bind_eq.
  apply fieldLoop_length.
Qed.

(** Instance [i] is the loop body run after [15 * i] calls. *)
Lemma fieldLoop_nth cfg n : forall i a, (i < n)%nat ->
  nth_error (fst (fieldLoop offsetHSL cfg n a)) i
  = Some (fst (flowerSample offsetHSL cfg (skip (15 * i) a))).
Proof.
  induction n as [|n IH]; intros i a Hi; [lia|].
  rewrite fieldLoop_S, !bind_eq. unfold ret; cbn [fst].
  destruct i as [|i].
  - reflexivity.
  - cbn [nth_error]. rewrite IH by lia. rewrite flowerSample_state.
    rewrite <- skip_add.
    replace (15 * S i)%nat with (15 + 15 * i)%nat by lia. reflexivity.
Qed.

Lemma samples_nth cfg i : (i < flowerCount cfg)%nat ->
  nth_error (samples offsetHSL cfg) i
  = Some (fst (flowerSample offsetHSL cfg
                 (skip (14 + 15 * i) (mulberry32 (seed cfg))))).
Proof.
  intros Hi. unfold samples, createFlowerField. rewrite bind_eq.
  rewrite fieldLoop_nth by exact Hi.
  rewrite buildSingleFlowerGeometry_state, <- skip_add. reflexivity.
Qed.

(** A property of the loop body, from every state, holds of all
    instances. *)
Lemma fieldLoop_Forall cfg (P : Sample -> Prop) :
  (forall a, P (fst (flowerSample offsetHSL cfg a))) ->
  forall n a, Forall P (fst (fieldLoop offsetHSL cfg n a)).
Proof.
  intros HP. induction n as [|n IH]; intros a.
  - constructor.
  - rewrite fieldLoop_S, !bind_eq. unfold ret; cbn [fst].
    constructor; auto.
Qed.

Lemma samples_Forall cfg (P : Sample -> Prop) :
  (forall a, P (fst (flowerSample offsetHSL cfg a))) ->
  Forall P (samples offsetHSL cfg).
Proof.
  intros HP. unfold samples, createFlowerField. rewrite bind_eq.
  now apply fieldLoop_Forall.
Qed.

(** The loop reads the configuration through three fields only. *)
Lemma fieldLoop_ext cfg cfg' n :
  fieldRadius cfg = fieldRadius cfg' ->
  clearRadius cfg = clearRadius cfg' ->
  forall a, fieldLoop offsetHSL cfg n a = fieldLoop offsetHSL cfg' n a.
Proof.
  intros Hf Hc. induction n as [|n IH]; intros a.
  - reflexivity.
  - rewrite !fieldLoop_S, !bind_eq.
    assert (E : flowerSample offsetHSL cfg a = flowerSample offsetHSL cfg' a).
    { unfold flowerSample. now rewrite Hf, Hc. }
    rewrite E, IH. reflexivity.
Qed.

(** A shorter field is a prefix of a longer one. *)
Lemma fieldLoop_prefix cfg n : forall m a, (n <= m)%nat ->
  firstn n (fst (fieldLoop offsetHSL cfg m a))
  = fst (fieldLoop offsetHSL cfg n a).
Proof.
  induction n as [|n IH]; intros m a Hle.
  - reflexivity.
  - destruct m as [|m]; [lia|].
    rewrite !fieldLoop_S, !bind_eq. unfold ret; cbn [fst firstn].
    rewrite IH by lia. reflexivity.
Qed.
End WithColor.
End FieldFacts.

(* ================================================================== *)
(** * Polynomial bounds on sine and cosine *)
(* ================================================================== *)

Module Trig.
Local Open Scope R_scope.

Lemma INR_fact3 : INR (fact 3) = 6.
Proof. rewrite INR_IZR_INZ. f_equal. Qed.
Lemma INR_fact5 : INR (fact 5) = 120.
Proof. rewrite INR_IZR_INZ. f_equal. Qed.
Lemma INR_fact7 : INR (fact 7) = 5040.
Proof. rewrite INR_IZR_INZ. f_equal. Qed.

Lemma sin_lb_cubic a : 0 <= a <= 1 -> a - a * a * a / 6 <= sin a.
Proof.
  intros Ha.
  assert (Hpi : a <= PI) by (pose proof PI2_1; lra).
  destruct (SIN a (proj1 Ha) Hpi) as [Hlb _].
  eapply Rle_trans; [|exact Hlb].
  unfold sin_lb, sin_approx. cbn [sum_f_R0]. unfold sin_term.
  cbn [Nat.mul Nat.add].
  rewrite INR_fact3, INR_fact5, INR_fact7.
  change (INR (fact 1)) with 1.
  assert (H2 : 0 <= a * a <= 1) by nra.
  assert (H5 : 0 <= a * (a * (a * (a * a)))).
  { repeat apply Rmult_le_pos; lra. }
  set (a5 := a * (a * (a * (a * a)))) in *.
  assert (H7 : a5 * (a * a) <= a5) by nra.
  replace ((-1) ^ 0 * (a ^ 1 / 1) + (-1) ^ 1 * (a ^ 3 / 6)
           + (-1) ^ 2 * (a ^ 5 / 120) + (-1) ^ 3 * (a ^ 7 / 5040))
    with (a - a * a * a / 6 + a5 / 120 - a5 * (a * a) / 5040)
    by (unfold a5; field).
  lra.
Qed.

Lemma INR_fact2 : INR (fact 2) = 2.
Proof. rewrite INR_IZR_INZ. f_equal. Qed.
Lemma INR_fact4 : INR (fact 4) = 24.
Proof. rewrite INR_IZR_INZ. f_equal. Qed.
Lemma INR_fact6 : INR (fact 6) = 720.
Proof. rewrite INR_IZR_INZ. f_equal. Qed.

Lemma cos_lb_quartic a :
  0 <= a <= 1 -> 1 - a * a / 2 + a * a * a * a / 24 - a * a * a * a * a * a / 720 <= cos a.
Proof.
  intros Ha.
  assert (Hpi : - PI / 2 <= a <= PI / 2) by (pose proof PI2_1; lra).
  destruct (COS a (proj1 Hpi) (proj2 Hpi)) as [Hlb _].
  eapply Rle_trans; [|exact Hlb].
  unfold cos_lb, cos_approx. cbn [sum_f_R0]. unfold cos_term.
  cbn [Nat.mul Nat.add].
  rewrite INR_fact2, INR_fact4, INR_fact6.
  change (INR (fact 0)) with 1.
  right. field.
Qed.
End Trig.

(* ================================================================== *)
(** * Flower field: placement *)
(* ================================================================== *)

Module FieldPlacement.
Import Int32 Rng RngFacts FlowerField FieldFacts.
Local Open Scope R_scope.

(** The norm of the plane: triangle inequalities around a point at
    distance [r] from the origin in direction [(c, s)]. *)
Section Plane.
Variables c s r jx jz J : R.
Hypothesis unit_cs : c * c + s * s = 1.
Hypothesis r_pos : 0 <= r.
Hypothesis J_pos : 0 <= J.
Hypothesis jitter : jx * jx + jz * jz <= J * J.

#[local] Abbreviation d2 :=
  ((c * r + jx) * (c * r + jx) + 0 * 0 + (s * r + jz) * (s * r + jz)).

Lemma d2_nonneg : 0 <= d2.
Proof.
  pose proof (Rle_0_sqr (c * r + jx)) as H1.
  pose proof (Rle_0_sqr (s * r + jz)) as H2.
  unfold Rsqr in H1, H2. lra.
Qed.

Lemma d2_expand :
  d2 = r * r + 2 * r * (jx * c + jz * s) + (jx * jx + jz * jz).
Proof.
  replace (r * r) with (r * r * (c * c + s * s)) by (rewrite unit_cs; ring).
  ring.
Qed.

(** Cauchy-Schwarz against the unit vector [(c, s)]. *)
Lemma along_sq :
  (jx * c + jz * s) * (jx * c + jz * s) <= jx * jx + jz * jz.
Proof.
  assert (H : (jx * c + jz * s) * (jx * c + jz * s)
              + (jx * s - jz * c) * (jx * s - jz * c)
              = (jx * jx + jz * jz) * (c * c + s * s)) by ring.
  rewrite unit_cs in H.
  pose proof (Rle_0_sqr (jx * s - jz * c)) as H1. unfold Rsqr in H1.
  lra.
Qed.

Lemma sq_le_abs (w m : R) : 0 <= m -> w * w <= m * m -> - m <= w <= m.
Proof. intros Hm Hw. split; nra. Qed.

Lemma d2_sqrt_upper : sqrt d2 <= r + J.
Proof.
  pose proof along_sq as Hc. pose proof d2_nonneg as H0.
  destruct (sq_le_abs (jx * c + jz * s) J J_pos ltac:(lra)) as [_ Hw].
  assert (Hu : d2 <= (r + J) * (r + J)).
  { rewrite d2_expand.
    assert (r * (jx * c + jz * s) <= r * J) by (apply Rmult_le_compat_l; lra).
    nra. }
  rewrite <- (sqrt_square (r + J)) by lra.
  apply sqrt_le_1; [lra | nra | exact Hu].
Qed.

Lemma d2_lower : r - J <= sqrt d2.
Proof.
  pose proof along_sq as Hc. pose proof d2_nonneg as H0.
  pose proof (sqrt_pos d2) as Hs.
  destruct (Rle_dec (r - J) 0) as [Hle | Hgt]; [lra|].
  set (q := jx * jx + jz * jz) in *.
  assert (Hq0 : 0 <= q).
  { unfold q. pose proof (Rle_0_sqr jx) as H1. pose proof (Rle_0_sqr jz) as H2.
    unfold Rsqr in H1, H2. lra. }
  pose proof (sqrt_pos q) as Hm. pose proof (sqrt_sqrt q Hq0) as Hmm.
  set (m := sqrt q) in *.
  assert (HmJ : m <= J) by nra.
  destruct (sq_le_abs (jx * c + jz * s) m Hm ltac:(lra)) as [Hw _].
  assert (Hd : (r - m) * (r - m) <= d2).
  { rewrite d2_expand. fold q.
    assert (r * (- m) <= r * (jx * c + jz * s)) by (apply Rmult_le_compat_l; lra).
    nra. }
  apply Rle_trans with (r - m); [lra|].
  rewrite <- (sqrt_square (r - m)) by lra.
  apply sqrt_le_1; [nra | lra | exact Hd].
Qed.
End Plane.

Lemma jitter_bound jx jz :
  -2.5 <= jx <= 2.5 -> -2.5 <= jz <= 2.5 ->
  jx * jx + jz * jz <= (2.5 * sqrt 2) * (2.5 * sqrt 2).
Proof.
  intros Hx Hz.
  assert (H2 : sqrt 2 * sqrt 2 = 2) by (apply sqrt_sqrt; lra).
  pose proof (Rle_0_sqr jx) as Sx. pose proof (Rle_0_sqr jz) as Sz.
  unfold Rsqr in Sx, Sz.
  assert (Hx2 : jx * jx <= 6.25) by nra.
  assert (Hz2 : jz * jz <= 6.25) by nra.
  nra.
Qed.

Lemma flowerSample_placed offsetHSL cfg a :
  clearRadius cfg <= fieldRadius cfg ->
  placed cfg (fst (flowerSample offsetHSL cfg a)).
Proof.
  intros Hcfg. unfold flowerSample. unbind.
  unfold placed; cbn [radial girth heightFactor inst position scale].
  pose proof (rand_range 0 1 a ltac:(lra)) as Hu.
  repeat split; try reflexivity.
  - nra.
  - nra.
  - eexists _, _, _. split; [|split; [|reflexivity]].
    + apply rand_range; lra.
    + apply rand_range; lra.
  - apply rand_range; lra.
  - apply rand_range; lra.
  - apply rand_range; lra.
  - apply rand_range; lra.
Qed.

Lemma placed_distance cfg x :
  0 <= clearRadius cfg -> placed cfg x ->
  clearRadius cfg - 2.5 * sqrt 2
  <= distance_from_origin (position (inst x))
  <= fieldRadius cfg + 2.5 * sqrt 2.
Proof.
  intros Hc (Hr & (a & jx & jz & Hx & Hz & Hp) & _).
  rewrite Hp. unfold distance_from_origin.
  assert (Hunit : cos a * cos a + sin a * sin a = 1).
  { pose proof (sin2_cos2 a) as H. unfold Rsqr in H. lra. }
  assert (HJ : 0 <= 2.5 * sqrt 2) by (pose proof (sqrt_pos 2); lra).
  pose proof (jitter_bound jx jz Hx Hz) as Hj.
  assert (Hr0 : 0 <= radial x) by lra.
  pose proof (d2_lower _ _ _ _ _ _ Hunit Hr0 HJ Hj) as Hlo.
  pose proof (d2_sqrt_upper _ _ _ _ _ _ Hunit Hr0 HJ Hj) as Hhi.
  split; lra.
Qed.
End FieldPlacement.

(* ================================================================== *)
(** * Flower field: the claims *)
(* ================================================================== *)

Module FieldClaims.
Import Trig Int32 Rng RngFacts FlowerField FieldFacts FieldPlacement.
Local Open Scope R_scope.

(** The field is a function of the state of the generator seeded by
    [seed >>> 0], of the flower count and of the two radii: configurations
    that agree on these give the same sequence of samples. *)
Lemma samples_same_configuration
    (offsetHSL : Z -> R -> R -> R -> Vec3) (cfg cfg' : Config) :
  ushr (seed cfg) 0 = ushr (seed cfg') 0 ->
  flowerCount cfg = flowerCount cfg' ->
  fieldRadius cfg = fieldRadius cfg' ->
  clearRadius cfg = clearRadius cfg' ->
  samples offsetHSL cfg = samples offsetHSL cfg'.
Proof.
  intros Hs Hn Hf Hc.
  unfold samples, createFlowerField.
  rewrite !bind_eq. unfold mulberry32. rewrite Hs, Hn.
  rewrite (fieldLoop_ext offsetHSL cfg cfg' _ Hf Hc). reflexivity.
Qed.

(** The field of a phone (9000 flowers) is the first 9000 instances of the
    field of a desktop (10000 flowers): the count only cuts the sequence. *)
Lemma field_prefix offsetHSL cfg cfg' :
  seed cfg = seed cfg' ->
  fieldRadius cfg = fieldRadius cfg' ->
  clearRadius cfg = clearRadius cfg' ->
  (flowerCount cfg <= flowerCount cfg')%nat ->
  firstn (flowerCount cfg) (samples offsetHSL cfg') = samples offsetHSL cfg.
Proof.
  intros Hs Hf Hc Hn. unfold samples, createFlowerField.
  rewrite !bind_eq, Hs.
  rewrite (fieldLoop_ext offsetHSL cfg cfg' _ Hf Hc).
  apply fieldLoop_prefix. exact Hn.
Qed.

(** The position of an instance, from the four numerators it draws. *)
Lemma flowerSample_position offsetHSL cfg a :
  position (inst (fst (flowerSample offsetHSL cfg a)))
  = (let u k := IZR k / 4294967296 in
     let r := clearRadius cfg
              + (0 + u (fst (next_bits a)) * (1 - 0))
                * (fieldRadius cfg - clearRadius cfg) in
     let ang := 0 + u (fst (next_bits (step a))) * (PI * 2 - 0) in
     let jx := -2.5 + u (fst (next_bits (step (step a)))) * (2.5 - -2.5) in
     let jz := -2.5 + u (fst (next_bits (step (step (step a))))) * (2.5 - -2.5) in
     (cos ang * r + jx, 0, sin ang * r + jz)).
Proof.
  unfold flowerSample. unbind. cbn [inst position].
  rewrite !rand_value. reflexivity.
Qed.

(** Instance 6 of the scenario: radial fraction 0.19, angle 0.53 rad, both
    jitters negative; it lands 0.68 from the origin. *)
Lemma scenario_instance_6 : exists x,
  nth_error (samples plainColor scenario) 6 = Some x /\
  distance_from_origin (position (inst x)) < 2.
Proof.
  eexists. split; [apply samples_nth; cbn; lia|].
  rewrite flowerSample_position.
  assert (EA : skip (14 + 15 * 6) (mulberry32 (seed scenario)) = 1524543742%Z)
    by (vm_compute; reflexivity).
  rewrite EA.
  assert (E1 : fst (next_bits 1524543742%Z) = 814842676%Z)
    by (vm_compute; reflexivity).
  assert (E2 : fst (next_bits (step 1524543742%Z)) = 363456031%Z)
    by (vm_compute; reflexivity).
  assert (E3 : fst (next_bits (step (step 1524543742%Z))) = 57457108%Z)
    by (vm_compute; reflexivity).
  assert (E4 : fst (next_bits (step (step (step 1524543742%Z)))) = 888123722%Z)
    by (vm_compute; reflexivity).
  cbv zeta. rewrite E1, E2, E3, E4.
  cbn [clearRadius fieldRadius scenario].
  set (r := 2 + (0 + 814842676 / 4294967296 * (1 - 0)) * (10 - 2)).
  set (ang := 0 + 363456031 / 4294967296 * (PI * 2 - 0)).
  set (jx := -2.5 + 57457108 / 4294967296 * (2.5 - -2.5)).
  set (jz := -2.5 + 888123722 / 4294967296 * (2.5 - -2.5)).
  assert (Hr : 3.51 < r < 3.52) by (unfold r; lra).
  assert (Hjx : -2.44 < jx < -2.43) by (unfold jx; lra).
  assert (Hjz : -1.47 < jz < -1.46) by (unfold jz; lra).
  pose proof PI_RGT_0 as Hpi.
  assert (Hang : 0 <= ang <= PI / 4) by (unfold ang; lra).
  (* cos and sin of the first octant *)
  assert (Hcos : cos (PI / 4) <= cos ang) by (apply cos_decr_1; lra).
  assert (Hsin : sin ang <= sin (PI / 4)) by (apply sin_incr_1; lra).
  assert (Hsin0 : 0 <= sin ang) by (apply sin_ge_0; lra).
  pose proof (COS_bound ang) as Hcos1.
  rewrite cos_PI4 in Hcos. rewrite sin_PI4 in Hsin.
  assert (Hq : 0.7 < 1 / sqrt 2 < 0.71).
  { assert (H2 : sqrt 2 * sqrt 2 = 2) by (apply sqrt_sqrt; lra).
    assert (Hs2 : 1.41 < sqrt 2 < 1.42).
    { pose proof (sqrt_pos 2). split; nra. }
    assert (Hi : 1 / sqrt 2 * sqrt 2 = 1).
    { unfold Rdiv. rewrite Rmult_1_l. apply Rinv_l. lra. }
    set (k := 1 / sqrt 2) in *. split; nra. }
  set (c := cos ang) in *. set (s := sin ang) in *.
  assert (Hx1 : 0 < c * r + jx < 1.09) by nra.
  assert (Hz1 : -1.47 < s * r + jz < 1.04) by nra.
  unfold distance_from_origin.
  assert (Hd : (c * r + jx) * (c * r + jx) + 0 * 0
               + (s * r + jz) * (s * r + jz) < 2 * 2) by nra.
  apply Rlt_le_trans with (sqrt (2 * 2)).
  - apply sqrt_lt_1; [| lra | exact Hd].
    pose proof (Rle_0_sqr (c * r + jx)) as S1.
    pose proof (Rle_0_sqr (s * r + jz)) as S2.
    unfold Rsqr in S1, S2. lra.
  - rewrite sqrt_square; lra.
Qed.
(** Instance 1865 of the shipped field: radial fraction 0.998, angle
    0.50 rad, both jitters positive; it lands 122.72 from the origin. *)
Lemma shipped_instance_1865 : exists x,
  nth_error (samples plainColor (CONFIG false)) 1865 = Some x /\
  122.5 < distance_from_origin (position (inst x)).
Proof.
  eexists. split.
  { apply samples_nth. apply Nat.ltb_lt. vm_compute. reflexivity. }
  rewrite flowerSample_position.
  assert (EA : skip (14 + 15 * 1865) (mulberry32 (seed (CONFIG false)))
               = (-1013844785)%Z) by (vm_compute; reflexivity).
  rewrite EA.
  assert (E1 : fst (next_bits (-1013844785)%Z) = 4286769840%Z)
    by (vm_compute; reflexivity).
  assert (E2 : fst (next_bits (step (-1013844785)%Z)) = 340206473%Z)
    by (vm_compute; reflexivity).
  assert (E3 : fst (next_bits (step (step (-1013844785)%Z))) = 4093425082%Z)
    by (vm_compute; reflexivity).
  assert (E4 : fst (next_bits (step (step (step (-1013844785)%Z))))
               = 3822271054%Z) by (vm_compute; reflexivity).
  cbv zeta. rewrite E1, E2, E3, E4.
  cbn [clearRadius fieldRadius CONFIG].
  set (r := 12 + (0 + 4286769840 / 4294967296 * (1 - 0)) * (120 - 12)).
  set (ang := 0 + 340206473 / 4294967296 * (PI * 2 - 0)).
  set (jx := -2.5 + 4093425082 / 4294967296 * (2.5 - -2.5)).
  set (jz := -2.5 + 3822271054 / 4294967296 * (2.5 - -2.5)).
  assert (Hr : 119.7938 <= r <= 119.7939) by (unfold r; lra).
  assert (Hjx : 2.2653 <= jx <= 2.2654) by (unfold jx; lra).
  assert (Hjz : 1.9497 <= jz <= 1.9498) by (unfold jz; lra).
  assert (Hpi : 3 < PI <= 4) by (pose proof PI2_3_2; pose proof PI_4; lra).
  assert (Hang : 0.4752 <= ang <= 0.6338) by (unfold ang; lra).
  (* sine from below at the low end, cosine from below at the high end *)
  assert (Hsin : 0.4573 <= sin ang).
  { apply Rle_trans with (sin 0.4752).
    - eapply Rle_trans; [|apply (sin_lb_cubic 0.4752); lra]. lra.
    - apply sin_incr_1; lra. }
  assert (Hcos : 0.8057 <= cos ang).
  { apply Rle_trans with (cos 0.6338).
    - eapply Rle_trans; [|apply (cos_lb_quartic 0.6338); lra]. lra.
    - apply cos_decr_1; lra. }
  assert (Hunit : cos ang * cos ang + sin ang * sin ang = 1).
  { pose proof (sin2_cos2 ang) as H. unfold Rsqr in H. lra. }
  set (c := cos ang) in *. set (s := sin ang) in *.
  unfold distance_from_origin.
  rewrite (d2_expand c s r jx jz Hunit).
  assert (H1 : 2.2653 * 0.8057 <= jx * c) by (apply Rmult_le_compat; lra).
  assert (H2 : 1.9497 * 0.4573 <= jz * s) by (apply Rmult_le_compat; lra).
  assert (H3 : 119.7938 * (2.2653 * 0.8057 + 1.9497 * 0.4573)
               <= r * (jx * c + jz * s)) by (apply Rmult_le_compat; lra).
  assert (H4 : 119.7938 * 119.7938 <= r * r)
    by (apply Rmult_le_compat; lra).
  assert (H5 : 2.2653 * 2.2653 <= jx * jx) by (apply Rmult_le_compat; lra).
  assert (H6 : 1.9497 * 1.9497 <= jz * jz) by (apply Rmult_le_compat; lra).
  assert (Hd : 122.5 * 122.5
               < r * r + 2 * r * (jx * c + jz * s) + (jx * jx + jz * jz))
    by lra.
  apply Rle_lt_trans with (sqrt (122.5 * 122.5)).
  - rewrite sqrt_square; lra.
  - apply sqrt_lt_1; [lra | lra | exact Hd].
Qed.

(** C4, as stated, fails on both sides.  In the scenario (field radius 10,
    clear radius 2) instance 6 lies inside the clear radius; in the shipped
    field (field radius 120) instance 1865 lies beyond the field radius
    plus 2.5. *)
Lemma field_radius_counterexample :
  (exists x, In x (samples plainColor scenario) /\
     distance_from_origin (position (inst x)) < clearRadius scenario) /\
  (exists x, In x (samples plainColor (CONFIG false)) /\
     fieldRadius (CONFIG false) + 2.5
     < distance_from_origin (position (inst x))).
Proof.
  split.
  - destruct scenario_instance_6 as (x & Hn & Hd).
    exists x. split; [exact (nth_error_In _ _ Hn)|].
    cbn [clearRadius scenario]. exact Hd.
  - destruct shipped_instance_1865 as (x & Hn & Hd).
    exists x. split; [exact (nth_error_In _ _ Hn)|].
    cbn [fieldRadius CONFIG]. lra.
Qed.

(** C4, amended.  With [0 <= clearRadius <= fieldRadius], every instance
    samples its radius [r] in [[clearRadius, fieldRadius]] and is placed at
    the annulus point [(r cos a, 0, r sin a)] moved by an independent jitter
    in [[-2.5, 2.5]] on each of the two horizontal axes; its distance from
    the origin therefore lies in
    [[clearRadius - 2.5 sqrt 2, fieldRadius + 2.5 sqrt 2]].  Its scale is
    [(s, s * h, s)] with girth [s] in [[0.65, 1.4]] and height factor [h] in
    [[0.6, 1.6]]. *)
Theorem field_placement_bounds
    (offsetHSL : Z -> R -> R -> R -> Vec3) (cfg : Config) (x : Sample) :
  0 <= clearRadius cfg <= fieldRadius cfg ->
  In x (samples offsetHSL cfg) ->
  clearRadius cfg <= radial x <= fieldRadius cfg /\
  (exists a jx jz,
      -2.5 <= jx <= 2.5 /\ -2.5 <= jz <= 2.5 /\
      position (inst x) = (cos a * radial x + jx, 0, sin a * radial x + jz)) /\
  clearRadius cfg - 2.5 * sqrt 2
    <= distance_from_origin (position (inst x))
    <= fieldRadius cfg + 2.5 * sqrt 2 /\
  0.65 <= girth x <= 1.4 /\
  0.6 <= heightFactor x <= 1.6 /\
  scale (inst x) = (girth x, girth x * heightFactor x, girth x).
Proof.
  intros Hcfg Hin.
  assert (Hp : placed cfg x).
  { pose proof (samples_Forall offsetHSL cfg (placed cfg)) as HF.
    rewrite Forall_forall in HF. apply HF; [|exact Hin].
    intros a. apply flowerSample_placed. lra. }
  pose proof (placed_distance cfg x ltac:(lra) Hp) as Hd.
  destruct Hp as (Hr & Hpos & Hs & Hh & Hsc).
  repeat split; try tauto; try lra.
Qed.

Lemma field_placement_bounds_witness :
  let x := fst (flowerSample plainColor scenario
                  (skip (14 + 15 * 6) (mulberry32 (seed scenario)))) in
  2 - 2.5 * sqrt 2
    <= distance_from_origin (position (inst x))
    <= 10 + 2.5 * sqrt 2.
Proof.
  intros x.
  assert (H0 : 0 <= clearRadius scenario <= fieldRadius scenario)
    by (cbn [clearRadius fieldRadius scenario]; lra).
  assert (Hin : In x (samples plainColor scenario)).
  { apply nth_error_In with 6%nat. apply samples_nth. cbn. lia. }
  exact (proj1 (proj2 (proj2
           (field_placement_bounds plainColor scenario x H0 Hin)))).
Defined.
End FieldClaims.

(* ================================================================== *)
(** * Numbers: finite results *)
(* ================================================================== *)

Module JSFacts.
Import JS.
Local Open Scope R_scope.

Lemma pow2_ge_1 n : 1 <= 2 ^ n.
Proof. apply pow_R1_Rle. lra. Qed.

Lemma pow2_big n : (10 <= n)%nat -> 1000 <= 2 ^ n.
Proof.
  intros Hn. replace n with (10 + (n - 10))%nat by lia.
  rewrite pow_add. pose proof (pow2_ge_1 (n - 10)) as H.
  assert (E : 2 ^ 10 = 1024) by (simpl; lra). rewrite E. nra.
Qed.

Lemma half_le_1 n : 0 < / 2 ^ n <= 1.
Proof.
  pose proof (pow2_ge_1 n) as H. split.
  - apply Rinv_0_lt_compat. lra.
  - rewrite <- Rinv_1. apply Rinv_le_contravar; lra.
Qed.

Lemma MAX_VALUE_big : 1000 <= MAX_VALUE.
Proof.
  unfold MAX_VALUE. pose proof (half_le_1 52) as H.
  pose proof (pow2_big 1023 ltac:(lia)) as H1. nra.
Qed.

Lemma FLT_MAX_big : 1000 <= FLT_MAX.
Proof.
  unfold FLT_MAX. pose proof (half_le_1 23) as H.
  pose proof (pow2_big 127 ltac:(lia)) as H1. nra.
Qed.

Lemma overflow_fin max x : - max <= x <= max -> overflow max x = Fin x.
Proof.
  intros [Hlo Hhi]. unfold overflow.
  destruct (Rlt_dec max x) as [H | _]; [lra|].
  destruct (Rlt_dec x (- max)) as [H | _]; [lra|]. reflexivity.
Qed.

Lemma ofR_small x : small x -> ofR x = Fin x.
Proof.
  intros [Hlo Hhi]. apply overflow_fin. pose proof MAX_VALUE_big. lra.
Qed.

Lemma fround_small x : small x -> fround (Fin x) = Fin x.
Proof.
  intros [Hlo Hhi]. apply overflow_fin. pose proof FLT_MAX_big. lra.
Qed.

Lemma add_fin x y : small (x + y) -> add (Fin x) (Fin y) = Fin (x + y).
Proof. apply ofR_small. Qed.

Lemma sub_fin x y : small (x - y) -> sub (Fin x) (Fin y) = Fin (x - y).
Proof. intros H. unfold sub, neg, add. now rewrite ofR_small. Qed.

Lemma mul_fin x y : small (x * y) -> mul (Fin x) (Fin y) = Fin (x * y).
Proof. apply ofR_small. Qed.

Lemma sqr_fin x : small (x * x) -> sqr (Fin x) = Fin (x * x).
Proof. apply mul_fin. Qed.

Lemma is_zero_false x : x <> 0 -> is_zero x = false.
Proof. intros H. unfold is_zero. destruct (Req_dec_T x 0); tauto. Qed.

Lemma div_fin x y :
  y <> 0 -> small (x / y) -> div (Fin x) (Fin y) = Fin (x / y).
Proof.
  intros Hy H. unfold div. rewrite (is_zero_false y Hy). now apply ofR_small.
Qed.

Lemma rem_fin x y : y <> 0 -> rem (Fin x) (Fin y) = Fin (fmod x y).
Proof. intros Hy. unfold rem. now rewrite (is_zero_false y Hy). Qed.

Lemma exp_fin x : small (exp x) -> Math_exp (Fin x) = Fin (exp x).
Proof. apply ofR_small. Qed.

Lemma lt_fin_true x y : x < y -> lt (Fin x) (Fin y) = true.
Proof. intros H. unfold lt. destruct (Rlt_dec x y); tauto. Qed.

Lemma lt_fin_false x y : y <= x -> lt (Fin x) (Fin y) = false.
Proof. intros H. unfold lt. destruct (Rlt_dec x y); [lra | reflexivity]. Qed.

(** A clamp that does not bite. *)
Lemma clamp_inside v lo hi :
  lo <= v <= hi -> clamp (Fin v) (Fin lo) (Fin hi) = Fin v.
Proof.
  intros [Hlo Hhi]. unfold clamp, min, max.
  destruct (Rle_lt_or_eq_dec v hi Hhi) as [Hlt | ->].
  - rewrite (lt_fin_true v hi Hlt).
    destruct (Rle_lt_or_eq_dec lo v Hlo) as [Hlt' | <-].
    + now rewrite (lt_fin_true lo v Hlt').
    + now rewrite (lt_fin_false lo lo (Rle_refl lo)).
  - rewrite (lt_fin_false hi hi (Rle_refl hi)).
    destruct (Rle_lt_or_eq_dec lo hi Hlo) as [Hlt' | <-].
    + now rewrite (lt_fin_true lo hi Hlt').
    + now rewrite (lt_fin_false lo lo (Rle_refl lo)).
Qed.

(** The truncation is within one of its argument, on its side of zero. *)
Lemma trunc_pos x : 0 <= x -> x - 1 < IZR (trunc x) <= x.
Proof.
  intros Hx. unfold trunc. destruct (Rle_dec 0 x) as [_ | H]; [|lra].
  destruct (base_Int_part x) as [H1 H2]. lra.
Qed.

Lemma trunc_neg x : x < 0 -> x <= IZR (trunc x) < x + 1.
Proof.
  intros Hx. unfold trunc. destruct (Rle_dec 0 x) as [H | _]; [lra|].
  destruct (base_Int_part (- x)) as [H1 H2]. rewrite opp_IZR. lra.
Qed.

(** The remainder has the sign of the dividend and is below the divisor. *)
Lemma fmod_pos x y : 0 < y -> 0 <= x -> 0 <= fmod x y < y.
Proof.
  intros Hy Hx. unfold fmod.
  assert (Hq : 0 <= x / y) by (apply Rmult_le_pos; [lra | left; now apply Rinv_0_lt_compat]).
  destruct (trunc_pos (x / y) Hq) as [H1 H2].
  assert (E : y * (x / y) = x) by (field; lra).
  set (k := IZR (trunc (x / y))) in *.
  assert (y * k <= y * (x / y)) by (apply Rmult_le_compat_l; lra).
  assert (y * (x / y - 1) < y * k) by (apply Rmult_lt_compat_l; lra).
  rewrite Rmult_minus_distr_l in *. lra.
Qed.

Lemma fmod_neg x y : 0 < y -> x < 0 -> - y < fmod x y <= 0.
Proof.
  intros Hy Hx. unfold fmod.
  assert (Hq : x / y < 0).
  { unfold Rdiv. rewrite <- (Rmult_0_l (/ y)).
    apply Rmult_lt_compat_r; [now apply Rinv_0_lt_compat | lra]. }
  destruct (trunc_neg (x / y) Hq) as [H1 H2].
  assert (E : y * (x / y) = x) by (field; lra).
  set (k := IZR (trunc (x / y))) in *.
  assert (y * (x / y) <= y * k) by (apply Rmult_le_compat_l; lra).
  assert (y * k < y * (x / y + 1)) by (apply Rmult_lt_compat_l; lra).
  rewrite Rmult_plus_distr_l in *. lra.
Qed.

Lemma fmod_abs x y : 0 < y -> - y < fmod x y < y.
Proof.
  intros Hy. destruct (Rle_lt_dec 0 x) as [Hx | Hx].
  - pose proof (fmod_pos x y Hy Hx). lra.
  - pose proof (fmod_neg x y Hy Hx). lra.
Qed.
End JSFacts.

(* ================================================================== *)
(** * Typed arrays: stores and loops *)
(* ================================================================== *)

Module TypedArrayFacts.
Import TypedArray.

Lemma store_length {A} (arr : list A) : forall k v,
  length (store arr k v) = length arr.
Proof.
  induction arr as [|a arr IH]; intros [|k] v; cbn; auto.
Qed.

Lemma store_Forall {A} (P : A -> Prop) (arr : list A) : forall k v,
  Forall P arr -> P v -> Forall P (store arr k v).
Proof.
  induction arr as [|a arr IH]; intros [|k] v Harr Hv; cbn; auto;
    inversion Harr; subst; constructor; auto.
Qed.

(** An invariant kept by every round holds after the loop. *)
Lemma for_invariant {A S} (P : S -> Prop) (body : A -> S -> S) :
  forall (xs : list A) (st : S),
    P st ->
    (forall x st, In x xs -> P st -> P (body x st)) ->
    P (for_ xs body st).
Proof.
  unfold for_. induction xs as [|x xs IH]; intros st Hst Hbody; cbn.
  - exact Hst.
  - apply IH.
    + apply Hbody; [now left | exact Hst].
    + intros y st' Hy. apply Hbody. now right.
Qed.

Lemma repeat_Forall {A} (P : A -> Prop) (x : A) n :
  (n <> 0%nat -> P x) -> Forall P (repeat x n).
Proof.
  intros H. destruct n as [|n]; [constructor|].
  assert (Hx : P x) by (apply H; discriminate).
  clear H. induction (S n); cbn; constructor; auto.
Qed.
End TypedArrayFacts.

(* ================================================================== *)
(** * Rose bloom surface: the finite case *)
(* ================================================================== *)

Module RoseFacts.
Import Trig TypedArray TypedArrayFacts JS JSFacts Rose RoseR.
Local Open Scope R_scope.

Ltac small_by_bounds := unfold small; split; nra.

Lemma PI_bounds : 3 < PI <= 4.
Proof. pose proof PI2_3_2. pose proof PI_4. lra. Qed.

Lemma INR_nu : INR nu = 28.
Proof. unfold nu. rewrite INR_IZR_INZ. f_equal. Qed.

Lemma INR_nv : INR nv = 320.
Proof. unfold nv. rewrite INR_IZR_INZ. f_equal. Qed.

Lemma INR_below n m : (n < m)%nat -> 0 <= INR n <= INR m - 1.
Proof.
  intros H. split; [apply pos_INR|].
  assert (Hle : (S n <= m)%nat) by lia.
  apply le_INR in Hle. rewrite S_INR in Hle. lra.
Qed.

Lemma TWO_PI_fin : TWO_PI = Fin (PI * 2).
Proof.
  unfold TWO_PI, Math_PI. apply mul_fin.
  pose proof PI_bounds. small_by_bounds.
Qed.

(** The radial parameter: [x = i / 27], between 0 and 1. *)
Lemma xR_range i : (i < nu)%nat -> 0 <= xR i <= 1.
Proof.
  intros Hi. unfold xR. pose proof (INR_below i nu Hi) as H.
  rewrite INR_nu in *.
  split.
  - apply Rmult_le_pos; [lra|]. left. apply Rinv_0_lt_compat. lra.
  - apply Rmult_le_reg_r with (28 - 1); [lra|].
    unfold Rdiv. rewrite Rmult_assoc, Rinv_l by lra. lra.
Qed.

Lemma xR_0 : xR 0 = 0.
Proof. unfold xR. cbn [INR]. unfold Rdiv. apply Rmult_0_l. Qed.


Lemma x_of_fin i : (i < nu)%nat -> x_of i = Fin (xR i).
Proof.
  intros Hi. pose proof (xR_range i Hi) as Hx.
  unfold x_of, ofnat. rewrite sub_fin.
  - apply div_fin; [rewrite INR_nu; lra|]. fold (xR i). small_by_bounds.
  - rewrite INR_nu. small_by_bounds.
Qed.

(** The angle: from [-2 pi] to [15 pi]. *)
Lemma thetaR_range j : (j < nv)%nat -> - (2 * PI) <= thetaR j <= 15 * PI.
Proof.
  intros Hj. unfold thetaR. pose proof (INR_below j nv Hj) as H.
  rewrite INR_nv in *. pose proof PI_bounds as Hpi.
  assert (Hq : 0 <= INR j / (320 - 1) <= 1).
  { split.
    - apply Rmult_le_pos; [lra|]. left. apply Rinv_0_lt_compat. lra.
    - apply Rmult_le_reg_r with (320 - 1); [lra|].
      unfold Rdiv. rewrite Rmult_assoc, Rinv_l by lra. lra. }
  set (q := INR j / (320 - 1)) in *. split; nra.
Qed.

Lemma theta_of_fin j : (j < nv)%nat -> theta_of j = Fin (thetaR j).
Proof.
  intros Hj. pose proof (thetaR_range j Hj) as Ht. unfold thetaR in Ht.
  pose proof (INR_below j nv Hj) as H. pose proof PI_bounds as Hpi.
  rewrite INR_nv in *.
  assert (Hq : 0 <= INR j / (320 - 1) <= 1).
  { split.
    - apply Rmult_le_pos; [lra|]. left. apply Rinv_0_lt_compat. lra.
    - apply Rmult_le_reg_r with (320 - 1); [lra|].
      unfold Rdiv. rewrite Rmult_assoc, Rinv_l by lra. lra. }
  unfold theta_of, thetaR, ofnat, Math_PI. rewrite TWO_PI_fin, INR_nv.
  cbn [neg].
  rewrite sub_fin by small_by_bounds.
  rewrite div_fin by (try lra; small_by_bounds).
  rewrite (mul_fin 17 PI) by small_by_bounds.
  set (q := INR j / (320 - 1)) in *.
  rewrite mul_fin by small_by_bounds.
  rewrite add_fin by small_by_bounds.
  reflexivity.
Qed.
Lemma sq_le_1 u : -1 <= u <= 1 -> 0 <= u * u <= 1.
Proof.
  intros [Hlo Hhi]. pose proof (Rle_0_sqr u) as H0. unfold Rsqr in H0.
  assert (H : 0 <= (1 - u) * (1 + u)) by (apply Rmult_le_pos; lra).
  split; [exact H0 | lra].
Qed.

(** ** The exponential at the two ends of the range *)

Lemma exp_le x y : x <= y -> exp x <= exp y.
Proof.
  intros [H | ->]; [left; now apply exp_increasing | apply Rle_refl].
Qed.

Lemma exp_quarter : exp (1 / 4) <= 4 / 3.
Proof.
  pose proof (exp_ineq1_le (- (1 / 4))) as H.
  pose proof (exp_pos (1 / 4)) as Hp.
  assert (E : exp (1 / 4) * exp (- (1 / 4)) = 1).
  { rewrite <- exp_plus. replace (1 / 4 + - (1 / 4)) with 0 by lra.
    apply exp_0. }
  nra.
Qed.

Lemma exp_minus_2 : / 9 <= exp (- 2).
Proof.
  pose proof exp_le_3 as H3. pose proof (exp_pos 1) as Hp1.
  pose proof (exp_pos (- 2)) as Hp.
  assert (E : exp 1 * exp 1 * exp (- 2) = 1).
  { rewrite <- !exp_plus. replace (1 + 1 + - 2) with 0 by lra. apply exp_0. }
  assert (H9 : exp 1 * exp 1 <= 9) by nra.
  apply Rmult_le_reg_l with 9; [lra|]. rewrite Rinv_r by lra. nra.
Qed.

Section Angle.
Variable theta : R.
Hypothesis theta_range : - (2 * PI) <= theta <= 15 * PI.

Lemma exponent_range : - (15 / 8) <= - theta / (8 * PI) <= 1 / 4.
Proof.
  pose proof PI_bounds as Hpi.
  assert (E : - theta / (8 * PI) * (8 * PI) = - theta) by (field; lra).
  set (e := - theta / (8 * PI)) in *. split; nra.
Qed.

Lemma exp_exponent_range : / 9 <= exp (- theta / (8 * PI)) <= 4 / 3.
Proof.
  destruct exponent_range as [Hlo Hhi]. split.
  - eapply Rle_trans; [apply exp_minus_2|]. apply exp_le. lra.
  - eapply Rle_trans; [|apply exp_quarter]. now apply exp_le.
Qed.

(** The polar angle stays inside [(0, pi)]. *)
Lemma phiR_range : / 6 <= phiR theta <= 2 * PI / 3.
Proof.
  pose proof PI_bounds as Hpi. pose proof exp_exponent_range as He.
  unfold phiR. set (e := exp (- theta / (8 * PI))) in *. split; nra.
Qed.

Lemma phi_of_fin : phi_of (Fin theta) = Fin (phiR theta).
Proof.
  pose proof PI_bounds as Hpi. pose proof exp_exponent_range as He.
  pose proof exponent_range as Hx. pose proof phiR_range as Hphi.
  unfold phi_of, phiR, Math_PI in *. cbn [neg].
  rewrite (div_fin PI 2) by (try lra; small_by_bounds).
  rewrite (mul_fin 8 PI) by small_by_bounds.
  rewrite div_fin by (try lra; small_by_bounds).
  rewrite exp_fin by small_by_bounds.
  set (e := exp (- theta / (8 * PI))) in *.
  rewrite mul_fin by small_by_bounds.
  reflexivity.
Qed.

(** The positive modulo lands in [[0, 2 pi)], so [t] is in [[0, 2)]. *)
Lemma tR_range : 0 <= tR theta < 2.
Proof.
  pose proof PI_bounds as Hpi. unfold tR.
  pose proof (fmod_abs (3.6 * theta) (PI * 2) ltac:(lra)) as H1.
  set (f1 := fmod (3.6 * theta) (PI * 2)) in *.
  pose proof (fmod_pos (f1 + PI * 2) (PI * 2) ltac:(lra) ltac:(lra)) as H2.
  set (f2 := fmod (f1 + PI * 2) (PI * 2)) in *.
  assert (E : f2 / PI * PI = f2) by (field; lra).
  set (t := f2 / PI) in *. split; nra.
Qed.

Lemma t_of_fin : t_of (Fin theta) = Fin (tR theta).
Proof.
  pose proof PI_bounds as Hpi. pose proof tR_range as Ht.
  unfold t_of, tR, mod_, Math_PI in *. rewrite TWO_PI_fin.
  rewrite mul_fin by small_by_bounds.
  rewrite rem_fin by lra.
  pose proof (fmod_abs (3.6 * theta) (PI * 2) ltac:(lra)) as H1.
  set (f1 := fmod (3.6 * theta) (PI * 2)) in *.
  rewrite add_fin by small_by_bounds.
  rewrite rem_fin by lra.
  set (f2 := fmod (f1 + PI * 2) (PI * 2)) in *.
  rewrite div_fin by (try lra; small_by_bounds).
  reflexivity.
Qed.

Lemma wR_range : - 0.25 <= wR theta <= 1.
Proof.
  pose proof tR_range as Ht. unfold wR.
  set (t := tR theta) in *.
  pose proof (sq_le_1 (1 - t) ltac:(lra)) as H.
  lra.
Qed.

(** The clamp never bites: [X] is between 0.5 and 1. *)
Lemma XR_range : 0.5 <= XR theta <= 1.
Proof.
  pose proof wR_range as Hw. unfold XR.
  set (w := wR theta) in *.
  pose proof (sq_le_1 w ltac:(lra)) as H.
  lra.
Qed.

Lemma X_raw_fin : X_raw (Fin theta) = Fin (XR theta).
Proof.
  pose proof tR_range as Ht. pose proof wR_range as Hw.
  pose proof XR_range as HX.
  unfold X_raw, XR, wR in *. rewrite t_of_fin.
  set (t := tR theta) in *.
  pose proof (sq_le_1 (1 - t) ltac:(lra)) as Hi.
  rewrite (sub_fin 1 t) by small_by_bounds.
  rewrite sqr_fin by small_by_bounds.
  rewrite sub_fin by small_by_bounds.
  rewrite (div_fin 5 4) by (try lra; small_by_bounds).
  rewrite mul_fin by small_by_bounds.
  rewrite sub_fin by small_by_bounds.
  set (w := 5 / 4 * (1 - (1 - t) * (1 - t)) - 0.25) in *.
  pose proof (sq_le_1 w ltac:(lra)) as Hw2.
  rewrite sqr_fin by small_by_bounds.
  rewrite mul_fin by small_by_bounds.
  rewrite sub_fin by small_by_bounds.
  reflexivity.
Qed.

Lemma X_of_fin : X_of (Fin theta) = Fin (XR theta).
Proof.
  unfold X_of. rewrite X_raw_fin. apply clamp_inside.
  pose proof XR_range. lra.
Qed.
End Angle.
(** ** The sine of the polar angle *)


Lemma sin_cos_sq a : sin a * sin a + cos a * cos a = 1.
Proof. pose proof (sin2_cos2 a) as H. unfold Rsqr in H. exact H. Qed.


(** ** The petal profile *)

Lemma petalR_0 : petalR 0 = 0.
Proof. unfold petalR. ring. Qed.

Lemma petalR_range x : 0 <= x <= 1 -> 0 <= petalR x <= 0.23 * x.
Proof.
  intros [H0 H1]. unfold petalR.
  set (u := 1.27689 * x).
  assert (Hu : 0 <= u <= 4 / 3) by (unfold u; lra).
  pose proof (Rle_0_sqr (u - 1)) as Hv. unfold Rsqr in Hv.
  set (v := (u - 1) * (u - 1)) in *.
  (* 4/27 - u (u - 1)^2 = (u - 1/3)^2 (4/3 - u) *)
  assert (Hid : 0 <= (u - 1 / 3) * (u - 1 / 3) * (4 / 3 - u)).
  { apply Rmult_le_pos; [apply Rle_0_sqr | lra]. }
  assert (Huv : u * v <= 4 / 27).
  { replace (u * v) with (4 / 27 - (u - 1 / 3) * (u - 1 / 3) * (4 / 3 - u))
      by (unfold v; field).
    lra. }
  assert (Hxv : 0 <= x * v <= 0.1161).
  { split; [apply Rmult_le_pos; lra|].
    assert (E : 1.27689 * (x * v) = u * v) by (unfold u; ring). lra. }
  replace (1.95653 * (x * x) * v) with (x * (1.95653 * (x * v))) by ring.
  split.
  - apply Rmult_le_pos; lra.
  - rewrite (Rmult_comm 0.23 x). apply Rmult_le_compat_l; lra.
Qed.

Section Sample.
Variables x theta : R.
Hypothesis x_range : 0 <= x <= 1.
Hypothesis theta_range : - (2 * PI) <= theta <= 15 * PI.

Lemma rR_abs : -2 <= rR x theta <= 2.
Proof.
  pose proof (XR_range theta) as HX.
  pose proof (petalR_range x x_range) as HP.
  pose proof (SIN_bound (phiR theta)) as Hs.
  pose proof (COS_bound (phiR theta)) as Hc.
  unfold rR, yR.
  set (X := XR theta) in *. set (P := petalR x) in *.
  set (sn := sin (phiR theta)) in *. set (cs := cos (phiR theta)) in *.
  assert (H1 : -1 <= x * sn <= 1) by nra.
  assert (H2 : -1 <= P * sn <= 1) by nra.
  assert (H3 : -1 <= P * sn * cs <= 1) by nra.
  split; nra.
Qed.

Lemma hR_abs : -2 <= hR x theta <= 2.
Proof.
  pose proof (XR_range theta) as HX.
  pose proof (petalR_range x x_range) as HP.
  pose proof (SIN_bound (phiR theta)) as Hs.
  pose proof (COS_bound (phiR theta)) as Hc.
  unfold hR, yR.
  set (X := XR theta) in *. set (P := petalR x) in *.
  set (sn := sin (phiR theta)) in *. set (cs := cos (phiR theta)) in *.
  assert (H1 : -1 <= x * cs <= 1) by nra.
  assert (H2 : -1 <= P * sn <= 1) by nra.
  assert (H3 : -1 <= P * sn * sn <= 1) by nra.
  split; nra.
Qed.

End Sample.

(** On the axis both coordinates vanish. *)
Lemma rR_axis theta : rR 0 theta = 0.
Proof. unfold rR, yR. rewrite petalR_0. ring. Qed.

Lemma hR_axis theta : hR 0 theta = 0.
Proof. unfold hR, yR. rewrite petalR_0. ring. Qed.
(** ** From the exact values to the numbers computed *)

Lemma y_of_fin x phi :
  0 <= x <= 1 -> y_of (Fin x) (Fin phi) = Fin (yR x phi).
Proof.
  intros Hx. pose proof (petalR_range x Hx) as HP.
  pose proof (SIN_bound phi) as Hs.
  pose proof (sq_le_1 x ltac:(lra)) as Hxx.
  assert (Hu : -1 <= 1.27689 * x - 1 <= 1) by lra.
  pose proof (sq_le_1 _ Hu) as Huu.
  unfold y_of, yR, petalR in *. cbn [Math_sin].
  rewrite sqr_fin by small_by_bounds.
  rewrite mul_fin by small_by_bounds.
  rewrite (mul_fin 1.27689 x) by small_by_bounds.
  rewrite sub_fin by small_by_bounds.
  rewrite sqr_fin by small_by_bounds.
  set (u2 := (1.27689 * x - 1) * (1.27689 * x - 1)) in *.
  set (x2 := x * x) in *.
  rewrite mul_fin by small_by_bounds.
  set (P := 1.95653 * x2 * u2) in *.
  rewrite mul_fin by small_by_bounds.
  reflexivity.
Qed.

Lemma rh_raw_fin i j : (i < nu)%nat -> (j < nv)%nat ->
  rh_raw i j = (Fin (rR (xR i) (thetaR j)), Fin (hR (xR i) (thetaR j))).
Proof.
  intros Hi Hj.
  pose proof (xR_range i Hi) as Hx. pose proof (thetaR_range j Hj) as Ht.
  pose proof (rR_abs _ (thetaR j) Hx) as Hr.
  pose proof (hR_abs _ (thetaR j) Hx) as Hh.
  pose proof (XR_range (thetaR j)) as HX.
  pose proof (petalR_range _ Hx) as HP.
  pose proof (SIN_bound (phiR (thetaR j))) as Hs.
  pose proof (COS_bound (phiR (thetaR j))) as Hc.
  unfold rh_raw. rewrite x_of_fin, theta_of_fin by assumption.
  rewrite phi_of_fin, X_of_fin by assumption.
  rewrite y_of_fin by assumption.
  unfold rR, hR, yR in *. cbn [Math_sin Math_cos].
  set (x := xR i) in *. set (X := XR (thetaR j)) in *.
  set (P := petalR x) in *.
  set (sn := sin (phiR (thetaR j))) in *.
  set (cs := cos (phiR (thetaR j))) in *.
  assert (H1 : -1 <= x * sn <= 1) by nra.
  assert (H2 : -1 <= x * cs <= 1) by nra.
  assert (H3 : -1 <= P * sn <= 1) by nra.
  assert (H4 : -1 <= P * sn * cs <= 1) by nra.
  assert (H5 : -1 <= P * sn * sn <= 1) by nra.
  rewrite (mul_fin x sn), (mul_fin x cs) by small_by_bounds.
  rewrite (mul_fin (P * sn) cs), (mul_fin (P * sn) sn) by small_by_bounds.
  rewrite add_fin, sub_fin by small_by_bounds.
  rewrite !mul_fin by small_by_bounds.
  reflexivity.
Qed.

(** ** The guard *)


Lemma guard_off_axis r h : 0.002 <= r -> guard (Fin r, Fin h) = (Fin r, Fin h).
Proof.
  intros Hr. unfold guard, eps. cbn [isFinite negb orb].
  rewrite lt_fin_false by lra. reflexivity.
Qed.

(** In the finite case the guard leaves the height alone, also when it
    raises the radius. *)
Lemma guard_keeps_height r h :
  r < 0.002 -> guard (Fin r, Fin h) = (eps, Fin h).
Proof.
  intros Hr. unfold guard, eps. cbn [isFinite negb orb].
  rewrite lt_fin_true by lra. reflexivity.
Qed.

Lemma guard_fin r h : -2 <= r <= 2 ->
  exists r', guard (Fin r, Fin h) = (Fin r', Fin h) /\ -2 <= r' <= 2.
Proof.
  intros Hr. destruct (Rlt_le_dec r 0.002) as [H | H].
  - exists 0.002. rewrite guard_keeps_height by exact H.
    split; [reflexivity | lra].
  - exists r. rewrite guard_off_axis by exact H. split; [reflexivity | lra].
Qed.

(** ** The stored vertex *)

Lemma vertex_fin i j : (i < nu)%nat -> (j < nv)%nat ->
  exists px py pz, vertex i j = (Fin px, Fin py, Fin pz).
Proof.
  intros Hi Hj.
  pose proof (xR_range i Hi) as Hx.
  pose proof (rR_abs _ (thetaR j) Hx) as Hr.
  pose proof (hR_abs _ (thetaR j) Hx) as Hh.
  unfold vertex. rewrite rh_raw_fin, theta_of_fin by assumption.
  destruct (guard_fin _ (hR (xR i) (thetaR j)) Hr) as (r' & -> & Hr').
  set (h := hR (xR i) (thetaR j)) in *.
  pose proof (SIN_bound (thetaR j)) as Hs.
  pose proof (COS_bound (thetaR j)) as Hc.
  set (sn := sin (thetaR j)) in *. set (cs := cos (thetaR j)) in *.
  unfold scale. cbn [Math_sin Math_cos]. fold sn cs.
  rewrite (mul_fin r' 0.30), (mul_fin h 0.30) by small_by_bounds.
  assert (H1 : -1 <= r' * 0.30 <= 1) by lra.
  set (rs := r' * 0.30) in *.
  rewrite (mul_fin rs sn), (mul_fin rs cs) by small_by_bounds.
  rewrite add_fin by small_by_bounds.
  rewrite !fround_small by small_by_bounds.
  eexists _, _, _. reflexivity.
Qed.
End RoseFacts.

(* ================================================================== *)
(** * Rose bloom surface: the claims *)
(* ================================================================== *)

Module RoseClaims.
Import TypedArray TypedArrayFacts JS JSFacts Rose RoseR RoseFacts.
Local Open Scope R_scope.

Lemma put_vertex_invariant i j st : (i < nu)%nat -> (j < nv)%nat ->
  Forall (fun c => isFinite c = true) (fst st) ->
  Forall (fun c => isFinite c = true) (fst (put_vertex i j st)).
Proof.
  intros Hi Hj Hst. destruct st as [arr v]. unfold put_vertex.
  destruct (vertex_fin i j Hi Hj) as (px & py & pz & ->). cbn [fst] in *.
  repeat apply store_Forall; auto.
Qed.

(** C2.  The bloom surface never emits a non-finite coordinate: at every
    grid point [(i, j)] with [i < nu] and [j < nv] the angle [theta] is a
    finite number between [-2 pi] and [15 pi] and the three stored
    components are finite, and so is every entry of the [positions]
    array. *)
Theorem rose_positions_finite :
  (forall i j, (i < nu)%nat -> (j < nv)%nat ->
     (theta_of j = Fin (thetaR j) /\ - (2 * PI) <= thetaR j <= 15 * PI) /\
     exists px py pz, vertex i j = (Fin px, Fin py, Fin pz)) /\
  Forall (fun c => isFinite c = true) positions.
Proof.
  split.
  - intros i j Hi Hj. split.
    + split; [now apply theta_of_fin | now apply thetaR_range].
    + now apply vertex_fin.
  - unfold positions.
    apply (for_invariant
             (fun st => Forall (fun c => isFinite c = true) (fst st))).
    + cbn [fst]. apply repeat_Forall. reflexivity.
    + intros i st Hi Hst. apply in_seq in Hi.
      apply (for_invariant
               (fun st => Forall (fun c => isFinite c = true) (fst st)));
        [exact Hst|].
      intros j st' Hj Hst'. apply in_seq in Hj.
      apply put_vertex_invariant; [lia | lia | exact Hst'].
Qed.

Lemma rose_positions_finite_witness :
  exists px py pz, vertex 0 0 = (Fin px, Fin py, Fin pz).
Proof.
  apply (proj1 rose_positions_finite 0%nat 0%nat).
  - unfold nu. lia.
  - unfold nv. lia.
Defined.

(** ** Indices *)

Lemma put_quad_invariant nu0 nv0 i j st :
  (i < nu0 - 1)%nat -> (j < nv0 - 1)%nat ->
  Forall (fun k => (k < nu0 * nv0)%nat) (fst st) ->
  Forall (fun k => (k < nu0 * nv0)%nat) (fst (put_quad nv0 i j st)).
Proof.
  intros Hi Hj Hst. destruct st as [arr k]. unfold put_quad. cbn [fst] in *.
  assert (Hc : ((i + 1) * nv0 + (j + 1) < nu0 * nv0)%nat) by nia.
  repeat apply store_Forall; auto; nia.
Qed.

Lemma put_quad_length nv0 i j st :
  length (fst (put_quad nv0 i j st)) = length (fst st).
Proof.
  destruct st as [arr k]. unfold put_quad. cbn [fst].
  now rewrite !store_length.
Qed.

Lemma indices_of_in_range nu0 nv0 :
  Forall (fun k => (k < nu0 * nv0)%nat) (indices_of nu0 nv0).
Proof.
  unfold indices_of.
  apply (for_invariant
           (fun st => Forall (fun k => (k < nu0 * nv0)%nat) (fst st))).
  - cbn [fst]. apply repeat_Forall. intros H. nia.
  - intros i st Hi Hst. apply in_seq in Hi.
    apply (for_invariant
             (fun st => Forall (fun k => (k < nu0 * nv0)%nat) (fst st)));
      [exact Hst|].
    intros j st' Hj Hst'. apply in_seq in Hj.
    apply put_quad_invariant; [lia | lia | exact Hst'].
Qed.

Lemma indices_of_length nu0 nv0 :
  length (indices_of nu0 nv0) = (6 * (nu0 - 1) * (nv0 - 1))%nat.
Proof.
  unfold indices_of.
  apply (for_invariant
           (fun st => length (fst st) = (6 * (nu0 - 1) * (nv0 - 1))%nat)).
  - cbn [fst]. rewrite repeat_length. lia.
  - intros i st _ Hst.
    apply (for_invariant
             (fun st => length (fst st) = (6 * (nu0 - 1) * (nv0 - 1))%nat));
      [exact Hst|].
    intros j st' _ Hst'. now rewrite put_quad_length.
Qed.

Lemma put_vertex_length i j st :
  length (fst (put_vertex i j st)) = length (fst st).
Proof.
  destruct st as [arr v]. unfold put_vertex.
  destruct (vertex i j) as [[px py] pz]. cbn [fst].
  now rewrite !store_length.
Qed.

Lemma positions_length : length positions = (nu * nv * 3)%nat.
Proof.
  unfold positions.
  apply (for_invariant (fun st => length (fst st) = (nu * nv * 3)%nat)).
  - cbn [fst]. apply repeat_length.
  - intros i st _ Hst.
    apply (for_invariant (fun st => length (fst st) = (nu * nv * 3)%nat));
      [exact Hst|].
    intros j st' _ Hst'. now rewrite put_vertex_length.
Qed.

Lemma vertexCount_eq : vertexCount = (nu * nv)%nat.
Proof.
  unfold vertexCount. rewrite positions_length. apply Nat.div_mul. lia.
Qed.
End RoseClaims.

(* ================================================================== *)
(** * Meshes written by the builders: counts and index range *)
(* ================================================================== *)

Module MeshClaims.
Import TypedArray TypedArrayFacts FlowerField Archetype Rose RoseClaims.

Lemma put_color_length cStem cLeaf cPetal cCenter pos i colors0 :
  length (put_color cStem cLeaf cPetal cCenter pos i colors0)
  = length colors0.
Proof.
  unfold put_color.
  destruct (vertexColor cStem cLeaf cPetal cCenter (nth i pos _))
    as [[r g] b].
  now rewrite !store_length.
Qed.

Lemma colors_length cStem cLeaf cPetal cCenter pos :
  length (colors cStem cLeaf cPetal cCenter pos) = (length pos * 3)%nat.
Proof.
  unfold colors.
  apply (for_invariant (fun arr => length arr = (length pos * 3)%nat)).
  - apply repeat_length.
  - intros i arr _ Harr. now rewrite put_color_length.
Qed.

(** C8.  The meshes whose buffers the builders write themselves are well
    formed.  The bloom surface has [nu * nv] vertices and
    [6 * (nu - 1) * (nv - 1)] indices, each index strictly below the vertex
    count; this holds for every grid size.  The colour attribute of the
    merged flower archetype has as many entries as the merged geometry has
    vertices. *)
Theorem mesh_well_formed :
  (vertexCount = (nu * nv)%nat /\
   length indices = (6 * (nu - 1) * (nv - 1))%nat /\
   Forall (fun k => (k < vertexCount)%nat) indices) /\
  (forall nu0 nv0,
     length (indices_of nu0 nv0) = (6 * (nu0 - 1) * (nv0 - 1))%nat /\
     Forall (fun k => (k < nu0 * nv0)%nat) (indices_of nu0 nv0)) /\
  (forall cStem cLeaf cPetal cCenter pos,
     colorCount cStem cLeaf cPetal cCenter pos = length pos).
Proof.
  split; [|split].
  - rewrite vertexCount_eq. split; [reflexivity|]. split.
    + apply indices_of_length.
    + apply indices_of_in_range.
  - intros nu0 nv0. split;
      [apply indices_of_length | apply indices_of_in_range].
  - intros cStem cLeaf cPetal cCenter pos. unfold colorCount.
    rewrite colors_length. apply Nat.div_mul. lia.
Qed.
End MeshClaims.

(* ================================================================== *)
(** * Rose stem: the taper *)
(* ================================================================== *)

Module StemFacts.
Import FlowerField Stem.
Local Open Scope R_scope.

Lemma lengthSq_nonneg a : 0 <= lengthSq a.
Proof.
  destruct a as [[x y] z]. unfold lengthSq, dot.
  pose proof (Rle_0_sqr x) as Hx. pose proof (Rle_0_sqr y) as Hy.
  pose proof (Rle_0_sqr z) as Hz. unfold Rsqr in *. lra.
Qed.

Lemma lengthSq_multiplyScalar a k :
  lengthSq (multiplyScalar a k) = k * k * lengthSq a.
Proof. destruct a as [[x y] z]. unfold lengthSq, multiplyScalar, dot. ring. Qed.

Lemma length_multiplyScalar a k :
  0 <= k -> length (multiplyScalar a k) = k * length a.
Proof.
  intros Hk. unfold length. rewrite lengthSq_multiplyScalar.
  rewrite sqrt_mult_alt by (apply Rle_0_sqr).
  now rewrite sqrt_square.
Qed.

Lemma vsub_vadd c v : vsub (vadd c v) c = v.
Proof.
  destruct c as [[cx cy] cz], v as [[vx vy] vz]. unfold vsub, vadd.
  f_equal; [f_equal|]; ring.
Qed.

(** A vector that is not too short is brought to any length exactly. *)
Lemma length_setLength a l :
  0 < lengthSq a -> 0 <= l -> length (setLength a l) = l.
Proof.
  intros Ha Hl. unfold setLength, normalize, divideScalar.
  assert (HL : 0 < length a) by (unfold length; now apply sqrt_lt_R0).
  unfold or_one. destruct (Req_dec_T (length a) 0) as [E | _]; [lra|].
  rewrite length_multiplyScalar by exact Hl.
  rewrite length_multiplyScalar.
  - field. lra.
  - unfold Rdiv. rewrite Rmult_1_l. left. now apply Rinv_0_lt_compat.
Qed.

Lemma lerp_0 x y : lerp x y 0 = x.
Proof. unfold lerp. ring. Qed.

Lemma lerp_1 x y : lerp x y 1 = y.
Proof. unfold lerp. ring. Qed.

Lemma taper_range t : 0 <= t <= 1 -> rTop <= lerp rBase rTop t <= rBase.
Proof. intros Ht. unfold lerp, rBase, rTop. split; nra. Qed.

Lemma INR_tubularSegments : INR tubularSegments = 120.
Proof. unfold tubularSegments. rewrite INR_IZR_INZ. f_equal. Qed.

Lemma param_range i : (i <= tubularSegments)%nat -> 0 <= param i <= 1.
Proof.
  intros Hi. unfold param. apply le_INR in Hi.
  pose proof (pos_INR i) as H0. rewrite INR_tubularSegments in *. split.
  - apply Rmult_le_pos; [lra|]. left. apply Rinv_0_lt_compat. lra.
  - apply Rmult_le_reg_r with 120; [lra|].
    unfold Rdiv. rewrite Rmult_assoc, Rinv_l by lra. lra.
Qed.

Lemma param_first : param 0 = 0.
Proof. unfold param. cbn [INR]. unfold Rdiv. apply Rmult_0_l. Qed.

Lemma param_last : param tubularSegments = 1.
Proof. unfold param. rewrite INR_tubularSegments. field. Qed.

Lemma Rltb_true x y : Archetype.Rltb x y = true -> x < y.
Proof. unfold Archetype.Rltb. destruct (Rlt_dec x y); [auto | discriminate]. Qed.

Lemma Rltb_false x y : Archetype.Rltb x y = false -> y <= x.
Proof.
  unfold Archetype.Rltb. destruct (Rlt_dec x y); [discriminate | lra].
Qed.

(** The rebuilt offset has length [r] and lies in the plane of [n], [b]. *)
Lemma rebuild_length n b tmp r :
  length n = 1 -> 0 <= r -> length (rebuild n b tmp r) = r.
Proof.
  intros Hn Hr. unfold rebuild.
  set (v := addScaledVector _ b _).
  destruct (Archetype.Rltb (lengthSq v) (/ 100000000)) eqn:E.
  - rewrite length_multiplyScalar by exact Hr. rewrite Hn. ring.
  - apply Rltb_false in E. apply length_setLength; [|exact Hr].
    assert (0 < / 100000000) by (apply Rinv_0_lt_compat; lra). lra.
Qed.

Lemma rebuild_in_plane n b tmp r :
  exists alpha beta,
    rebuild n b tmp r
    = vadd (multiplyScalar n alpha) (multiplyScalar b beta).
Proof.
  unfold rebuild.
  set (offN := dot tmp n). set (offB := dot tmp b).
  destruct (Archetype.Rltb _ _).
  - exists r, 0. destruct n as [[nx ny] nz], b as [[bx by_] bz].
    unfold vadd, multiplyScalar. f_equal; [f_equal|]; ring.
  - set (k := 1 / or_one (length
               (addScaledVector (addScaledVector (0, 0, 0) n offN) b offB))).
    exists (offN * k * r), (offB * k * r).
    unfold setLength, normalize, divideScalar. fold k.
    destruct n as [[nx ny] nz], b as [[bx by_] bz].
    unfold vadd, multiplyScalar, addScaledVector.
    f_equal; [f_equal|]; ring.
Qed.

(** C7.  In the tapered stem every ring vertex at curve parameter
    [t = i / tubularSegments] lies at distance [lerp(rBase, rTop, t)] from
    the curve point at [t], in the plane spanned by the normal and the
    binormal of that sample, the normal being of unit length; the radius is
    [rBase] at [t = 0] (the first ring) and [rTop] at [t = 1] (the last
    ring). *)
Theorem stem_taper_exact
    (getPointAt : R -> Vec3) (normals binormals : nat -> Vec3)
    (tube : nat -> Vec3) (i j : nat) :
  (i <= tubularSegments)%nat ->
  length (normals i) = 1 ->
  let c := getPointAt (param i) in
  let v := stemVertex getPointAt normals binormals tube i j in
  length (vsub v c) = lerp rBase rTop (param i) /\
  (exists alpha beta,
      vsub v c = vadd (multiplyScalar (normals i) alpha)
                      (multiplyScalar (binormals i) beta)) /\
  (param 0 = 0 /\ radiusAt 0 = rBase) /\
  (param tubularSegments = 1 /\ radiusAt 1 = rTop).
Proof.
  intros Hi Hn c v. unfold v, c, stemVertex, ringVertex.
  rewrite vsub_vadd.
  pose proof (taper_range _ (param_range i Hi)) as Hr.
  repeat split.
  - apply rebuild_length; [exact Hn|].
    assert (0 < rTop) by (unfold rTop; lra). lra.
  - apply rebuild_in_plane.
  - apply param_first.
  - apply lerp_0.
  - apply param_last.
  - apply lerp_1.
Qed.

Lemma stem_taper_exact_witness :
  length (vsub (stemVertex (fun t => (0, t, 0)) (fun _ => (1, 0, 0))
                           (fun _ => (0, 0, 1)) (fun _ => (1, 0, 0)) 0 0)
               (0, param 0, 0))
  = lerp rBase rTop (param 0).
Proof.
  assert (Hi : (0 <= tubularSegments)%nat) by (unfold tubularSegments; lia).
  assert (Hn : length (1, 0, 0) = 1).
  { unfold length, lengthSq, dot.
    replace (1 * 1 + 0 * 0 + 0 * 0) with 1 by ring. apply sqrt_1. }
  exact (proj1 (stem_taper_exact (fun t => (0, t, 0)) (fun _ => (1, 0, 0))
                  (fun _ => (0, 0, 1)) (fun _ => (1, 0, 0)) 0 0 Hi Hn)).
Defined.
End StemFacts.

(* ================================================================== *)
(** * Wind: the height mask *)
(* ================================================================== *)

Module WindFacts.
Import FlowerField Wind.
Local Open Scope R_scope.

Lemma clamp_unit_range x : 0 <= clamp x 0 1 <= 1.
Proof.
  unfold clamp, Rmin, Rmax.
  destruct (Rle_dec x 0); destruct (Rle_dec _ 1); lra.
Qed.

Lemma clamp_unit_low x : x <= 0 -> clamp x 0 1 = 0.
Proof.
  intros H. unfold clamp, Rmin, Rmax.
  destruct (Rle_dec x 0); destruct (Rle_dec _ 1); lra.
Qed.

Lemma clamp_unit_high x : 1 <= x -> clamp x 0 1 = 1.
Proof.
  intros H. unfold clamp, Rmin, Rmax.
  destruct (Rle_dec x 0); destruct (Rle_dec _ 1); lra.
Qed.

Lemma yMask_range y : 0 <= yMask y <= 1.
Proof. apply clamp_unit_range. Qed.

Lemma yMask_base y : y <= 0 -> yMask y = 0.
Proof. intros H. apply clamp_unit_low. lra. Qed.

Lemma topBend_range y : 0 <= topBend y <= 1.
Proof.
  unfold topBend, smoothstep.
  pose proof (clamp_unit_range ((y - 1.2) / (1.6 - 1.2))) as Ht.
  set (t := clamp _ 0 1) in *.
  pose proof (Rle_0_sqr t) as H2. pose proof (Rle_0_sqr (1 - t)) as H3.
  unfold Rsqr in *.
  assert (H4 : 0 <= t * t * (3 - 2 * t)) by (apply Rmult_le_pos; lra).
  assert (H5 : 0 <= (1 - t) * (1 - t) * (1 + 2 * t))
    by (apply Rmult_le_pos; lra).
  split; [exact H4|].
  replace (t * t * (3 - 2 * t))
    with (1 - (1 - t) * (1 - t) * (1 + 2 * t)) by ring.
  lra.
Qed.

Lemma topBend_below y : y <= 1.2 -> topBend y = 0.
Proof.
  intros H. unfold topBend, smoothstep. rewrite clamp_unit_low; [ring|].
  assert (E : (y - 1.2) / (1.6 - 1.2) = (y - 1.2) * 2.5) by lra. lra.
Qed.

Lemma topBend_above y : 1.6 <= y -> topBend y = 1.
Proof.
  intros H. unfold topBend, smoothstep. rewrite clamp_unit_high; [ring|].
  assert (E : (y - 1.2) / (1.6 - 1.2) = (y - 1.2) * 2.5) by lra. lra.
Qed.

(** C9.  The wind moves a vertex horizontally only: by the sine and cosine
    sway terms scaled by the height mask [clamp(0.70 * y, 0, 1)], plus a
    bend along [x] scaled by [smoothstep(1.2, 1.6, y)].  Both factors are
    in [[0, 1]]; the bend factor is 0 up to height 1.2 and 1 from height
    1.6 on.  A vertex at height [y <= 0] is not moved. *)
Theorem wind_height_mask (uTime aSway aPhase x y z : R) :
  let t := uTime * 1.1 + aPhase in
  displace uTime aSway aPhase (x, y, z)
  = (x + sin t * 0.12 * aSway * yMask y
       + sin (t * 1.3) * 0.08 * topBend y * aSway,
     y,
     z + cos (t * 0.85) * 0.09 * aSway * yMask y) /\
  yMask y = clamp (y * 0.70) 0 1 /\
  0 <= yMask y <= 1 /\
  0 <= topBend y <= 1 /\
  (y <= 1.2 -> topBend y = 0) /\
  (1.6 <= y -> topBend y = 1) /\
  (y <= 0 -> displace uTime aSway aPhase (x, y, z) = (x, y, z)).
Proof.
  intros t. repeat split.
  - apply yMask_range.
  - apply yMask_range.
  - apply topBend_range.
  - apply topBend_range.
  - apply topBend_below.
  - apply topBend_above.
  - intros Hy. unfold displace.
    rewrite yMask_base by exact Hy. rewrite topBend_below by lra.
    f_equal; [f_equal|]; ring.
Qed.

Lemma wind_height_mask_witness :
  displace 1 1 0.5 (0.3, -0.2, 0.1) = (0.3, -0.2, 0.1).
Proof.
  apply (wind_height_mask 1 1 0.5 0.3 (-0.2) 0.1). lra.
Defined.
End WindFacts.

(* ================================================================== *)
(** * Interaction: one shot, cooldown *)
(* ================================================================== *)

Module TapFacts.
Import JS JSFacts Tap.
Local Open Scope R_scope.

Section Handler.
Variable fx : list Signal.
Variable cfg : Config.

#[local] Abbreviation onRoseTapped := (onRoseTapped fx).
#[local] Abbreviation onPointerDown := (onPointerDown fx cfg).
#[local] Abbreviation run := (run fx cfg).
#[local] Abbreviation acceptance := (acceptance fx cfg).
#[local] Abbreviation cooling := (cooling cfg).
#[local] Abbreviation accepted := (accepted cfg).
#[local] Abbreviation one_shot := (one_shot fx).

(** *** The trigger *)

Lemma onRoseTapped_noop st : triggered st = true -> onRoseTapped st = st.
Proof. intros H. unfold Tap.onRoseTapped. now rewrite H. Qed.

Lemma onPointerDown_triggered e st :
  triggered st = true ->
  triggered (onPointerDown e st) = true /\
  sent (onPointerDown e st) = sent st.
Proof.
  intros H. unfold Tap.onPointerDown.
  destruct (cooling e st); [now split|].
  destruct (hit e); [|now split].
  rewrite onRoseTapped_noop by exact H. now split.
Qed.

Lemma run_triggered events : forall st,
  triggered st = true ->
  triggered (run events st) = true /\ sent (run events st) = sent st.
Proof.
  unfold Tap.run.
  induction events as [|e events IH]; intros st H; cbn [fold_left].
  - now split.
  - destruct (onPointerDown_triggered e st H) as [Ht Hs].
    destruct (IH _ Ht) as [Ht' Hs']. split; congruence.
Qed.

Lemma onPointerDown_one_shot e st :
  one_shot st -> one_shot (onPointerDown e st).
Proof.
  intros [[Ht Hs] | [Ht Hs]].
  - unfold Tap.onPointerDown.
    destruct (cooling e st); [left; now split|].
    destruct (hit e); [|left; now split].
    unfold Tap.onRoseTapped. cbn [triggered sent]. rewrite Ht.
    right. cbn [triggered sent]. rewrite Hs. now split.
  - destruct (onPointerDown_triggered e st Ht) as [Ht' Hs'].
    right. split; congruence.
Qed.

Lemma run_one_shot events : forall st, one_shot st -> one_shot (run events st).
Proof.
  unfold Tap.run.
  induction events as [|e events IH]; intros st H; cbn [fold_left].
  - exact H.
  - apply IH. now apply onPointerDown_one_shot.
Qed.

(** *** The cooldown *)

Hypothesis cooldown_range : 0 <= tapCooldownMs cfg <= MAX_VALUE.

(** An accepted event is not earlier than the last accepted one. *)
Lemma accepted_later e st l :
  lastTapTime st = Fin l -> accepted e st = true -> l <= now e.
Proof.
  intros Hl Ha. unfold Tap.accepted, Tap.cooling in Ha. rewrite Hl in Ha.
  unfold sub, neg, add, ofR, overflow in Ha.
  pose proof MAX_VALUE_big as HM.
  destruct (Rlt_dec MAX_VALUE (now e + - l)) as [H1 | H1]; [lra|].
  destruct (Rlt_dec (now e + - l) (- MAX_VALUE)) as [H2 | H2].
  - cbn in Ha. discriminate.
  - cbn [lt negb] in Ha.
    destruct (Rlt_dec (now e + - l) (tapCooldownMs cfg)) as [H3 | H3];
      [discriminate | lra].
Qed.

(** An event closer than the cooldown to the last accepted one is
    ignored. *)
Lemma too_soon e st l :
  lastTapTime st = Fin l -> now e - l < tapCooldownMs cfg ->
  cooling e st = true.
Proof.
  intros Hl Hd. unfold Tap.cooling. rewrite Hl.
  unfold sub, neg, add, ofR, overflow.
  destruct (Rlt_dec MAX_VALUE (now e + - l)) as [H1 | H1]; [lra|].
  destruct (Rlt_dec (now e + - l) (- MAX_VALUE)) as [H2 | H2].
  - reflexivity.
  - apply lt_fin_true. lra.
Qed.

Lemma onPointerDown_ignored e st :
  cooling e st = true -> onPointerDown e st = st.
Proof. intros H. unfold Tap.onPointerDown. now rewrite H. Qed.

Lemma onPointerDown_lastTapTime e st :
  accepted e st = true -> lastTapTime (onPointerDown e st) = Fin (now e).
Proof.
  unfold Tap.accepted, Tap.onPointerDown. intros H.
  destruct (cooling e st); [discriminate|].
  destruct (hit e); [|reflexivity].
  unfold Tap.onRoseTapped. cbn [triggered lastTapTime].
  now destruct (triggered st).
Qed.

Lemma accepted_or_cooling e st :
  accepted e st = true \/ cooling e st = true.
Proof. unfold Tap.accepted. destruct (cooling e st); auto. Qed.

(** After an accepted event at time [l], no event of the rest of the
    session that comes less than the cooldown after [l] is accepted. *)
Lemma quiet_after events : forall st l j ej,
  lastTapTime st = Fin l ->
  nth_error events j = Some ej ->
  now ej - l < tapCooldownMs cfg ->
  nth j (acceptance events st) false = false.
Proof.
  induction events as [|e events IH]; intros st l j ej Hl Hj Hd.
  - destruct j; discriminate.
  - cbn [Tap.acceptance]. destruct j as [|j].
    + injection Hj as ->. cbn [nth]. unfold Tap.accepted.
      now rewrite (too_soon ej st l Hl Hd).
    + cbn [nth_error nth] in *.
      destruct (accepted_or_cooling e st) as [Ha | Hc].
      * pose proof (accepted_later e st l Hl Ha) as Hle.
        apply (IH _ (now e) j ej); [|exact Hj | lra].
        now apply onPointerDown_lastTapTime.
      * rewrite (onPointerDown_ignored e st Hc).
        now apply (IH st l j ej).
Qed.
End Handler.
End TapFacts.

Module TapClaims.
Import JS JSFacts Tap TapFacts.
Local Open Scope R_scope.

Lemma boot_one_shot fx : one_shot fx boot.
Proof. left. split; reflexivity. Qed.

(** C5.  The trigger fires once.  After any sequence of pointer-down
    events from boot the session is either armed with nothing sent or
    triggered with the effects of the handler sent exactly once.  Once
    triggered, [onRoseTapped] changes nothing, and no further event,
    accepted or not, changes the trigger or sends anything. *)
Theorem trigger_one_shot
    (fx : list Signal) (cfg : Config) (events : list PointerDown) :
  one_shot fx (run fx cfg events boot) /\
  (forall st, triggered st = true -> onRoseTapped fx st = st) /\
  (forall more st,
     triggered st = true ->
     triggered (run fx cfg more st) = true /\
     sent (run fx cfg more st) = sent st).
Proof.
  split; [|split].
  - apply run_one_shot. apply boot_one_shot.
  - intros st. apply onRoseTapped_noop.
  - intros more st. apply run_triggered.
Qed.

Lemma trigger_one_shot_witness :
  let first := [{| now := 0; hit := true |}] in
  let second := [{| now := 1000; hit := true |}] in
  sent (run effects (CONFIG false) second
          (run effects (CONFIG false) first boot))
  = effects.
Proof.
  intros first second.
  assert (Ht : triggered (run effects (CONFIG false) first boot) = true)
    by reflexivity.
  rewrite (proj2 (proj2 (proj2 (trigger_one_shot effects (CONFIG false) []))
                    second _ Ht)).
  reflexivity.
Defined.

(** C6.  Cooldown gating: in any session, from any state, of two
    pointer-down events the later of which comes less than
    [tapCooldownMs] after the earlier, at most one is accepted: if the
    earlier is accepted the later is ignored, whether or not they hit the
    collider. *)
Theorem cooldown_gating
    (fx : list Signal) (cfg : Config) (events : list PointerDown)
    (st : State) (i j : nat) (ei ej : PointerDown) :
  0 <= tapCooldownMs cfg <= MAX_VALUE ->
  (i < j)%nat ->
  nth_error events i = Some ei ->
  nth_error events j = Some ej ->
  now ej - now ei < tapCooldownMs cfg ->
  nth i (acceptance fx cfg events st) false = true ->
  nth j (acceptance fx cfg events st) false = false.
Proof.
  intros Hcd. revert st i j.
  induction events as [|e events IH]; intros st i j Hij Hi Hj Hd Ha.
  - destruct i; discriminate.
  - destruct j as [|j]; [lia|]. cbn [acceptance nth nth_error] in *.
    destruct i as [|i].
    + injection Hi as ->. cbn [nth] in Ha.
      apply (quiet_after fx cfg Hcd events _ (now ei) j ej);
        [|exact Hj | exact Hd].
      now apply onPointerDown_lastTapTime.
    + cbn [nth nth_error] in *. apply (IH _ i j); auto. lia.
Qed.

Lemma CONFIG_cooldown_range mobile :
  0 <= tapCooldownMs (CONFIG mobile) <= MAX_VALUE.
Proof. cbn [tapCooldownMs CONFIG]. pose proof MAX_VALUE_big. lra. Qed.

Lemma cooldown_gating_witness :
  nth 1 (acceptance effects (CONFIG false)
           [{| now := 0; hit := true |}; {| now := 100; hit := true |}]
           boot) false
  = false.
Proof.
  apply (cooldown_gating effects (CONFIG false) _ boot 0 1
           {| now := 0; hit := true |} {| now := 100; hit := true |}).
  - apply CONFIG_cooldown_range.
  - lia.
  - reflexivity.
  - reflexivity.
  - cbn [now tapCooldownMs CONFIG]. lra.
  - reflexivity.
Defined.

(** C10.  A miss consumes the cooldown: an accepted pointer-down that
    misses the collider still sets [lastTapTime] to its time, changing
    nothing else, and a pointer-down that follows it by less than
    [tapCooldownMs] is ignored even when it hits. *)
Theorem miss_consumes_cooldown
    (fx : list Signal) (cfg : Config) (st : State) (e1 e2 : PointerDown) :
  tapCooldownMs cfg <= MAX_VALUE ->
  accepted cfg e1 st = true ->
  hit e1 = false ->
  now e2 - now e1 < tapCooldownMs cfg ->
  let st1 := onPointerDown fx cfg e1 st in
  st1 = {| lastTapTime := Fin (now e1);
           triggered := triggered st;
           sent := sent st |} /\
  accepted cfg e2 st1 = false /\
  onPointerDown fx cfg e2 st1 = st1.
Proof.
  intros Hcd Ha Hmiss Hd st1.
  assert (E : st1 = {| lastTapTime := Fin (now e1);
                       triggered := triggered st;
                       sent := sent st |}).
  { unfold st1, onPointerDown. unfold accepted in Ha.
    destruct (cooling cfg e1 st); [discriminate|]. now rewrite Hmiss. }
  assert (Hc : cooling cfg e2 st1 = true).
  { rewrite E. unfold cooling. cbn [lastTapTime].
    unfold sub, neg, add, ofR, overflow.
    destruct (Rlt_dec MAX_VALUE (now e2 + - now e1)) as [H1 | H1]; [lra|].
    destruct (Rlt_dec (now e2 + - now e1) (- MAX_VALUE)) as [H2 | H2].
    - reflexivity.
    - apply lt_fin_true. lra. }
  split; [exact E|]. split.
  - unfold accepted. now rewrite Hc.
  - unfold onPointerDown. now rewrite Hc.
Qed.

Lemma miss_consumes_cooldown_witness :
  let miss := {| now := 0; hit := false |} in
  let tap := {| now := 100; hit := true |} in
  onPointerDown effects (CONFIG false) tap
    (onPointerDown effects (CONFIG false) miss boot)
  = onPointerDown effects (CONFIG false) miss boot.
Proof.
  intros miss tap.
  apply (miss_consumes_cooldown effects (CONFIG false) boot miss tap).
  - apply CONFIG_cooldown_range.
  - reflexivity.
  - reflexivity.
  - cbn [now miss tap tapCooldownMs CONFIG]. lra.
Defined.
End TapClaims.

Example mulberry32_first_draws :
  Rng.draws 5 (Rng.mulberry32 20260214)
  = [1978418020; 3242575293; 2348770137; 2166645819; 1511564435]%Z.
Proof. vm_compute. reflexivity. Qed.

(* ================================================================== *)
(** * The generator: closed form of the state, ranges of [rand] and [pick] *)
(* ================================================================== *)

Module RngExtra.
Import Int32 Int32Facts Rng RngFacts.
Local Open Scope Z_scope.

Lemma ToInt32_congr x y : x mod two32 = y mod two32 -> ToInt32 x = ToInt32 y.
Proof. intros H. unfold ToInt32. rewrite !ToUint32_mod, H. reflexivity. Qed.

Lemma ToInt32_idem x : ToInt32 (ToInt32 x) = ToInt32 x.
Proof. apply ToInt32_congr. apply ToInt32_mod. Qed.

Lemma ToInt32_0 : ToInt32 0 = 0.
Proof. reflexivity. Qed.

(** [a | 0] is the conversion to int32. *)
Lemma bor_0 a : bor a 0 = ToInt32 a.
Proof.
  unfold bor. rewrite ToInt32_0, Z.lor_0_r. apply ToInt32_idem.
Qed.

Lemma step_eq a : step a = ToInt32 (ToInt32 a + 0x6D2B79F5).
Proof.
  unfold step, next_bits. cbn [snd]. rewrite (bor_0 a). apply bor_0.
Qed.

Lemma step_mod a : step a mod two32 = (a + 0x6D2B79F5) mod two32.
Proof.
  rewrite step_eq, ToInt32_mod.
  rewrite Z.add_mod by (unfold two32; lia).
  rewrite ToInt32_mod.
  rewrite <- Z.add_mod by (unfold two32; lia). reflexivity.
Qed.

Lemma skip_mod n : forall a,
  skip n a mod two32 = (a + Z.of_nat n * 0x6D2B79F5) mod two32.
Proof.
  induction n as [|n IH]; intros a.
  - rewrite skip_0. f_equal. lia.
  - rewrite skip_S, IH.
    rewrite Z.add_mod by (unfold two32; lia).
    rewrite step_mod.
    rewrite <- Z.add_mod by (unfold two32; lia).
    f_equal. lia.
Qed.

(** A call reads the state through its low 32 bits only. *)
Lemma next_bits_congr a b :
  a mod two32 = b mod two32 -> next_bits a = next_bits b.
Proof.
  intros H. unfold next_bits.
  rewrite (bor_0 a), (bor_0 b), (ToInt32_congr a b H). reflexivity.
Qed.

(** X1.  Every call of the generator returns a multiple of [2^-32] in
    [[0, 1)]. *)
Theorem rng_unit_interval (a : state) :
  exists k : Z,
    0 <= k < 4294967296 /\
    fst (rng a) = (IZR k / 4294967296)%R /\
    (0 <= fst (rng a) < 1)%R.
Proof.
  exists (fst (next_bits a)). split; [apply bits_range|]. split.
  - unfold rng, bind, bits, ret. destruct (next_bits a); reflexivity.
  - apply rng_range.
Qed.

(** X2.  The state of the generator is a counter: after [n] calls it is
    the seed plus [n] times [0x6D2B79F5], modulo [2^32], so call number
    [n + 1] of a session is the call made on [seed + n * 0x6D2B79F5]; and
    seeds that differ by a multiple of [2^32] start the same generator. *)
Theorem generator_jump_ahead (seed : Z) (n : nat) :
  next_bits (skip n (mulberry32 seed))
  = next_bits (seed + Z.of_nat n * 0x6D2B79F5) /\
  (forall k, mulberry32 (seed + k * 4294967296) = mulberry32 seed).
Proof.
  split.
  - apply next_bits_congr. rewrite skip_mod.
    rewrite Z.add_mod by (unfold two32; lia).
    rewrite mulberry32_ToUint32, ToUint32_mod.
    rewrite Z.mod_mod by (unfold two32; lia).
    rewrite <- Z.add_mod by (unfold two32; lia). reflexivity.
  - intros k. rewrite !mulberry32_ToUint32, !ToUint32_mod.
    unfold two32. apply Z.mod_add. lia.
Qed.

Local Open Scope R_scope.

(** X3.  [rand(min, max)] lies between its two arguments, in whichever
    order they are given, and never equals the second unless both are
    equal. *)
Theorem rand_between (min max : R) (a : state) :
  Rmin min max <= fst (rand min max a) <= Rmax min max /\
  (min <> max -> fst (rand min max a) <> max).
Proof.
  unfold rand, bind, ret.
  pose proof (rng_range a) as H. destruct (rng a) as [u a']. cbn [fst] in *.
  unfold Rmin, Rmax. split.
  - destruct (Rle_dec min max); split; nra.
  - intros Hne Heq.
    assert (E : (1 - u) * (max - min) = 0) by lra.
    apply Rmult_integral in E. destruct E; lra.
Qed.

Lemma floor_index u n :
  0 <= u < 1 -> (0 < n)%nat ->
  (Z.to_nat (floor (u * INR n)) < n)%nat.
Proof.
  intros Hu Hn. unfold floor.
  assert (Hpos : 0 < INR n) by (apply lt_0_INR; exact Hn).
  destruct (base_Int_part (u * INR n)) as [H1 H2].
  set (k := Int_part (u * INR n)) in *.
  assert (Hlt : IZR k < IZR (Z.of_nat n)) by (rewrite <- INR_IZR_INZ; nra).
  apply lt_IZR in Hlt.
  assert (Hge : -1 < IZR k) by nra.
  apply lt_IZR in Hge. lia.
Qed.

Lemma pick_In {A : Type} (undefined : A) (arr : list A) (a : state) :
  arr <> [] -> In (fst (pick undefined arr a)) arr.
Proof.
  intros Hne. unfold pick, bind, ret.
  pose proof (rng_range a) as Hu. destruct (rng a) as [u a'].
  cbn [fst] in *. apply nth_In. apply floor_index; [exact Hu|].
  destruct arr; [contradiction | cbn; lia].
Qed.

(** X4.  [pick(arr)] returns an element of a non-empty array: the index
    [Math.floor(rng() * arr.length)] is never out of range.  On an empty
    array it reads [undefined]. *)
Theorem pick_member {A : Type} (undefined : A) (arr : list A) (a : state) :
  (arr <> [] -> In (fst (pick undefined arr a)) arr) /\
  fst (pick undefined [] a) = undefined.
Proof.
  split.
  - apply pick_In.
  - unfold pick, bind, ret. destruct (rng a) as [u a']. cbn [fst length].
    now destruct (Z.to_nat _).
Qed.

Lemma pick_member_witness :
  In (fst (pick 0%Z FlowerField.palette (mulberry32 20260214)))
     FlowerField.palette.
Proof.
  apply (proj1 (pick_member 0%Z FlowerField.palette (mulberry32 20260214))).
  discriminate.
Defined.
End RngExtra.

(* ================================================================== *)
(** * Flower field: counts, attribute ranges, petal angles *)
(* ================================================================== *)

Module FieldExtra.
Import Int32 Rng RngFacts RngExtra FlowerField FieldFacts FieldPlacement.
Local Open Scope R_scope.

Section WithColor.
Variable offsetHSL : Z -> R -> R -> R -> Vec3.

Lemma fieldLoop_state cfg n : forall a,
  snd (fieldLoop offsetHSL cfg n a) = skip (15 * n) a.
Proof.
  induction n as [|n IH]; intros a.
  - reflexivity.
  - rewrite fieldLoop_S, !bind_eq. unfold ret.
    change (snd (?x, ?y)) with y.
    rewrite IH, flowerSample_state, <- skip_add.
    replace (15 * S n)%nat with (15 + 15 * n)%nat by lia. reflexivity.
Qed.

(** The attributes of one instance that the placement leaves out. *)
Lemma flowerSample_attributes cfg a :
  let i := inst (fst (flowerSample offsetHSL cfg a)) in
  (exists tiltX yaw tiltZ,
      rotation i = (tiltX, yaw, tiltZ) /\
      -0.18 <= tiltX <= 0.18 /\ 0 <= yaw <= PI * 2 /\
      -0.18 <= tiltZ <= 0.18) /\
  (exists hex dh ds dl,
      In hex palette /\
      -0.02 <= dh <= 0.02 /\ -0.03 <= ds <= 0.03 /\ -0.04 <= dl <= 0.04 /\
      color i = offsetHSL hex dh ds dl) /\
  0.3 <= sway i <= 1.1 /\
  0 <= phase i <= PI * 2.
Proof.
  pose proof PI_RGT_0 as Hpi.
  unfold flowerSample. unbind. cbn [inst rotation color sway phase].
  repeat split.
  - eexists _, _, _. split; [reflexivity|].
    repeat split; apply rand_range; lra.
  - eexists _, _, _, _. split; [apply pick_In; discriminate|].
    split; [apply rand_range; lra|].
    split; [apply rand_range; lra|].
    split; [apply rand_range; lra | reflexivity].
  - apply rand_range; lra.
  - apply rand_range; lra.
  - apply rand_range; lra.
  - apply rand_range; lra.
Qed.
End WithColor.

(** X5.  The flower count only cuts the field: for the same seed and
    radii, the field built with the smaller count (9000 on a phone) is the
    first part of the field built with the larger one (10000 elsewhere),
    and a field has exactly [flowerCount] instances. *)
Theorem field_count_only_truncates
    (offsetHSL : Z -> R -> R -> R -> Vec3) (cfg cfg' : Config) :
  seed cfg = seed cfg' ->
  fieldRadius cfg = fieldRadius cfg' ->
  clearRadius cfg = clearRadius cfg' ->
  (flowerCount cfg <= flowerCount cfg')%nat ->
  instances offsetHSL cfg
  = firstn (flowerCount cfg) (instances offsetHSL cfg') /\
  length (instances offsetHSL cfg) = flowerCount cfg.
Proof.
  intros Hs Hf Hc Hn. split.
  - unfold instances. rewrite firstn_map. f_equal.
    unfold samples, createFlowerField. rewrite !bind_eq, Hs.
    rewrite (fieldLoop_ext offsetHSL cfg cfg' _ Hf Hc).
    symmetry. apply fieldLoop_prefix. exact Hn.
  - unfold instances. rewrite length_map. apply samples_length.
Qed.

Lemma field_count_only_truncates_witness :
  instances plainColor (CONFIG true)
  = firstn (flowerCount (CONFIG true)) (instances plainColor (CONFIG false)).
Proof.
  assert (Hn : (flowerCount (CONFIG true) <= flowerCount (CONFIG false))%nat)
    by (apply Nat.leb_le; vm_compute; reflexivity).
  exact (proj1 (field_count_only_truncates plainColor
                  (CONFIG true) (CONFIG false)
                  eq_refl eq_refl eq_refl Hn)).
Defined.

(** X6.  Every instance of the field is tilted by at most 0.18 rad about
    each horizontal axis with a yaw in [[0, 2 pi]], carries a palette
    colour offset by at most 0.02 in hue, 0.03 in saturation and 0.04 in
    lightness, a sway amplitude in [[0.3, 1.1]] and a phase in
    [[0, 2 pi]]. *)
Theorem field_instance_attributes
    (offsetHSL : Z -> R -> R -> R -> Vec3) (cfg : Config) (x : Sample) :
  In x (samples offsetHSL cfg) ->
  (exists tiltX yaw tiltZ,
      rotation (inst x) = (tiltX, yaw, tiltZ) /\
      -0.18 <= tiltX <= 0.18 /\ 0 <= yaw <= PI * 2 /\
      -0.18 <= tiltZ <= 0.18) /\
  (exists hex dh ds dl,
      In hex palette /\
      -0.02 <= dh <= 0.02 /\ -0.03 <= ds <= 0.03 /\ -0.04 <= dl <= 0.04 /\
      color (inst x) = offsetHSL hex dh ds dl) /\
  0.3 <= sway (inst x) <= 1.1 /\
  0 <= phase (inst x) <= PI * 2.
Proof.
  intros Hin.
  pose proof (samples_Forall offsetHSL cfg
                (fun x =>
                   (exists tiltX yaw tiltZ,
                       rotation (inst x) = (tiltX, yaw, tiltZ) /\
                       -0.18 <= tiltX <= 0.18 /\ 0 <= yaw <= PI * 2 /\
                       -0.18 <= tiltZ <= 0.18) /\
                   (exists hex dh ds dl,
                       In hex palette /\
                       -0.02 <= dh <= 0.02 /\ -0.03 <= ds <= 0.03 /\
                       -0.04 <= dl <= 0.04 /\
                       color (inst x) = offsetHSL hex dh ds dl) /\
                   0.3 <= sway (inst x) <= 1.1 /\
                   0 <= phase (inst x) <= PI * 2)) as HF.
  rewrite Forall_forall in HF. apply HF; [|exact Hin].
  intros a. apply flowerSample_attributes.
Qed.

Lemma field_instance_attributes_witness :
  let x := fst (flowerSample plainColor scenario
                  (skip (14 + 15 * 0) (mulberry32 (seed scenario)))) in
  0.3 <= sway (inst x) <= 1.1.
Proof.
  intros x.
  assert (Hin : In x (samples plainColor scenario)).
  { apply nth_error_In with 0%nat. apply samples_nth. cbn. lia. }
  exact (proj1 (proj2 (proj2
           (field_instance_attributes plainColor scenario x Hin)))).
Defined.

(** X7.  Building the field draws from the shared generator exactly
    [14 + 15 * flowerCount] times: fourteen for the petals of the
    archetype and fifteen for each instance; what is built next starts
    from that state. *)
Theorem field_draw_count
    (offsetHSL : Z -> R -> R -> R -> Vec3) (cfg : Config) (a : state) :
  snd (createFlowerField offsetHSL cfg a)
  = skip (14 + 15 * flowerCount cfg) a /\
  length (fst (createFlowerField offsetHSL cfg a)) = flowerCount cfg.
Proof.
  unfold createFlowerField. rewrite bind_eq. split.
  - rewrite fieldLoop_state, buildSingleFlowerGeometry_state.
    now rewrite <- skip_add.
  - apply fieldLoop_length.
Qed.

(** X8.  With [0 <= clearRadius <= fieldRadius] every instance stands on
    the plane [y = 0] with both horizontal coordinates within
    [fieldRadius + 2.5] of the centre; in the shipped field that is 122.5,
    inside the ground plane of half-side 130. *)
Theorem field_inside_square
    (offsetHSL : Z -> R -> R -> R -> Vec3) (cfg : Config) (x : Sample) :
  0 <= clearRadius cfg <= fieldRadius cfg ->
  In x (samples offsetHSL cfg) ->
  exists px pz,
    position (inst x) = (px, 0, pz) /\
    Rabs px <= fieldRadius cfg + 2.5 /\
    Rabs pz <= fieldRadius cfg + 2.5.
Proof.
  intros Hcfg Hin.
  assert (Hp : placed cfg x).
  { pose proof (samples_Forall offsetHSL cfg (placed cfg)) as HF.
    rewrite Forall_forall in HF. apply HF; [|exact Hin].
    intros a. apply flowerSample_placed. lra. }
  destruct Hp as (Hr & (a & jx & jz & Hx & Hz & Hp) & _).
  eexists _, _. split; [exact Hp|].
  pose proof (COS_bound a) as Hc. pose proof (SIN_bound a) as Hs.
  assert (Hcr : - radial x <= cos a * radial x <= radial x) by nra.
  assert (Hsr : - radial x <= sin a * radial x <= radial x) by nra.
  split; apply Rabs_le; lra.
Qed.

Lemma field_inside_square_witness :
  let x := fst (flowerSample plainColor (CONFIG false)
                  (skip (14 + 15 * 0) (mulberry32 (seed (CONFIG false))))) in
  exists px pz,
    position (inst x) = (px, 0, pz) /\
    Rabs px <= 120 + 2.5 /\ Rabs pz <= 120 + 2.5.
Proof.
  intros x.
  assert (H0 : 0 <= clearRadius (CONFIG false) <= fieldRadius (CONFIG false))
    by (cbn [clearRadius fieldRadius CONFIG]; lra).
  assert (Hin : In x (samples plainColor (CONFIG false))).
  { apply nth_error_In with 0%nat. apply samples_nth.
    apply Nat.ltb_lt. vm_compute. reflexivity. }
  exact (field_inside_square plainColor (CONFIG false) x H0 Hin).
Defined.

(** ** Petals of the archetype *)

Lemma layerAngles_nth count : forall todo i a k,
  (k < todo)%nat ->
  exists u,
    0 <= u < 1 /\
    nth k (fst (layerAngles count i todo a)) 0
    = INR (i + k) / INR count * PI * 2 + u * 0.1.
Proof.
  induction todo as [|todo IH]; intros i a k Hk; [lia|].
  rewrite layerAngles_S, !bind_eq. unfold ret.
  change (fst (?x, ?y)) with x.
  destruct k as [|k].
  - exists (fst (rng a)). split; [apply rng_range|].
    cbn [nth]. now rewrite Nat.add_0_r.
  - cbn [nth]. destruct (IH (S i) (snd (rng a)) k ltac:(lia)) as (u & Hu & E).
    exists u. split; [exact Hu|]. rewrite E.
    replace (S i + k)%nat with (i + S k)%nat by lia. reflexivity.
Qed.

Lemma layerAngles_length count : forall todo i a,
  length (fst (layerAngles count i todo a)) = todo.
Proof.
  induction todo as [|todo IH]; intros i a.
  - reflexivity.
  - rewrite layerAngles_S, !bind_eq. unfold ret.
    change (fst (?x, ?y)) with x. cbn [length]. now rewrite IH.
Qed.

(** X9.  In a layer of [count] petals (at most 60; the archetype has layers
    of 6 and 8) petal [k] is turned by its slot angle [2 pi k / count] plus
    a jitter below 0.1 rad, which is less than the width of a slot: the
    jitter never makes a petal overtake the next one, and never wraps past
    a full turn. *)
Theorem petal_angles_ordered (count : nat) (a : state) (k : nat) :
  (count <= 60)%nat -> (k < count)%nat ->
  let angles := fst (layerAngles count 0 count a) in
  let slot (k : nat) := INR k / INR count * PI * 2 in
  length angles = count /\
  slot k <= nth k angles 0 < slot k + 0.1 /\
  slot k + 0.1 < slot (S k) /\
  slot (S k) <= PI * 2.
Proof.
  intros Hc Hk angles slot. unfold angles, slot.
  pose proof PI2_3_2 as Hpi.
  assert (Hn : 0 < INR count) by (apply lt_0_INR; lia).
  assert (Hn60 : INR count <= 60).
  { apply le_INR in Hc.
    assert (E : INR 60 = 60) by (rewrite INR_IZR_INZ; f_equal).
    lra. }
  assert (Hinv : / 60 <= / INR count) by (apply Rinv_le_contravar; lra).
  assert (Hinv1 : / INR count * INR count = 1) by (apply Rinv_l; lra).
  split; [apply layerAngles_length|].
  destruct (layerAngles_nth count count 0 a k Hk) as (u & Hu & E).
  rewrite E. cbn [Nat.add]. split; [lra|]. split.
  - rewrite S_INR. unfold Rdiv.
    assert (0.1 < / INR count * PI * 2) by nra. nra.
  - assert (Hle : INR (S k) <= INR count) by (apply le_INR; lia).
    unfold Rdiv.
    assert (INR (S k) * / INR count <= 1).
    { apply Rmult_le_reg_r with (INR count); [lra|].
      rewrite Rmult_assoc, Hinv1. lra. }
    nra.
Qed.

Lemma petal_angles_ordered_witness :
  let angles := fst (layerAngles 6 0 6 (mulberry32 20260214)) in
  INR 0 / INR 6 * PI * 2 <= nth 0 angles 0 < INR 0 / INR 6 * PI * 2 + 0.1.
Proof.
  intros angles.
  exact (proj1 (proj2
           (petal_angles_ordered 6 (mulberry32 20260214) 0
              ltac:(lia) ltac:(lia)))).
Defined.
End FieldExtra.

(* ================================================================== *)
(** * Wind: how far a vertex can move *)
(* ================================================================== *)

Module WindExtra.
Import FlowerField Wind WindFacts.
Local Open Scope R_scope.

Lemma scaled_abs p s : -1 <= p <= 1 -> - Rabs s <= p * s <= Rabs s.
Proof.
  intros Hp. unfold Rabs. destruct (Rcase_abs s); split; nra.
Qed.

Lemma unit_product p m : -1 <= p <= 1 -> 0 <= m <= 1 -> -1 <= p * m <= 1.
Proof. intros Hp Hm. split; nra. Qed.

(** X10.  The wind never moves a vertex vertically, and horizontally never
    by more than 0.2 times the sway amplitude along [x] and 0.09 times
    along [z] (0.22 and 0.099 for the largest amplitude of the field,
    1.1).  From height 1.6 up both masks are saturated and the vertex gets
    the full sway and the full top bend. *)
Theorem wind_displacement_bounded (uTime aSway aPhase x y z : R) :
  let t := uTime * 1.1 + aPhase in
  (exists x' z',
      displace uTime aSway aPhase (x, y, z) = (x', y, z') /\
      Rabs (x' - x) <= 0.2 * Rabs aSway /\
      Rabs (z' - z) <= 0.09 * Rabs aSway) /\
  (1.6 <= y ->
   displace uTime aSway aPhase (x, y, z)
   = (x + sin t * 0.12 * aSway + sin (t * 1.3) * 0.08 * aSway,
      y,
      z + cos (t * 0.85) * 0.09 * aSway)).
Proof.
  intros t. split.
  - unfold displace. fold t. eexists _, _. split; [reflexivity|].
    pose proof (yMask_range y) as Hm. pose proof (topBend_range y) as Hb.
    pose proof (SIN_bound t) as Hs1. pose proof (SIN_bound (t * 1.3)) as Hs2.
    pose proof (COS_bound (t * 0.85)) as Hc.
    pose proof (scaled_abs _ aSway (unit_product _ _ Hs1 Hm)) as H1.
    pose proof (scaled_abs _ aSway (unit_product _ _ Hs2 Hb)) as H2.
    pose proof (scaled_abs _ aSway (unit_product _ _ Hc Hm)) as H3.
    set (m := yMask y) in *. set (b := topBend y) in *.
    set (A := Rabs aSway) in *.
    split; apply Rabs_le; split; nra.
  - intros Hy. unfold displace. fold t.
    assert (Em : yMask y = 1) by (apply clamp_unit_high; lra).
    rewrite Em, topBend_above by exact Hy.
    f_equal; [f_equal|]; ring.
Qed.

Lemma wind_displacement_bounded_witness :
  displace 1 1 0.5 (0.3, 2, 0.1)
  = (0.3 + sin (1 * 1.1 + 0.5) * 0.12 * 1
       + sin ((1 * 1.1 + 0.5) * 1.3) * 0.08 * 1,
     2,
     0.1 + cos ((1 * 1.1 + 0.5) * 0.85) * 0.09 * 1).
Proof.
  apply (proj2 (wind_displacement_bounded 1 1 0.5 0.3 2 0.1)). lra.
Defined.
End WindExtra.

(* ================================================================== *)
(** * Typed arrays: loops that fill an array front to back *)
(* ================================================================== *)

Module FillFacts.
Import TypedArray TypedArrayFacts Fill.

Lemma store_app_r {A} (pre : list A) : forall l t v,
  store (pre ++ l) (length pre + t) v = pre ++ store l t v.
Proof.
  induction pre as [|p pre IH]; intros l t v.
  - reflexivity.
  - cbn [app length Nat.add store]. now rewrite IH.
Qed.

Lemma fills_nil {A} (r : nat) (z : A) : fills r 0 z [] (fun st => st).
Proof.
  split; [reflexivity|]. intros pre m cnt _ _.
  cbn [Nat.mul app]. now rewrite Nat.sub_0_r, Nat.add_0_r.
Qed.

Lemma fills_seq {A} (r u1 u2 : nat) (z : A) c1 c2 b1 b2 :
  fills r u1 z c1 b1 -> fills r u2 z c2 b2 ->
  fills r (u1 + u2) z (c1 ++ c2) (fun st => b2 (b1 st)).
Proof.
  intros [L1 F1] [L2 F2]. split.
  - rewrite length_app, L1, L2. lia.
  - intros pre m cnt Hpre Hm.
    rewrite F1 by (auto; lia).
    rewrite app_assoc.
    rewrite F2.
    + rewrite <- !app_assoc.
      replace (m - u1 * r - u2 * r) with (m - (u1 + u2) * r) by nia.
      now rewrite Nat.add_assoc.
    + rewrite length_app, L1. lia.
    + lia.
Qed.

(** A loop of filling rounds fills with the concatenation of the chunks. *)
Lemma for_fills {A X} (r u : nat) (z : A)
    (chunk : X -> list A) (body : X -> list A * nat -> list A * nat) :
  forall xs,
    (forall x, In x xs -> fills r u z (chunk x) (body x)) ->
    fills r (u * length xs) z (flat_map chunk xs) (for_ xs body).
Proof.
  unfold for_. induction xs as [|x xs IH]; intros Hall.
  - cbn [length flat_map fold_left]. rewrite Nat.mul_0_r. apply fills_nil.
  - cbn [length flat_map fold_left].
    replace (u * S (length xs)) with (u + u * length xs) by lia.
    apply (fills_seq r u (u * length xs) z (chunk x) (flat_map chunk xs)
             (body x)
             (fun st => fold_left (fun st x => body x st) xs st)).
    + apply Hall. now left.
    + apply IH. intros y Hy. apply Hall. now right.
Qed.

(** Filling an array of exactly the right size leaves no default entry. *)
Lemma fills_whole {A} (r u : nat) (z : A) chunk body :
  fills r u z chunk body ->
  body (repeat z (u * r), 0) = (chunk, u).
Proof.
  intros [L F]. specialize (F [] (u * r) 0 eq_refl (Nat.le_refl _)).
  cbn [app] in F. rewrite F, Nat.sub_diag. cbn [repeat].
  now rewrite app_nil_r.
Qed.
End FillFacts.

(* ================================================================== *)
(** * Rose bloom surface: buffers, extent, clamp, modulo *)
(* ================================================================== *)

Module RoseExtra.
Import TypedArray TypedArrayFacts Fill FillFacts.
Import JS JSFacts Rose RoseLayout RoseR RoseFacts.
Local Open Scope R_scope.

(** ** The two buffers *)

Lemma put_quad_fills nv0 i j :
  fills 1 6 0%nat (quad_indices nv0 i j) (put_quad nv0 i j).
Proof.
  split; [reflexivity|]. intros pre m cnt Hpre Hm.
  rewrite Nat.mul_1_r in Hpre. subst cnt.
  destruct m as [|[|[|[|[|[|m]]]]]]; try (cbn in Hm; lia).
  unfold put_quad. cbn [repeat].
  rewrite <- (Nat.add_0_r (length pre)) at 1.
  rewrite !store_app_r. cbn [store].
  unfold quad_indices. cbn [app Nat.mul Nat.sub Nat.add].
  rewrite Nat.sub_0_r. reflexivity.
Qed.

Lemma put_vertex_fills i j :
  fills 3 1 (Fin 0) (vertex_entries i j) (put_vertex i j).
Proof.
  split.
  - unfold vertex_entries. now destruct (vertex i j) as [[px py] pz].
  - intros pre m cnt Hpre Hm.
    destruct m as [|[|[|m]]]; try (cbn in Hm; lia).
    unfold put_vertex, vertex_entries.
    destruct (vertex i j) as [[px py] pz]. cbn [repeat].
    rewrite <- Hpre.
    rewrite <- (Nat.add_0_r (length pre)) at 1.
    rewrite !store_app_r. cbn [store app Nat.mul Nat.sub Nat.add].
    rewrite Nat.sub_0_r, Nat.add_1_r. reflexivity.
Qed.

(** X11.  The index buffer holds, row by row and quad by quad, the two
    triangles [(a, b, d)] and [(b, c, d)] of every quad of the grid and
    nothing else: every allocated entry is written. *)
Theorem indices_are_the_quads (nu0 nv0 : nat) :
  indices_of nu0 nv0
  = flat_map (fun i => flat_map (quad_indices nv0 i) (seq 0 (nv0 - 1)))
             (seq 0 (nu0 - 1)).
Proof.
  unfold indices_of.
  pose proof (for_fills 1 (6 * length (seq 0 (nv0 - 1))) 0%nat
                (fun i => flat_map (quad_indices nv0 i) (seq 0 (nv0 - 1)))
                (fun i => for_ (seq 0 (nv0 - 1)) (put_quad nv0 i))
                (seq 0 (nu0 - 1))) as H.
  assert (Hall : forall i, In i (seq 0 (nu0 - 1)) ->
            fills 1 (6 * length (seq 0 (nv0 - 1))) 0%nat
              (flat_map (quad_indices nv0 i) (seq 0 (nv0 - 1)))
              (for_ (seq 0 (nv0 - 1)) (put_quad nv0 i))).
  { intros i _. apply for_fills. intros j _. apply put_quad_fills. }
  specialize (H Hall). apply fills_whole in H.
  rewrite !length_seq in H.
  replace ((nu0 - 1) * (nv0 - 1) * 6)%nat
    with (6 * (nv0 - 1) * (nu0 - 1) * 1)%nat by lia.
  now rewrite H.
Qed.

(** X12.  The position buffer holds, row by row, the three stored
    components of every grid point and nothing else: every allocated entry
    is written, the vertex of grid point [(i, j)] at index [i * nv + j]. *)
Theorem positions_are_the_vertices :
  positions
  = flat_map (fun i => flat_map (vertex_entries i) (seq 0 nv)) (seq 0 nu).
Proof.
  unfold positions.
  pose proof (for_fills 3 (1 * length (seq 0 nv)) (Fin 0)
                (fun i => flat_map (vertex_entries i) (seq 0 nv))
                (fun i => for_ (seq 0 nv) (put_vertex i))
                (seq 0 nu)) as H.
  assert (Hall : forall i, In i (seq 0 nu) ->
            fills 3 (1 * length (seq 0 nv)) (Fin 0)
              (flat_map (vertex_entries i) (seq 0 nv))
              (for_ (seq 0 nv) (put_vertex i))).
  { intros i _. apply for_fills. intros j _. apply put_vertex_fills. }
  specialize (H Hall). apply fills_whole in H.
  rewrite !length_seq in H.
  replace (nu * nv * 3)%nat with (1 * nv * nu * 3)%nat by lia.
  now rewrite H.
Qed.
(** ** The stored vertex, in closed form *)

Lemma guard_max r h :
  guard (Fin r, Fin h) = (Fin (Rmax r 0.002), Fin h).
Proof.
  unfold Rmax. destruct (Rle_dec r 0.002) as [H | H].
  - destruct (Rle_lt_or_eq_dec _ _ H) as [Hlt | ->].
    + now rewrite guard_keeps_height.
    + rewrite guard_off_axis by lra. reflexivity.
  - rewrite guard_off_axis by lra. reflexivity.
Qed.

Lemma rR_upper x theta : 0 <= x <= 1 -> rR x theta <= 1.23.
Proof.
  intros Hx.
  pose proof (XR_range theta) as HX. pose proof (petalR_range x Hx) as HP.
  pose proof (SIN_bound (phiR theta)) as Hs.
  pose proof (COS_bound (phiR theta)) as Hc.
  unfold rR, yR.
  set (X := XR theta) in *. set (P := petalR x) in *.
  set (sn := sin (phiR theta)) in *. set (cs := cos (phiR theta)) in *.
  assert (HP1 : 0 <= P <= 0.23) by lra.
  assert (H1 : -1 <= x * sn <= 1) by nra.
  assert (H2 : -0.23 <= P * sn <= 0.23) by nra.
  set (q := P * sn) in *.
  assert (H3 : -0.23 <= q * cs <= 0.23) by nra.
  set (in_ := x * sn + q * cs).
  assert (H4 : -1.23 <= in_ <= 1.23) by (unfold in_; lra).
  nra.
Qed.

Lemma hR_extent x theta : 0 <= x <= 1 -> -1.23 <= hR x theta <= 1.23.
Proof.
  intros Hx.
  pose proof (XR_range theta) as HX. pose proof (petalR_range x Hx) as HP.
  pose proof (SIN_bound (phiR theta)) as Hs.
  pose proof (COS_bound (phiR theta)) as Hc.
  unfold hR, yR.
  set (X := XR theta) in *. set (P := petalR x) in *.
  set (sn := sin (phiR theta)) in *. set (cs := cos (phiR theta)) in *.
  assert (HP1 : 0 <= P <= 0.23) by lra.
  assert (H1 : -1 <= x * cs <= 1) by nra.
  assert (H2 : -0.23 <= P * sn <= 0.23) by nra.
  set (q := P * sn) in *.
  assert (H3 : -0.23 <= q * sn <= 0.23) by nra.
  set (in_ := x * cs - q * sn).
  assert (H4 : -1.23 <= in_ <= 1.23) by (unfold in_; lra).
  split; nra.
Qed.

Lemma vertex_value i j : (i < nu)%nat -> (j < nv)%nat ->
  vertex i j
  = (Fin (Rmax (rR (xR i) (thetaR j)) 0.002 * 0.30 * sin (thetaR j)),
     Fin (hR (xR i) (thetaR j) * 0.30 + 0.62),
     Fin (Rmax (rR (xR i) (thetaR j)) 0.002 * 0.30 * cos (thetaR j))).
Proof.
  intros Hi Hj.
  pose proof (xR_range i Hi) as Hx.
  pose proof (rR_upper _ (thetaR j) Hx) as Hr.
  pose proof (hR_extent _ (thetaR j) Hx) as Hh.
  unfold vertex. rewrite rh_raw_fin, theta_of_fin by assumption.
  rewrite guard_max.
  assert (Hr' : 0.002 <= Rmax (rR (xR i) (thetaR j)) 0.002 <= 1.23).
  { split; [apply Rmax_r | apply Rmax_lub; lra]. }
  set (r' := Rmax (rR (xR i) (thetaR j)) 0.002) in *.
  set (h := hR (xR i) (thetaR j)) in *.
  pose proof (SIN_bound (thetaR j)) as Hs.
  pose proof (COS_bound (thetaR j)) as Hc.
  set (sn := sin (thetaR j)) in *. set (cs := cos (thetaR j)) in *.
  unfold scale. cbn [Math_sin Math_cos]. fold sn cs.
  rewrite (mul_fin r' 0.30), (mul_fin h 0.30) by small_by_bounds.
  assert (H1 : 0 <= r' * 0.30 <= 1) by lra.
  set (rs := r' * 0.30) in *.
  rewrite (mul_fin rs sn), (mul_fin rs cs) by small_by_bounds.
  rewrite add_fin by small_by_bounds.
  rewrite !fround_small by small_by_bounds.
  reflexivity.
Qed.

(** X13.  Every vertex of the bloom keeps clear of the axis and stays in a
    small box: its horizontal distance from the axis is at least 0.0006
    (the guarded radius [eps] after scaling) and at most 0.369, and its
    height is between 0.251 and 0.989.  The first row ([i = 0]) is the ring
    of radius exactly 0.0006 at height 0.62. *)
Theorem bloom_extent (i j : nat) :
  (i < nu)%nat -> (j < nv)%nat ->
  exists px py pz,
    vertex i j = (Fin px, Fin py, Fin pz) /\
    0.0006 * 0.0006 <= px * px + pz * pz <= 0.369 * 0.369 /\
    0.251 <= py <= 0.989 /\
    (i = 0%nat -> px * px + pz * pz = 0.0006 * 0.0006 /\ py = 0.62).
Proof.
  intros Hi Hj.
  pose proof (xR_range i Hi) as Hx.
  pose proof (rR_upper _ (thetaR j) Hx) as Hr.
  pose proof (hR_extent _ (thetaR j) Hx) as Hh.
  eexists _, _, _. split; [now apply vertex_value|].
  assert (Hr' : 0.002 <= Rmax (rR (xR i) (thetaR j)) 0.002 <= 1.23).
  { split; [apply Rmax_r | apply Rmax_lub; lra]. }
  pose proof (sin_cos_sq (thetaR j)) as Hu.
  set (r' := Rmax (rR (xR i) (thetaR j)) 0.002) in *.
  set (sn := sin (thetaR j)) in *. set (cs := cos (thetaR j)) in *.
  assert (E : r' * 0.30 * sn * (r' * 0.30 * sn)
              + r' * 0.30 * cs * (r' * 0.30 * cs)
              = (r' * 0.30) * (r' * 0.30)).
  { replace (r' * 0.30 * sn * (r' * 0.30 * sn)
             + r' * 0.30 * cs * (r' * 0.30 * cs))
      with ((r' * 0.30) * (r' * 0.30) * (sn * sn + cs * cs)) by ring.
    rewrite Hu. ring. }
  rewrite E. split; [split; nra|]. split; [lra|].
  intros ->. unfold r'. rewrite xR_0, rR_axis, hR_axis.
  rewrite Rmax_right by lra. split; lra.
Qed.

Lemma bloom_extent_witness :
  exists px py pz,
    vertex 0 0 = (Fin px, Fin py, Fin pz) /\
    px * px + pz * pz = 0.0006 * 0.0006 /\ py = 0.62.
Proof.
  assert (Hi : (0 < nu)%nat) by (unfold nu; lia).
  assert (Hj : (0 < nv)%nat) by (unfold nv; lia).
  destruct (bloom_extent 0 0 Hi Hj) as (px & py & pz & E & _ & _ & H0).
  exists px, py, pz. split; [exact E | exact (H0 eq_refl)].
Defined.

(** X14.  The clamp of [X] to [[0.05, 1.35]] never changes anything: at
    every sampled angle the unclamped value is already between 0.5 and 1. *)
Theorem clamp_never_bites (j : nat) :
  (j < nv)%nat ->
  X_of (theta_of j) = X_raw (theta_of j) /\
  exists X, X_raw (theta_of j) = Fin X /\ 0.5 <= X <= 1.
Proof.
  intros Hj. pose proof (thetaR_range j Hj) as Ht.
  rewrite theta_of_fin by exact Hj.
  rewrite X_of_fin, X_raw_fin by exact Ht.
  split; [reflexivity|].
  exists (XR (thetaR j)). split; [reflexivity | apply XR_range].
Qed.

Lemma clamp_never_bites_witness :
  X_of (theta_of 0) = X_raw (theta_of 0).
Proof.
  apply (clamp_never_bites 0). unfold nv. lia.
Defined.

(** X15.  The helper [mod(n, m)] returns, for a modulus [0 < m <= 500] and
    any finite [n], the representative of [n] modulo [m] in [[0, m)]: it
    differs from [n] by a whole multiple of [m].  The bare remainder
    [n % m] of a negative [n] is in [(-m, 0]] instead. *)
Theorem positive_modulo (n m : R) :
  0 < m <= 500 ->
  (exists v (k : Z),
      mod_ (Fin n) (Fin m) = Fin v /\ 0 <= v < m /\ v = n + IZR k * m) /\
  (n < 0 -> exists w, rem (Fin n) (Fin m) = Fin w /\ - m < w <= 0).
Proof.
  intros Hm. split.
  - pose proof (fmod_abs n m ltac:(lra)) as H1.
    unfold mod_. rewrite rem_fin by lra.
    rewrite add_fin by small_by_bounds.
    rewrite rem_fin by lra.
    set (f1 := fmod n m) in *.
    pose proof (fmod_pos (f1 + m) m ltac:(lra) ltac:(lra)) as H2.
    exists (fmod (f1 + m) m),
           (1 - trunc (n / m) - trunc ((f1 + m) / m))%Z.
    split; [reflexivity|]. split; [exact H2|].
    unfold f1, fmod. rewrite !minus_IZR. ring.
  - intros Hn. exists (fmod n m). rewrite rem_fin by lra.
    split; [reflexivity | apply fmod_neg; lra].
Qed.

Lemma positive_modulo_witness :
  exists v (k : Z),
    mod_ (Fin (-1)) (Fin 3) = Fin v /\ 0 <= v < 3 /\ v = -1 + IZR k * 3.
Proof.
  apply (proj1 (positive_modulo (-1) 3 ltac:(lra))).
Defined.
End RoseExtra.

(* ================================================================== *)
(** * Interaction: the first tap, what triggers, pointer coordinates *)
(* ================================================================== *)

Module TapExtra.
Import JS JSFacts Tap TapFacts Pointer.
Local Open Scope R_scope.

Lemma boot_accepts cfg e : accepted cfg e boot = true.
Proof. reflexivity. Qed.

Lemma onPointerDown_trigger fx cfg e st :
  triggered (onPointerDown fx cfg e st)
  = triggered st || (accepted cfg e st && hit e).
Proof.
  unfold onPointerDown, accepted.
  destruct (cooling cfg e st); cbn [negb andb].
  - now rewrite orb_false_r.
  - destruct (hit e); cbn [andb].
    + unfold onRoseTapped. cbn [triggered].
      destruct (triggered st); reflexivity.
    + cbn [triggered]. now rewrite orb_false_r.
Qed.

(** X16.  The first pointer-down of a session is never held back by the
    cooldown, whatever its timestamp, because [lastTapTime] starts at
    [-Infinity]; if it hits the collider the session is triggered and the
    effects have been sent once, whatever events follow. *)
Theorem first_tap_accepted
    (fx : list Signal) (cfg : Config) (e : PointerDown)
    (rest : list PointerDown) :
  accepted cfg e boot = true /\
  lastTapTime (onPointerDown fx cfg e boot) = Fin (now e) /\
  (hit e = true ->
   triggered (run fx cfg (e :: rest) boot) = true /\
   sent (run fx cfg (e :: rest) boot) = fx).
Proof.
  split; [apply boot_accepts|]. split.
  - apply onPointerDown_lastTapTime. apply boot_accepts.
  - intros Hhit.
    assert (E : onPointerDown fx cfg e boot
                = {| lastTapTime := Fin (now e);
                     triggered := true; sent := fx |}).
    { unfold onPointerDown. change (cooling cfg e boot) with false.
      cbv iota. rewrite Hhit. reflexivity. }
    change (run fx cfg (e :: rest) boot)
      with (run fx cfg rest (onPointerDown fx cfg e boot)).
    rewrite E.
    destruct (run_triggered fx cfg rest
                {| lastTapTime := Fin (now e);
                   triggered := true; sent := fx |} eq_refl) as [Ht Hs].
    now split.
Qed.

Lemma first_tap_accepted_witness :
  triggered (run effects (CONFIG false)
               [{| now := -5; hit := true |}; {| now := 0; hit := false |}]
               boot)
  = true.
Proof.
  apply (proj2 (proj2 (first_tap_accepted effects (CONFIG false)
                         {| now := -5; hit := true |}
                         [{| now := 0; hit := false |}]))).
  reflexivity.
Defined.

(** X17.  A session ends triggered exactly when it started triggered or
    one of its accepted pointer-downs hit the collider: a hit that falls in
    a cooldown does not count, an accepted miss does not either. *)
Theorem trigger_characterised
    (fx : list Signal) (cfg : Config) (events : list PointerDown) :
  forall st : State,
    triggered (run fx cfg events st)
    = triggered st
      || existsb (fun p : bool * PointerDown => fst p && hit (snd p))
                 (combine (acceptance fx cfg events st) events).
Proof.
  induction events as [|e events IH]; intros st.
  - cbn. now rewrite orb_false_r.
  - change (run fx cfg (e :: events) st)
      with (run fx cfg events (onPointerDown fx cfg e st)).
    cbn [acceptance combine existsb fst snd].
    rewrite IH, onPointerDown_trigger. now rewrite orb_assoc.
Qed.

(** X18.  For a canvas of positive width and height, a pointer inside the
    canvas rectangle gets device coordinates in [[-1, 1]] on both axes;
    the top left corner maps to [(-1, 1)], the bottom right corner to
    [(1, -1)]: [y] grows upwards. *)
Theorem ndc_range (clientX clientY left top width height : R) :
  0 < width -> 0 < height ->
  (left <= clientX <= left + width ->
   top <= clientY <= top + height ->
   -1 <= fst (ndc clientX clientY left top width height) <= 1 /\
   -1 <= snd (ndc clientX clientY left top width height) <= 1) /\
  ndc left top left top width height = (-1, 1) /\
  ndc (left + width) (top + height) left top width height = (1, -1).
Proof.
  intros Hw Hh.
  assert (Ew : width / width = 1) by (field; lra).
  assert (Eh : height / height = 1) by (field; lra).
  split; [|split].
  - intros Hx Hy. unfold ndc. cbn [fst snd].
    assert (Hqx : 0 <= (clientX - left) / width <= 1).
    { split.
      - apply Rmult_le_pos; [lra | left; now apply Rinv_0_lt_compat].
      - apply Rmult_le_reg_r with width; [lra|].
        unfold Rdiv. rewrite Rmult_assoc, Rinv_l by lra. lra. }
    assert (Hqy : 0 <= (clientY - top) / height <= 1).
    { split.
      - apply Rmult_le_pos; [lra | left; now apply Rinv_0_lt_compat].
      - apply Rmult_le_reg_r with height; [lra|].
        unfold Rdiv. rewrite Rmult_assoc, Rinv_l by lra. lra. }
    lra.
  - unfold ndc. replace (left - left) with 0 by ring.
    replace (top - top) with 0 by ring.
    unfold Rdiv. rewrite !Rmult_0_l. f_equal; lra.
  - unfold ndc. replace (left + width - left) with width by ring.
    replace (top + height - top) with height by ring.
    rewrite Ew, Eh. f_equal; lra.
Qed.

Lemma ndc_range_witness :
  ndc 0 0 0 0 800 600 = (-1, 1).
Proof.
  apply (proj1 (proj2 (ndc_range 0 0 0 0 800 600 ltac:(lra) ltac:(lra)))).
Defined.
End TapExtra.

(* ================================================================== *)
(** * Easing curves and the pop of the rose: shape and end *)
(* ================================================================== *)

Module PopFacts.
Import Pop.
Local Open Scope R_scope.

Lemma ltb_true x y : Archetype.Rltb x y = true -> x < y.
Proof.
  unfold Archetype.Rltb. destruct (Rlt_dec x y); [auto | discriminate].
Qed.

Lemma ltb_false x y : Archetype.Rltb x y = false -> y <= x.
Proof.
  unfold Archetype.Rltb. destruct (Rlt_dec x y); [discriminate | lra].
Qed.

Lemma cube_mono a b : 0 <= a <= b -> a * (a * a) <= b * (b * b).
Proof.
  intros [Ha Hab].
  assert (H1 : a * a <= b * b) by nra.
  assert (H2 : a * (a * a) <= a * (b * b)) by (apply Rmult_le_compat_l; lra).
  assert (H3 : a * (b * b) <= b * (b * b)).
  { apply Rmult_le_compat_r; [nra | lra]. }
  lra.
Qed.

Lemma easeOutCubic_eq t : easeOutCubic t = 1 - (1 - t) * ((1 - t) * (1 - t)).
Proof. unfold easeOutCubic. cbn [pow]. now rewrite Rmult_1_r. Qed.

Lemma easeOutCubic_mono s t :
  0 <= s <= t -> t <= 1 -> easeOutCubic s <= easeOutCubic t.
Proof.
  intros Hs Ht. rewrite !easeOutCubic_eq.
  pose proof (cube_mono (1 - t) (1 - s) ltac:(lra)). lra.
Qed.

Lemma easeOutCubic_0 : easeOutCubic 0 = 0.
Proof. rewrite easeOutCubic_eq. lra. Qed.

Lemma easeOutCubic_1 : easeOutCubic 1 = 1.
Proof. rewrite easeOutCubic_eq. lra. Qed.

Lemma easeOutCubic_range t : 0 <= t <= 1 -> 0 <= easeOutCubic t <= 1.
Proof.
  intros Ht.
  pose proof (easeOutCubic_mono 0 t ltac:(lra) ltac:(lra)) as H0.
  pose proof (easeOutCubic_mono t 1 ltac:(lra) ltac:(lra)) as H1.
  rewrite easeOutCubic_0 in H0. rewrite easeOutCubic_1 in H1. lra.
Qed.

(** [easeOutBack] in the variable [w = 1 - t]. *)
Lemma easeOutBack_eq t :
  easeOutBack t
  = 1 + (1 - t) * (1 - t) * (1.70158 - (1.70158 + 1) * (1 - t)).
Proof. unfold easeOutBack. cbn [pow]. lra. Qed.

(** The largest value of [w^2 (c1 - c3 w)] over [w >= 0]:
    [4 c1^3 - 27 c3^2 w^2 (c1 - c3 w) = (3 c3 w - 2 c1)^2 (3 c3 w + c1)]. *)
Lemma overshoot_bound c1 c3 w :
  0 <= c1 -> 0 < c3 -> 0 <= w ->
  27 * (c3 * c3) * (w * w * (c1 - c3 * w)) <= 4 * (c1 * (c1 * c1)).
Proof.
  intros H1 H3 Hw.
  assert (H : 0 <= (3 * c3 * w - 2 * c1) * (3 * c3 * w - 2 * c1)
                   * (3 * c3 * w + c1)).
  { apply Rmult_le_pos; [apply Rle_0_sqr | nra]. }
  replace (4 * (c1 * (c1 * c1)))
    with (27 * (c3 * c3) * (w * w * (c1 - c3 * w))
          + (3 * c3 * w - 2 * c1) * (3 * c3 * w - 2 * c1)
            * (3 * c3 * w + c1)) by ring.
  lra.
Qed.

Lemma sq_le_1_aux w : 0 <= w <= 1 -> 0 <= w * w <= 1.
Proof. intros [H0 H1]. split; nra. Qed.

Lemma easeOutBack_range t : 0 <= t <= 1 -> 0 <= easeOutBack t <= 1.1001.
Proof.
  intros Ht. rewrite easeOutBack_eq.
  set (w := 1 - t). assert (Hw : 0 <= w <= 1) by (unfold w; lra).
  pose proof (sq_le_1_aux w) as Hsq.
  pose proof (overshoot_bound 1.70158 (1.70158 + 1) w
                ltac:(lra) ltac:(lra) ltac:(lra)) as Hup.
  set (g := w * w * (1.70158 - (1.70158 + 1) * w)) in *.
  split; [|lra].
  (* g >= - w^2 >= -1 *)
  assert (Hww : 0 <= w * w <= 1) by (apply Hsq; lra).
  assert (Hlin : -1 <= 1.70158 - (1.70158 + 1) * w) by lra.
  assert (- (w * w) <= g).
  { unfold g.
    replace (- (w * w)) with (w * w * -1) by ring.
    apply Rmult_le_compat_l; lra. }
  lra.
Qed.

Lemma pop_factor_shape_1 : popFactor 1 = 1.
Proof.
  unfold popFactor, upPhase, peak.
  destruct (Archetype.Rltb 1 0.65) eqn:E.
  - apply ltb_true in E. lra.
  - replace ((1 - 0.65) / (1 - 0.65)) with 1 by lra.
    rewrite easeOutCubic_1. unfold lerp. lra.
Qed.

Lemma lerp_between a b t :
  0 <= t <= 1 -> Rmin a b <= lerp a b t <= Rmax a b.
Proof.
  intros Ht. unfold lerp, Rmin, Rmax.
  destruct (Rle_dec a b); split; nra.
Qed.

Lemma progress_range p now :
  start p <= now -> 0 < duration p -> 0 <= progress p now <= 1.
Proof.
  intros Hs Hd. unfold progress.
  assert (0 <= (now - start p) / duration p).
  { apply Rmult_le_pos; [lra|]. left. now apply Rinv_0_lt_compat. }
  unfold Rmin. destruct (Rle_dec _ _); lra.
Qed.

Lemma popFactor_range u : 0 <= u <= 1 -> 1 <= popFactor u <= 1.155.
Proof.
  intros Hu. unfold popFactor, upPhase, peak.
  destruct (Archetype.Rltb u 0.65) eqn:E.
  - apply ltb_true in E.
    assert (Hs : 0 <= u / 0.65 <= 1) by (split; lra).
    pose proof (easeOutBack_range _ Hs). unfold lerp. lra.
  - apply ltb_false in E.
    assert (Hs : 0 <= (u - 0.65) / (1 - 0.65) <= 1) by (split; lra).
    pose proof (easeOutCubic_range _ Hs). unfold lerp. lra.
Qed.

(** X19 ([lerp], [easeOutCubic], [easeOutBack]): on the unit interval
    [easeOutCubic] rises monotonically from 0 to 1; [easeOutBack] also
    goes from 0 to 1 but leaves the unit interval on the way: it stays in
    [0, 1.1001] and is above 1 at [t = 0.6]; [lerp a b] returns [a] at 0,
    [b] at 1 and a value between them in between. *)
Theorem easing_curves :
  (easeOutCubic 0 = 0 /\ easeOutCubic 1 = 1 /\
   forall s t, 0 <= s -> s <= t -> t <= 1 ->
               easeOutCubic s <= easeOutCubic t) /\
  (easeOutBack 0 = 0 /\ easeOutBack 1 = 1 /\ 1 < easeOutBack 0.6 /\
   forall t, 0 <= t -> t <= 1 -> 0 <= easeOutBack t <= 1.1001) /\
  (forall a b, lerp a b 0 = a /\ lerp a b 1 = b) /\
  (forall a b t, 0 <= t -> t <= 1 -> Rmin a b <= lerp a b t <= Rmax a b).
Proof.
  repeat split.
  - apply easeOutCubic_0.
  - apply easeOutCubic_1.
  - intros s t H0 Hst H1. apply easeOutCubic_mono; lra.
  - rewrite easeOutBack_eq. lra.
  - rewrite easeOutBack_eq. lra.
  - rewrite easeOutBack_eq. lra.
  - apply easeOutBack_range; lra.
  - apply easeOutBack_range; lra.
  - unfold lerp. lra.
  - unfold lerp. lra.
  - apply lerp_between; lra.
  - apply lerp_between; lra.
Qed.

Lemma easing_curves_witness :
  easeOutCubic 0.25 <= easeOutCubic 0.5 /\
  0 <= easeOutBack 0.5 <= 1.1001 /\
  Rmin 2 3 <= lerp 2 3 0.5 <= Rmax 2 3.
Proof.
  pose proof easing_curves as (Hc & Hb & _ & Hl).
  destruct Hc as (_ & _ & Hc). destruct Hb as (_ & _ & _ & Hb).
  split; [apply Hc; lra|].
  split; [apply Hb; lra | apply Hl; lra].
Defined.

(** X20 (the pop factor of [animateRose]): the factor by which a pop
    multiplies the scale of the rose starts at 1, is exactly [peak = 1.14]
    when the up phase ends at [u = 0.65] and is back at 1 at [u = 1];
    over the whole pop it stays in [1, 1.155], in the down phase in
    [1, 1.14]; in the up phase it goes above [peak] (at [u = 0.39]),
    because [easeOutBack] overshoots. *)
Theorem pop_factor_shape :
  popFactor 0 = 1 /\ popFactor upPhase = peak /\ popFactor 1 = 1 /\
  peak < popFactor 0.39 /\
  (forall u, 0 <= u -> u <= 1 -> 1 <= popFactor u <= 1.155) /\
  (forall u, upPhase <= u -> u <= 1 -> popFactor u <= peak).
Proof.
  assert (T : forall u, u < 0.65 -> Archetype.Rltb u 0.65 = true).
  { intros u H. destruct (Archetype.Rltb u 0.65) eqn:E; [easy|].
    apply ltb_false in E. lra. }
  assert (F : forall u, 0.65 <= u -> Archetype.Rltb u 0.65 = false).
  { intros u H. destruct (Archetype.Rltb u 0.65) eqn:E; [|easy].
    apply ltb_true in E. lra. }
  repeat split.
  - unfold popFactor, upPhase, peak. rewrite T by lra.
    replace (0 / 0.65) with 0 by lra.
    unfold lerp. rewrite easeOutBack_eq. lra.
  - unfold popFactor, upPhase, peak. rewrite F by lra.
    replace ((0.65 - 0.65) / (1 - 0.65)) with 0 by lra.
    rewrite easeOutCubic_0. unfold lerp. lra.
  - unfold popFactor, upPhase, peak. rewrite F by lra.
    replace ((1 - 0.65) / (1 - 0.65)) with 1 by lra.
    rewrite easeOutCubic_1. unfold lerp. lra.
  - unfold popFactor, upPhase, peak. rewrite T by lra.
    replace (0.39 / 0.65) with 0.6 by lra.
    unfold lerp. rewrite easeOutBack_eq. lra.
  - apply popFactor_range; lra.
  - apply popFactor_range; lra.
  - intros u Hu H1. unfold upPhase in Hu.
    unfold popFactor, upPhase, peak. rewrite F by lra.
    assert (Hs : 0 <= (u - 0.65) / (1 - 0.65) <= 1) by (split; lra).
    pose proof (easeOutCubic_range _ Hs). unfold lerp. lra.
Qed.

Lemma pop_factor_shape_witness :
  1 <= popFactor 0.5 <= 1.155 /\ popFactor 0.8 <= peak.
Proof.
  pose proof pop_factor_shape as (_ & _ & _ & _ & Hr & Hd).
  split; [apply Hr; lra | apply Hd; unfold upPhase; lra].
Defined.

(** X21 ([pop] and the end of a pop in [animateRose]): a pop started by
    [pop()] at time [t0] stays armed in every frame less than 520 ms
    later; the first frame at or after [t0 + 520] multiplies the scale by
    exactly 1 and clears [popAnim]; with [popAnim] cleared a frame leaves
    the scale alone and [popAnim] stays cleared. *)
Theorem pop_lasts_520ms (t0 now : R) :
  t0 <= now ->
  (now - t0 < 520 -> snd (popStep (pop t0) now) = pop t0) /\
  (520 <= now - t0 -> popStep (pop t0) now = (1, None)) /\
  popStep None now = (1, None).
Proof.
  intros Hle. unfold pop, popStep, progress. cbn [start duration].
  repeat split.
  - intros Hlt. cbn [snd].
    destruct (Rle_dec 1 (Rmin 1 ((now - t0) / 520))) as [H|H]; [|easy].
    exfalso. unfold Rmin in H. destruct (Rle_dec _ _); lra.
  - intros Hge.
    assert (E : Rmin 1 ((now - t0) / 520) = 1).
    { apply Rmin_left. lra. }
    rewrite E.
    destruct (Rle_dec 1 1) as [_|H]; [|lra].
    f_equal. apply pop_factor_shape_1.
Qed.

Lemma pop_lasts_520ms_witness :
  snd (popStep (pop 1000) 1200) = pop 1000 /\
  popStep (pop 1000) 1520 = (1, None).
Proof.
  split.
  - apply (pop_lasts_520ms 1000 1200); lra.
  - apply (pop_lasts_520ms 1000 1520); lra.
Defined.

(** X22 ([animateRose]): in every frame the rose is turned by at most
    0.055 rad about y and 0.028 rad about z from its base rotation; its
    scale is computed afresh from the base scale, so with a positive base
    scale [b] the x and z scale stay in [0.985 b, 1.015 * 1.155 b] and the
    y scale in [0.988 b, 1.012 * 1.155 b], whether or not a pop that
    started no later than this frame is running. *)
Theorem rose_pose_bounds (ry rz b t now : R) (popAnim : option PopAnim) :
  0 < b ->
  (forall p, popAnim = Some p -> start p <= now /\ 0 < duration p) ->
  let pose := fst (animateRose ry rz b b b t now popAnim) in
  Rabs (rotation_y pose - ry) <= 0.055 /\
  Rabs (rotation_z pose - rz) <= 0.028 /\
  0.985 * b <= scale_x pose <= 1.015 * 1.155 * b /\
  0.988 * b <= scale_y pose <= 1.012 * 1.155 * b /\
  scale_z pose = scale_x pose.
Proof.
  intros Hb Hp. unfold animateRose.
  destruct (popStep popAnim now) as [k pa] eqn:Ek.
  assert (Hk : 1 <= k <= 1.155).
  { destruct popAnim as [p|]; cbn in Ek.
    - injection Ek as <- _. apply popFactor_range.
      destruct (Hp p eq_refl). now apply progress_range.
    - injection Ek as <- _. lra. }
  cbn [fst rotation_y rotation_z scale_x scale_y scale_z].
  pose proof (SIN_bound (t * 0.85)) as S1.
  pose proof (COS_bound (t * 0.65)) as C1.
  pose proof (SIN_bound (t * 1.1)) as S2.
  pose proof (SIN_bound (t * 1.1 + 1.2)) as S3.
  set (s1 := sin (t * 0.85)) in *. set (c1 := cos (t * 0.65)) in *.
  set (s2 := sin (t * 1.1)) in *. set (s3 := sin (t * 1.1 + 1.2)) in *.
  split; [apply Rabs_le; lra|].
  split; [apply Rabs_le; lra|].
  assert (B2 : 0.985 * b <= b * (1.0 + s2 * 0.015) <= 1.015 * b) by nra.
  assert (B3 : 0.988 * b <= b * (1.0 + s3 * 0.012) <= 1.012 * b) by nra.
  set (x := b * (1.0 + s2 * 0.015)) in *.
  set (y := b * (1.0 + s3 * 0.012)) in *.
  repeat split; try nra.
Qed.

Lemma rose_pose_bounds_witness :
  let pose := fst (animateRose 0 0 2 2 2 3 1200 (pop 1000)) in
  0.985 * 2 <= scale_x pose <= 1.015 * 1.155 * 2.
Proof.
  refine (proj1 (proj2 (proj2
    (rose_pose_bounds 0 0 2 3 1200 (pop 1000) _ _)))).
  - lra.
  - intros p E. injection E as <-. cbn [start duration]. lra.
Defined.
End PopFacts.

(* ================================================================== *)
(** * Falling hearts: ranges, the ground, the shared scratch objects *)
(* ================================================================== *)

Module HeartFacts.
Import Rng RngFacts Hearts.
Local Open Scope rng_scope.
Local Open Scope R_scope.

Lemma hbind_eq {A B} (m : M A) (k : A -> M B) s :
  bind m k s = k (fst (m s)) (snd (m s)).
Proof. unfold bind. destruct (m s); reflexivity. Qed.

Lemma hltb_true x y : Archetype.Rltb x y = true -> x < y.
Proof.
  unfold Archetype.Rltb. destruct (Rlt_dec x y); [auto | discriminate].
Qed.

Lemma hltb_false x y : Archetype.Rltb x y = false -> y <= x.
Proof.
  unfold Archetype.Rltb. destruct (Rlt_dec x y); [discriminate | lra].
Qed.

(** [rand] with its bounds in either order. *)
Lemma rand_up min max a :
  min <= max -> min <= fst (rand min max a) <= max.
Proof. apply rand_range. Qed.

Lemma rand_down min max a :
  max <= min -> max <= fst (rand min max a) <= min.
Proof.
  intros Hle. unfold rand, bind, ret.
  pose proof (rng_range a) as H. destruct (rng a) as [u a']. cbn [fst] in *.
  split; nra.
Qed.

Lemma polar_sq a r : cos a * r * (cos a * r) + sin a * r * (sin a * r) = r * r.
Proof.
  pose proof (sin2_cos2 a) as H. unfold Rsqr in H.
  replace (cos a * r * (cos a * r) + sin a * r * (sin a * r))
    with ((sin a * sin a + cos a * cos a) * (r * r)) by ring.
  rewrite H. ring.
Qed.

Section WithConfig.
Variable cfg : Config.
Variable hc : HeartConfig.
Hypothesis radius_nonneg : 0 <= fieldRadius cfg.
Hypothesis start_ordered : heartStartYMin hc <= heartStartYMax hc.
Hypothesis speed_reversed : heartFallSpeedMax hc <= heartFallSpeedMin hc.

Lemma spawn_ok r a y v ph :
  0 <= r <= fieldRadius cfg * 1.2 ->
  heartStartYMin hc <= y <= heartStartYMax hc ->
  heartFallSpeedMax hc <= v <= heartFallSpeedMin hc ->
  spawned cfg hc (mkHeart (cos a * r, y, sin a * r) v ph).
Proof.
  intros Hr Hy Hv. unfold spawned, offAxisSq, height.
  cbn [position velocity fst snd].
  rewrite polar_sq. repeat split; try lra; nra.
Qed.

Lemma createLoop_S n st :
  createLoop cfg hc (S n) st
  = bind (createBody cfg hc st) (fun st' => createLoop cfg hc n st').
Proof. reflexivity. Qed.

Lemma createBody_hearts st a :
  exists h,
    hearts (fst (createBody cfg hc st a)) = hearts st ++ [h] /\
    spawned cfg hc h /\ 0 <= phase h <= PI * 2.
Proof.
  unfold createBody. rewrite !hbind_eq. unfold ret.
  cbn [fst snd hearts]. eexists; split; [reflexivity|].
  pose proof PI_RGT_0 as Hpi.
  split.
  - apply spawn_ok.
    + apply rand_up. lra.
    + apply rand_up. exact start_ordered.
    + apply rand_down. exact speed_reversed.
  - cbn [phase]. apply rand_up. lra.
Qed.

Lemma createBody_matrix st a :
  let st' := fst (createBody cfg hc st a) in
  exists m,
    instanceMatrix st' = instanceMatrix st ++ [m] /\
    euler m = tmpQ st' /\ scaling m = tmpS st'.
Proof.
  unfold createBody. rewrite !hbind_eq. unfold ret.
  cbn [fst snd instanceMatrix tmpQ tmpS].
  eexists; split; [reflexivity|]. split; reflexivity.
Qed.

Lemma createBody_state st a :
  snd (createBody cfg hc st a) = skip 9 a.
Proof.
  unfold createBody. repeat rewrite hbind_eq.
  repeat rewrite rand_state. unfold ret. cbn [fst snd].
  do 9 rewrite skip_S. rewrite skip_0. reflexivity.
Qed.

Lemma createLoop_invariant (P : State -> Prop) :
  (forall st a, P st -> P (fst (createBody cfg hc st a))) ->
  forall n st a, P st -> P (fst (createLoop cfg hc n st a)).
Proof.
  intros Hstep. induction n as [|n IH]; intros st a HP.
  - exact HP.
  - rewrite createLoop_S, hbind_eq. apply IH, Hstep, HP.
Qed.

Lemma createLoop_state n : forall st a,
  snd (createLoop cfg hc n st a) = skip (9 * n) a.
Proof.
  induction n as [|n IH]; intros st a.
  - replace (9 * 0)%nat with 0%nat by lia. rewrite skip_0. reflexivity.
  - rewrite createLoop_S, hbind_eq, IH, createBody_state.
    rewrite <- skip_add.
    replace (9 * S n)%nat with (9 + 9 * n)%nat by lia. reflexivity.
Qed.

Lemma createLoop_length n : forall st a,
  length (hearts (fst (createLoop cfg hc n st a)))
  = (length (hearts st) + n)%nat /\
  length (instanceMatrix (fst (createLoop cfg hc n st a)))
  = (length (instanceMatrix st) + n)%nat.
Proof.
  induction n as [|n IH]; intros st a.
  - cbn [createLoop]. unfold ret. cbn [fst]. lia.
  - rewrite createLoop_S, hbind_eq.
    destruct (IH (fst (createBody cfg hc st a))
                 (snd (createBody cfg hc st a))) as [E1 E2].
    rewrite E1, E2.
    destruct (createBody_hearts st a) as (h & Eh & _).
    destruct (createBody_matrix st a) as (m & Em & _).
    rewrite Eh, Em, !length_app. cbn [length]. lia.
Qed.

Lemma updateHeart_cases delta t h a :
  let h' := fst (updateHeart cfg hc delta t h a) in
  (0 <= height h + velocity h * delta /\
   height h' = height h + velocity h * delta /\
   velocity h' = velocity h /\
   snd (updateHeart cfg hc delta t h a) = a) \/
  (height h + velocity h * delta < 0 /\ spawned cfg hc h' /\
   snd (updateHeart cfg hc delta t h a) = skip 4 a).
Proof.
  unfold updateHeart, height.
  destruct h as [[[x y] z] v ph]. cbn [position velocity phase fst snd].
  destruct (Archetype.Rltb (y + v * delta) 0) eqn:E.
  - right. apply hltb_true in E. split; [exact E|].
    repeat rewrite hbind_eq. repeat rewrite rand_state.
    unfold ret. cbn [fst snd].
    split.
    + apply spawn_ok.
      * apply rand_up. lra.
      * apply rand_up. exact start_ordered.
      * apply rand_down. exact speed_reversed.
    + do 4 rewrite skip_S. rewrite skip_0. reflexivity.
  - left. apply hltb_false in E. unfold ret.
    cbn [fst snd position velocity]. repeat split; try reflexivity.
    exact E.
Qed.

Lemma updateHeart_phase delta t h a :
  phase (fst (updateHeart cfg hc delta t h a)) = phase h.
Proof.
  unfold updateHeart.
  destruct h as [[[x y] z] v ph]. cbn [position velocity phase].
  destruct (Archetype.Rltb (y + v * delta) 0).
  - rewrite !hbind_eq. unfold ret. reflexivity.
  - reflexivity.
Qed.

Lemma updateLoop_cons delta t h rest :
  updateLoop cfg hc delta t (h :: rest)
  = bind (updateHeart cfg hc delta t h) (fun h' =>
      bind (updateLoop cfg hc delta t rest) (fun rest' =>
        ret (h' :: rest'))).
Proof. reflexivity. Qed.

(** What one frame does to every heart, from every generator state. *)
Lemma updateLoop_Forall2 (Q : Heart -> Heart -> Prop) delta t :
  (forall h a, Q h (fst (updateHeart cfg hc delta t h a))) ->
  forall hs a, Forall2 Q hs (fst (updateLoop cfg hc delta t hs a)).
Proof.
  intros HQ. induction hs as [|h rest IH]; intros a.
  - constructor.
  - rewrite updateLoop_cons, !hbind_eq. unfold ret. cbn [fst].
    constructor; [apply HQ | apply IH].
Qed.

Lemma update_hearts delta t st a :
  hearts (fst (update cfg hc delta t st a))
  = fst (updateLoop cfg hc delta t (hearts st) a).
Proof. unfold update. rewrite hbind_eq. reflexivity. Qed.

Lemma update_matrices delta t st a :
  instanceMatrix (fst (update cfg hc delta t st a))
  = map (fun h => mkMatrix (position h) (tmpQ st) (tmpS st))
        (hearts (fst (update cfg hc delta t st a))).
Proof. unfold update. rewrite hbind_eq. reflexivity. Qed.

Lemma update_scratch delta t st a :
  tmpQ (fst (update cfg hc delta t st a)) = tmpQ st /\
  tmpS (fst (update cfg hc delta t st a)) = tmpS st.
Proof. unfold update. rewrite hbind_eq. split; reflexivity. Qed.

Lemma frames_cons delta t rest st :
  frames cfg hc ((delta, t) :: rest) st
  = bind (update cfg hc delta t st) (fun st' => frames cfg hc rest st').
Proof. reflexivity. Qed.

Lemma frames_invariant (P : State -> Prop) :
  (forall delta t st a, P st -> P (fst (update cfg hc delta t st a))) ->
  forall fs st a, P st -> P (fst (frames cfg hc fs st a)).
Proof.
  intros Hstep. induction fs as [|[delta t] rest IH]; intros st a HP.
  - exact HP.
  - rewrite frames_cons, hbind_eq. apply IH, Hstep, HP.
Qed.

Lemma updateLoop_Forall (P P' : Heart -> Prop) delta t :
  (forall h a, P h -> P' (fst (updateHeart cfg hc delta t h a))) ->
  forall hs a, Forall P hs ->
               Forall P' (fst (updateLoop cfg hc delta t hs a)).
Proof.
  intros HP. induction hs as [|h rest IH]; intros a Hall.
  - constructor.
  - rewrite updateLoop_cons, !hbind_eq. unfold ret. cbn [fst].
    inversion Hall; subst. constructor; [apply HP | apply IH]; assumption.
Qed.

Lemma updateLoop_length delta t : forall hs a,
  length (fst (updateLoop cfg hc delta t hs a)) = length hs.
Proof.
  induction hs as [|h rest IH]; intros a.
  - reflexivity.
  - rewrite updateLoop_cons, !hbind_eq. unfold ret. cbn [fst length].
    now rewrite IH.
Qed.

Lemma updateHeart_state delta t h a :
  snd (updateHeart cfg hc delta t h a)
  = skip (if Archetype.Rltb (height h + velocity h * delta) 0
          then 4 else 0) a.
Proof.
  unfold updateHeart, height.
  destruct h as [[[x y] z] v ph]. cbn [position velocity phase fst snd].
  destruct (Archetype.Rltb (y + v * delta) 0).
  - repeat rewrite hbind_eq. repeat rewrite rand_state.
    unfold ret. cbn [fst snd].
    do 4 rewrite skip_S. rewrite skip_0. reflexivity.
  - unfold ret. cbn [snd]. now rewrite skip_0.
Qed.

Lemma updateLoop_state delta t : forall hs a,
  snd (updateLoop cfg hc delta t hs a) = skip (4 * respawns delta hs) a.
Proof.
  induction hs as [|h rest IH]; intros a.
  - unfold respawns. cbn [filter length].
    replace (4 * 0)%nat with 0%nat by lia. now rewrite skip_0.
  - rewrite updateLoop_cons, !hbind_eq. unfold ret. cbn [snd].
    rewrite IH, updateHeart_state. rewrite <- skip_add.
    unfold respawns. cbn [filter].
    destruct (Archetype.Rltb _ _); cbn [length].
    + replace (4 * S (length (filter (fun h0 : Heart =>
                 Archetype.Rltb (height h0 + velocity h0 * delta) 0) rest)))%nat
        with (4 + 4 * length (filter (fun h0 : Heart =>
                 Archetype.Rltb (height h0 + velocity h0 * delta) 0) rest))%nat
        by lia.
      reflexivity.
    + reflexivity.
Qed.

(** After the creation loop the scratch objects hold what the last
    matrix was composed from. *)
Lemma created_scratch n : forall st a,
  (tmpQ st = euler (last (instanceMatrix st) unset) /\
   tmpS st = scaling (last (instanceMatrix st) unset)) ->
  let st' := fst (createLoop cfg hc n st a) in
  tmpQ st' = euler (last (instanceMatrix st') unset) /\
  tmpS st' = scaling (last (instanceMatrix st') unset).
Proof.
  intros st a H. apply createLoop_invariant
    with (P := fun s => tmpQ s = euler (last (instanceMatrix s) unset) /\
                        tmpS s = scaling (last (instanceMatrix s) unset));
    [|exact H].
  clear. intros st a _.
  destruct (createBody_matrix st a) as (m & Em & Eq & Es).
  rewrite Em, last_last. split; congruence.
Qed.
End WithConfig.

(** X23 (the creation loop of [createFallingHearts]): the loop makes
    exactly [heartCount] hearts and matrices from nine draws each; every
    heart starts at most [fieldRadius * 1.2] from the axis, at a height
    between the two start heights, with a phase in [0, 2 pi] and with a
    speed between [heartFallSpeedMax] and [heartFallSpeedMin], which are
    passed to [rand] in this order although the first is the larger. *)
Theorem hearts_created_in_range (cfg : Config) (hc : HeartConfig)
    (a : state) :
  0 <= fieldRadius cfg ->
  heartStartYMin hc <= heartStartYMax hc ->
  heartFallSpeedMax hc <= heartFallSpeedMin hc ->
  let st := fst (createFallingHearts cfg hc a) in
  length (hearts st) = heartCount hc /\
  length (instanceMatrix st) = heartCount hc /\
  Forall (fun h => spawned cfg hc h /\ 0 <= phase h <= PI * 2)
         (hearts st) /\
  snd (createFallingHearts cfg hc a) = skip (9 * heartCount hc) a.
Proof.
  intros Hr Hy Hv st. unfold st, createFallingHearts.
  destruct (createLoop_length cfg hc Hr Hy Hv (heartCount hc) initial a)
    as [L1 L2].
  cbn [initial hearts instanceMatrix length Nat.add] in L1, L2.
  repeat split; [exact L1 | exact L2 | | apply createLoop_state].
  apply createLoop_invariant
    with (P := fun s => Forall (fun h => spawned cfg hc h /\
                                         0 <= phase h <= PI * 2) (hearts s)).
  - intros s b Hs.
    destruct (createBody_hearts cfg hc Hr Hy Hv s b) as (h & Eh & Hsp & Hph).
    rewrite Eh. apply Forall_app. split; [exact Hs|].
    constructor; [split; assumption | constructor].
  - constructor.
Qed.

Lemma hearts_created_in_range_witness :
  let st := fst (createFallingHearts (CONFIG false) (HEARTS false)
                   (mulberry32 20260214)) in
  length (hearts st) = 400%nat /\
  Forall (fun h => spawned (CONFIG false) (HEARTS false) h /\
                   0 <= phase h <= PI * 2) (hearts st).
Proof.
  pose proof (hearts_created_in_range (CONFIG false) (HEARTS false)
                (mulberry32 20260214)) as H.
  cbn [CONFIG HEARTS fieldRadius heartStartYMin heartStartYMax
       heartFallSpeedMin heartFallSpeedMax] in H.
  destruct H as (L & _ & F & _); [lra | lra | lra |].
  split; [exact L | exact F].
Defined.

(** X24 ([update] of the falling hearts): whatever the frame lengths and
    times, after any number of frames there are still [heartCount] hearts,
    none of them is below the ground (a heart taken below it is put back
    between the two start heights in the same frame) and every speed is
    still between [heartFallSpeedMax] and [heartFallSpeedMin]. *)
Theorem hearts_stay_above_ground (cfg : Config) (hc : HeartConfig)
    (fs : list (R * R)) (a a' : state) :
  0 <= fieldRadius cfg ->
  0 <= heartStartYMin hc <= heartStartYMax hc ->
  heartFallSpeedMax hc <= heartFallSpeedMin hc ->
  let st0 := fst (createFallingHearts cfg hc a) in
  let st := fst (frames cfg hc fs st0 a') in
  length (hearts st) = heartCount hc /\
  Forall (fun h => 0 <= height h /\
                   heartFallSpeedMax hc <= velocity h
                     <= heartFallSpeedMin hc) (hearts st).
Proof.
  intros Hr [Hy0 Hy] Hv st0 st. unfold st.
  apply frames_invariant
    with (P := fun s =>
      length (hearts s) = heartCount hc /\
      Forall (fun h => 0 <= height h /\
                       heartFallSpeedMax hc <= velocity h
                         <= heartFallSpeedMin hc) (hearts s)).
  - intros delta t s b [L F]. rewrite update_hearts.
    split; [now rewrite updateLoop_length|].
    revert F. apply updateLoop_Forall.
    intros h c [Hh Hvel].
    destruct (updateHeart_cases cfg hc Hr Hy Hv delta t h c)
      as [(H0 & Eh & Ev & _)|(_ & (_ & Hh' & Hv') & _)].
    + rewrite Eh, Ev. split; [exact H0 | exact Hvel].
    + split; [lra | exact Hv'].
  - unfold st0.
    destruct (createLoop_length cfg hc Hr Hy Hv (heartCount hc) initial a)
      as [L _].
    split; [exact L|].
    unfold createFallingHearts. apply createLoop_invariant
      with (P := fun s =>
        Forall (fun h => 0 <= height h /\
                         heartFallSpeedMax hc <= velocity h
                           <= heartFallSpeedMin hc) (hearts s)).
    + intros s b Hs.
      destruct (createBody_hearts cfg hc Hr Hy Hv s b)
        as (h & Eh & (_ & Hh & Hvel) & _).
      rewrite Eh. apply Forall_app. split; [exact Hs|].
      constructor; [split; [lra | exact Hvel] | constructor].
    + constructor.
Qed.

Lemma hearts_stay_above_ground_witness :
  let st0 := fst (createFallingHearts (CONFIG true) (HEARTS true)
                    (mulberry32 20260214)) in
  let st := fst (frames (CONFIG true) (HEARTS true)
                   [(0.016, 0.016); (0.5, 0.516)] st0 (mulberry32 7)) in
  length (hearts st) = 200%nat /\
  Forall (fun h => 0 <= height h /\ -1.2 <= velocity h <= -0.5)
         (hearts st).
Proof.
  pose proof (hearts_stay_above_ground (CONFIG true) (HEARTS true)
                [(0.016, 0.016); (0.5, 0.516)]
                (mulberry32 20260214) (mulberry32 7)) as H.
  cbn [CONFIG HEARTS fieldRadius heartStartYMin heartStartYMax
       heartFallSpeedMin heartFallSpeedMax heartCount] in H.
  apply H; lra.
Defined.

(** X25 (the scratch objects [tmpQ] and [tmpS] of
    [createFallingHearts]): [update] composes every matrix from the same
    two scratch objects, which still hold what the creation loop left in
    them; so from the first frame on every heart is drawn with the
    rotation and the scale that were drawn for the last heart, at the
    position of its own entry of [positions]. *)
Theorem hearts_share_rotation_and_scale (cfg : Config) (hc : HeartConfig)
    (delta t : R) (fs : list (R * R)) (a a' : state) :
  let st0 := fst (createFallingHearts cfg hc a) in
  let st := fst (frames cfg hc ((delta, t) :: fs) st0 a') in
  let final := last (instanceMatrix st0) unset in
  instanceMatrix st
  = map (fun h => mkMatrix (position h) (euler final) (scaling final))
        (hearts st).
Proof.
  intros st0 st final.
  assert (H0 : tmpQ st0 = euler final /\ tmpS st0 = scaling final).
  { unfold st0, final, createFallingHearts.
    apply created_scratch. split; reflexivity. }
  unfold st. rewrite frames_cons, hbind_eq.
  apply proj2 with (A := tmpQ (fst (frames cfg hc fs
                                 (fst (update cfg hc delta t st0 a'))
                                 (snd (update cfg hc delta t st0 a'))))
                          = euler final /\
                        tmpS (fst (frames cfg hc fs
                                 (fst (update cfg hc delta t st0 a'))
                                 (snd (update cfg hc delta t st0 a'))))
                          = scaling final).
  apply frames_invariant
    with (P := fun s =>
      (tmpQ s = euler final /\ tmpS s = scaling final) /\
      instanceMatrix s
      = map (fun h => mkMatrix (position h) (euler final) (scaling final))
            (hearts s)).
  - intros d u s b [[Eq Es] _].
    destruct (update_scratch cfg hc d u s b) as [Eq' Es'].
    split; [split; congruence|].
    rewrite update_matrices, Eq, Es. reflexivity.
  - destruct H0 as [Eq Es].
    destruct (update_scratch cfg hc delta t st0 a') as [Eq' Es'].
    split; [split; congruence|].
    rewrite update_matrices, Eq, Es. reflexivity.
Qed.

(** X26 (the generator in [update]): a frame draws from the shared
    generator four times for each heart that it takes below the ground,
    and not at all for the others; a frame in which no heart reaches the
    ground leaves the generator as it was. *)
Theorem update_draws (cfg : Config) (hc : HeartConfig) (delta t : R)
    (st : State) (a : state) :
  snd (update cfg hc delta t st a)
  = skip (4 * respawns delta (hearts st)) a /\
  (Forall (fun h => 0 <= height h + velocity h * delta) (hearts st) ->
   snd (update cfg hc delta t st a) = a).
Proof.
  assert (E : snd (update cfg hc delta t st a)
              = skip (4 * respawns delta (hearts st)) a).
  { unfold update. rewrite hbind_eq. unfold ret. cbn [snd].
    apply updateLoop_state. }
  split; [exact E|].
  intros Hall. rewrite E.
  assert (Z0 : respawns delta (hearts st) = 0%nat).
  { clear E. unfold respawns.
    induction Hall as [|h rest Hh _ IH]; [reflexivity|].
    cbn [filter]. destruct (Archetype.Rltb _ _) eqn:B; [|exact IH].
    apply hltb_true in B. lra. }
  rewrite Z0. replace (4 * 0)%nat with 0%nat by lia. apply skip_0.
Qed.

Lemma update_draws_witness :
  snd (update (CONFIG false) (HEARTS false) 1 0
         {| hearts := [mkHeart (0, 0.25, 0) (-0.25) 0;
                       mkHeart (1, 2, 3) (-1) 0];
            instanceMatrix := [unset; unset];
            tmpQ := (0, 0, 0); tmpS := (1, 1, 1) |} 5%Z)
  = 5%Z.
Proof.
  apply (update_draws (CONFIG false) (HEARTS false) 1 0).
  cbn [hearts]. unfold height.
  apply Forall_cons; [cbn [position velocity fst snd]; lra|].
  apply Forall_cons; [cbn [position velocity fst snd]; lra|].
  apply Forall_nil.
Defined.
End HeartFacts.

(* ================================================================== *)
(** * The serrated leaflet: shape of the outline *)
(* ================================================================== *)

Module LeafletFacts.
Import Leaflet.
Local Open Scope R_scope.

Lemma mirror_involutive p : mirror (mirror p) = p.
Proof.
  destruct p as [x y]. unfold mirror. cbn [fst snd].
  now rewrite Ropp_involutive.
Qed.

(** Reading a list from its end, entry by entry, reverses it. *)
Lemma read_backwards {A B} (f : A -> B) (d : A) (l : list A) :
  map (fun i => f (nth (List.length l - 1 - i) l d)) (seq 0 (List.length l))
  = map f (rev l).
Proof.
  set (g := fun i => f (nth (List.length l - 1 - i) l d)).
  apply nth_ext with (d := g 0%nat) (d' := f d).
  - now rewrite !length_map, length_seq, length_rev.
  - intros i Hi. rewrite length_map, length_seq in Hi.
    rewrite (map_nth g), (map_nth f), seq_nth by exact Hi.
    rewrite rev_nth by exact Hi.
    unfold g. f_equal. f_equal. lia.
Qed.

Lemma pairs_length {A} (f g : nat -> A) (k : nat) : forall s,
  List.length (flat_map (fun i => [f i; g i]) (seq s k)) = (2 * k)%nat.
Proof.
  induction k as [|k IH]; intros s.
  - reflexivity.
  - cbn [seq flat_map app List.length]. rewrite IH. lia.
Qed.

Section Outline.
Variables (length width : R) (numTeeth : nat).

#[local] Abbreviation teeth :=
  (flat_map (fun i => [edgePoint length width numTeeth i;
                       toothPoint length width numTeeth i])
            (seq 1 (numTeeth - 1))).

Lemma leftPoints_eq :
  leftPoints length width numTeeth = ((0, 0) :: teeth) ++ [(0, length)].
Proof. reflexivity. Qed.

Lemma teeth_length : List.length teeth = (2 * (numTeeth - 1))%nat.
Proof. apply pairs_length. Qed.

Lemma rightPoints_eq :
  rightPoints length width numTeeth
  = map mirror (rev (leftPoints length width numTeeth)).
Proof. unfold rightPoints. apply read_backwards. Qed.

Lemma tip_mirror : mirror (0, length) = (0, length).
Proof. unfold mirror. cbn [fst snd]. now rewrite Ropp_0. Qed.

Lemma allPoints_eq :
  allPoints length width numTeeth
  = ((0, 0) :: teeth) ++ (0, length)
      :: map mirror (rev ((0, 0) :: teeth)).
Proof.
  unfold allPoints. rewrite rightPoints_eq, leftPoints_eq.
  rewrite rev_app_distr. cbn [rev app map skipn].
  rewrite <- app_assoc. reflexivity.
Qed.
End Outline.

(** The leaflet outline is symmetric under a list and its mirrored
    reverse. *)
Lemma palindrome (A : list Vec2) (tip : Vec2) :
  mirror tip = tip ->
  map mirror (rev (A ++ tip :: map mirror (rev A)))
  = A ++ tip :: map mirror (rev A).
Proof.
  intros Ht. rewrite rev_app_distr. cbn [rev].
  rewrite <- map_rev, rev_involutive.
  rewrite map_app, map_app, map_map. cbn [map]. rewrite Ht.
  rewrite <- app_assoc. cbn [app].
  rewrite (map_ext _ (fun p => p) mirror_involutive), map_id.
  reflexivity.
Qed.

(** X27 (the outline of [createLeafletGeometry]): [leftPoints] has
    [2 + 2 (numTeeth - 1)] points and [rightPoints] is its mirrored
    reverse; the outline [allPoints] has one point less than the two
    together, namely the tip, which is the point that [slice(1)] drops;
    it starts and ends at the base [(0, 0)], so the shape is closed, and
    it is its own mirror image read backwards. *)
Theorem leaflet_outline (length width : R) (numTeeth : nat) :
  let left := leftPoints length width numTeeth in
  let right := rightPoints length width numTeeth in
  let all := allPoints length width numTeeth in
  List.length left = (2 + 2 * (numTeeth - 1))%nat /\
  right = map mirror (rev left) /\
  List.length all = (3 + 4 * (numTeeth - 1))%nat /\
  hd (1, 1) right = (0, length) /\
  nth (List.length left - 1) all (1, 1) = (0, length) /\
  hd (1, 1) all = (0, 0) /\ last all (1, 1) = (0, 0) /\
  map mirror (rev all) = all.
Proof.
  intros left right all. unfold left, right, all.
  pose proof (teeth_length length width numTeeth) as Ht.
  assert (Hl : List.length (leftPoints length width numTeeth)
               = (2 + 2 * (numTeeth - 1))%nat).
  { rewrite leftPoints_eq, length_app. cbn [List.length]. rewrite Ht. lia. }
  split; [exact Hl|].
  split; [apply rightPoints_eq|].
  split.
  { rewrite allPoints_eq, length_app. cbn [List.length].
    rewrite length_map, length_rev. cbn [List.length]. rewrite Ht. lia. }
  split.
  { rewrite rightPoints_eq, leftPoints_eq, rev_app_distr.
    cbn [rev app map hd]. apply tip_mirror. }
  split.
  { rewrite Hl, allPoints_eq.
    rewrite app_nth2 by (cbn [List.length]; rewrite Ht; lia).
    cbn [List.length]. rewrite Ht.
    replace (2 + 2 * (numTeeth - 1) - 1 - S (2 * (numTeeth - 1)))%nat
      with 0%nat by lia.
    reflexivity. }
  split; [reflexivity|].
  split.
  { rewrite allPoints_eq. cbn [rev map].
    rewrite map_app. cbn [map].
    rewrite app_comm_cons, app_assoc. rewrite last_last.
    unfold mirror. cbn [fst snd]. now rewrite Ropp_0. }
  rewrite allPoints_eq. apply palindrome, tip_mirror.
Qed.

Lemma ratio_range (x n : R) : 0 <= x <= n -> 0 < n -> 0 <= x / n <= 1.
Proof.
  intros [H0 H1] Hn. split.
  - apply Rmult_le_pos; [exact H0 | left; now apply Rinv_0_lt_compat].
  - apply Rmult_le_reg_r with n; [exact Hn|].
    unfold Rdiv. rewrite Rmult_assoc, Rinv_l by lra. lra.
Qed.

Lemma scaled_range (t l : R) : 0 <= t <= 1 -> 0 <= l -> 0 <= t * l <= l.
Proof. intros [H0 H1] Hl. split; nra. Qed.

Lemma inBox_mirror length width p :
  inBox length width p -> inBox length width (mirror p).
Proof.
  unfold inBox, mirror. cbn [fst snd]. now rewrite Rabs_Ropp.
Qed.

Section Box.
Variables (length width : R) (numTeeth : nat).
Hypothesis length_nonneg : 0 <= length.
Hypothesis width_nonneg : 0 <= width.

Lemma index_range i :
  (1 <= i < numTeeth)%nat ->
  0 < INR numTeeth /\ 1 <= INR i <= INR numTeeth - 1.
Proof.
  intros [H1 Hn].
  assert (E : INR numTeeth = INR (numTeeth - 1) + 1).
  { rewrite <- S_INR. f_equal. lia. }
  pose proof (pos_INR (numTeeth - 1)) as Hp.
  assert (Hi : INR i <= INR (numTeeth - 1)) by (apply le_INR; lia).
  assert (H1' : INR 1 <= INR i) by (apply le_INR; lia).
  change (INR 1) with 1 in H1'. lra.
Qed.

Lemma edgePoint_inBox i :
  (1 <= i < numTeeth)%nat ->
  inBox length width (edgePoint length width numTeeth i).
Proof.
  intros Hi. destruct (index_range i Hi) as [Hn [H1 H2]].
  unfold inBox, edgePoint, halfWidth. cbn [fst snd].
  set (t := INR i / INR numTeeth).
  assert (Ht : 0 <= t <= 1) by (apply ratio_range; lra).
  pose proof (SIN_bound (PI * t)) as Hs.
  split; [|now apply scaled_range].
  unfold toothDepth. apply Rabs_le. split; nra.
Qed.

Lemma toothPoint_inBox i :
  (1 <= i < numTeeth)%nat ->
  inBox length width (toothPoint length width numTeeth i) /\
  fst (toothPoint length width numTeeth i) <= - toothDepth.
Proof.
  intros Hi. destruct (index_range i Hi) as [Hn [H1 H2]].
  unfold inBox, toothPoint, halfWidth. cbn [fst snd].
  set (tt := (INR i - 0.5) / INR numTeeth).
  assert (Ht : 0 <= tt <= 1) by (apply ratio_range; lra).
  pose proof (SIN_bound (PI * tt)) as Hs.
  assert (Hs0 : 0 <= sin (PI * tt)).
  { pose proof PI_RGT_0. apply sin_ge_0; nra. }
  unfold toothDepth.
  split; [split; [|now apply scaled_range]|].
  - apply Rabs_le. split; nra.
  - nra.
Qed.

Lemma teeth_inBox :
  Forall (inBox length width)
    (flat_map (fun i => [edgePoint length width numTeeth i;
                         toothPoint length width numTeeth i])
              (seq 1 (numTeeth - 1))).
Proof.
  apply Forall_flat_map, Forall_forall. intros i Hi.
  apply in_seq in Hi.
  assert (Hr : (1 <= i < numTeeth)%nat) by lia.
  apply Forall_cons; [now apply edgePoint_inBox|].
  apply Forall_cons; [now apply toothPoint_inBox | apply Forall_nil].
Qed.

Lemma base_inBox : inBox length width (0, 0).
Proof.
  unfold inBox, toothDepth. cbn [fst snd]. rewrite Rabs_R0. lra.
Qed.

Lemma tip_inBox : inBox length width (0, length).
Proof.
  unfold inBox, toothDepth. cbn [fst snd]. rewrite Rabs_R0. lra.
Qed.

Lemma allPoints_inBox :
  Forall (inBox length width) (allPoints length width numTeeth).
Proof.
  rewrite allPoints_eq.
  assert (H : Forall (inBox length width)
                ((0, 0) :: flat_map
                   (fun i => [edgePoint length width numTeeth i;
                              toothPoint length width numTeeth i])
                   (seq 1 (numTeeth - 1)))).
  { apply Forall_cons; [apply base_inBox | apply teeth_inBox]. }
  apply Forall_app. split; [exact H|].
  apply Forall_cons; [apply tip_inBox|].
  apply Forall_map, Forall_rev.
  revert H. apply Forall_impl. intros p. apply inBox_mirror.
Qed.
End Box.

(** X28 (the points of [createLeafletGeometry]): for a length and a width
    that are not negative, every point of the outline lies in the box
    [|x| <= width / 2 + toothDepth], [0 <= y <= length]; every tooth
    point on the left side sticks out to [x <= -toothDepth] and lies
    [length / (2 numTeeth)] lower than the edge point pushed just before
    it, so the outline runs back and forth in y; and the bend written to
    z is odd in x, so the two halves of the leaflet bend to opposite
    sides. *)
Theorem leaflet_extent (length width : R) (numTeeth : nat) :
  0 <= length -> 0 <= width ->
  Forall (fun p => Rabs (fst p) <= width / 2 + toothDepth /\
                   0 <= snd p <= length)
         (allPoints length width numTeeth) /\
  (forall i, (1 <= i < numTeeth)%nat ->
     fst (toothPoint length width numTeeth i) <= - toothDepth /\
     snd (edgePoint length width numTeeth i)
     - snd (toothPoint length width numTeeth i)
     = length / (2 * INR numTeeth)) /\
  (forall x y, curve length (- x) y = - curve length x y).
Proof.
  intros Hl Hw. split; [|split].
  - apply (allPoints_inBox length width numTeeth Hl Hw).
  - intros i Hi. split.
    + apply (toothPoint_inBox length width numTeeth Hl Hw i Hi).
    + destruct (index_range numTeeth i Hi) as [Hn _].
      unfold edgePoint, toothPoint. cbn [snd].
      replace 0.5 with (1 / 2) by lra. field. lra.
  - intros x y. unfold curve. ring.
Qed.

Lemma leaflet_extent_witness :
  Forall (fun p => Rabs (fst p) <= 0.07 / 2 + toothDepth /\
                   0 <= snd p <= 0.15)
         (allPoints 0.15 0.07 6) /\
  fst (toothPoint 0.15 0.07 6 3) <= - toothDepth.
Proof.
  destruct (leaflet_extent 0.15 0.07 6) as (H1 & H2 & _); [lra | lra |].
  split; [exact H1|].
  apply (H2 3%nat). lia.
Defined.
End LeafletFacts.

(* ================================================================== *)
(** * Thorns on the stem: the frame and the anchor *)
(* ================================================================== *)

Module ThornFacts.
Import FlowerField Stem Thorns.
Local Open Scope R_scope.

Lemma tltb_true x y : Archetype.Rltb x y = true -> x < y.
Proof.
  unfold Archetype.Rltb. destruct (Rlt_dec x y); [auto | discriminate].
Qed.

Lemma tltb_false x y : Archetype.Rltb x y = false -> y <= x.
Proof.
  unfold Archetype.Rltb. destruct (Rlt_dec x y); [discriminate | lra].
Qed.

Lemma lengthSq_scaled a k :
  lengthSq (multiplyScalar a k) = k * k * lengthSq a.
Proof.
  destruct a as [[x y] z]. unfold lengthSq, multiplyScalar, dot. ring.
Qed.

Lemma dot_scaled a b k : dot (multiplyScalar a k) b = k * dot a b.
Proof.
  destruct a as [[x y] z], b as [[x' y'] z'].
  unfold multiplyScalar, dot. ring.
Qed.

Lemma normalize_scaled v :
  normalize v = multiplyScalar v (1 / or_one (length v)).
Proof. reflexivity. Qed.

Lemma normalize_unit v : 0 < lengthSq v -> lengthSq (normalize v) = 1.
Proof.
  intros Hv. rewrite normalize_scaled, lengthSq_scaled.
  assert (HL : 0 < length v) by (unfold length; now apply sqrt_lt_R0).
  unfold or_one. destruct (Req_dec_T (length v) 0) as [E|_]; [lra|].
  assert (E : length v * length v = lengthSq v).
  { unfold length. apply sqrt_sqrt. lra. }
  rewrite <- E. field. lra.
Qed.

Lemma normalize_dot v w : dot v w = 0 -> dot (normalize v) w = 0.
Proof. intros H. rewrite normalize_scaled, dot_scaled, H. ring. Qed.

Lemma cross_dot_l a b : dot (crossVectors a b) a = 0.
Proof.
  destruct a as [[x y] z], b as [[x' y'] z'].
  unfold crossVectors, dot. ring.
Qed.

Lemma cross_dot_r a b : dot (crossVectors a b) b = 0.
Proof.
  destruct a as [[x y] z], b as [[x' y'] z'].
  unfold crossVectors, dot. ring.
Qed.

Lemma dot_comm a b : dot a b = dot b a.
Proof.
  destruct a as [[x y] z], b as [[x' y'] z']. unfold dot. ring.
Qed.

(** Lagrange's identity. *)
Lemma cross_lengthSq a b :
  lengthSq (crossVectors a b)
  = lengthSq a * lengthSq b - dot a b * dot a b.
Proof.
  destruct a as [[x y] z], b as [[x' y'] z'].
  unfold crossVectors, lengthSq, dot. ring.
Qed.

(** The switch of [up] keeps the cross product away from zero. *)
Lemma up_not_parallel T :
  lengthSq T = 1 -> 0.19 <= lengthSq (crossVectors T (up T)).
Proof.
  intros HT. rewrite cross_lengthSq, HT. unfold up.
  destruct T as [[x y] z]. unfold lengthSq, dot in HT.
  destruct (Archetype.Rltb 0.9 (Rabs (dot (x, y, z) (0, 1, 0)))) eqn:E.
  - apply tltb_true in E. unfold dot in E.
    replace (x * 0 + y * 1 + z * 0) with y in E by ring.
    assert (Hy : 0.81 < y * y).
    { unfold Rabs in E. destruct (Rcase_abs y); nra. }
    unfold lengthSq, dot.
    pose proof (Rle_0_sqr z) as Hz. unfold Rsqr in Hz. nra.
  - apply tltb_false in E. unfold dot in E.
    replace (x * 0 + y * 1 + z * 0) with y in E by ring.
    assert (Hy : y * y <= 0.81).
    { unfold Rabs in E. destruct (Rcase_abs y); nra. }
    unfold lengthSq, dot. nra.
Qed.

Section Frame.
Variable T : Vec3.
Hypothesis unit_T : lengthSq T = 1.

Lemma normal_unit : lengthSq (normal T) = 1.
Proof.
  unfold normal. apply normalize_unit.
  pose proof (up_not_parallel T unit_T). lra.
Qed.

Lemma normal_tangent : dot (normal T) T = 0.
Proof. unfold normal. apply normalize_dot, cross_dot_l. Qed.

Lemma binormal_unit : lengthSq (binormal T) = 1.
Proof.
  unfold binormal. apply normalize_unit.
  rewrite cross_lengthSq, normal_unit, unit_T, normal_tangent. lra.
Qed.

Lemma binormal_tangent : dot (binormal T) T = 0.
Proof. unfold binormal. apply normalize_dot, cross_dot_r. Qed.

Lemma binormal_normal : dot (binormal T) (normal T) = 0.
Proof. unfold binormal. apply normalize_dot, cross_dot_l. Qed.

Lemma spoke_lengthSq (n b : Vec3) (c s : R) :
  lengthSq (addScaledVector (addScaledVector (0, 0, 0) n c) b s)
  = c * c * lengthSq n + s * s * lengthSq b + 2 * c * s * dot b n.
Proof.
  destruct n as [[nx ny] nz], b as [[bx by_] bz].
  unfold addScaledVector, lengthSq, dot. ring.
Qed.

Lemma spoke_dot (n b w : Vec3) (c s : R) :
  dot (addScaledVector (addScaledVector (0, 0, 0) n c) b s) w
  = c * dot n w + s * dot b w.
Proof.
  destruct n as [[nx ny] nz], b as [[bx by_] bz], w as [[wx wy] wz].
  unfold addScaledVector, dot. ring.
Qed.

Lemma outward_unit i : lengthSq (outward T i) = 1.
Proof.
  unfold outward. apply normalize_unit.
  rewrite spoke_lengthSq, normal_unit, binormal_unit, binormal_normal.
  pose proof (sin2_cos2 (angle i)) as H. unfold Rsqr in H. lra.
Qed.

Lemma outward_tangent i : dot (outward T i) T = 0.
Proof.
  unfold outward. apply normalize_dot.
  rewrite spoke_dot, normal_tangent, binormal_tangent. ring.
Qed.
End Frame.

Lemma INR_8 : INR (thornCount - 1) = 8.
Proof.
  change (thornCount - 1)%nat with 8%nat. rewrite INR_IZR_INZ. f_equal.
Qed.

Lemma u_range i : (i < thornCount)%nat -> 0 <= u i <= 1.
Proof.
  intros Hi. unfold u. rewrite INR_8.
  assert (H8 : INR i <= INR 8) by (apply le_INR; unfold thornCount in Hi; lia).
  assert (E : INR 8 = 8) by (rewrite INR_IZR_INZ; f_equal).
  pose proof (pos_INR i). lra.
Qed.

Lemma t_range i : (i < thornCount)%nat -> 0.18 <= t i <= 0.74.
Proof.
  intros Hi. pose proof (u_range i Hi). unfold t, lerp. lra.
Qed.

Lemma offset_eq p o r : vsub (addScaledVector p o r) p = multiplyScalar o r.
Proof.
  destruct p as [[px py] pz], o as [[ox oy] oz].
  unfold vsub, addScaledVector, multiplyScalar.
  f_equal; [f_equal|]; ring.
Qed.

(** X29 ([addThornsToStem]): the nine thorns sit at curve parameters
    between 0.18 and 0.74, the first at 0.18 and the last at 0.74.  Where
    the curve has a tangent that is not zero, the switch of the reference
    vector keeps the cross product away from zero, the direction
    [outward] is a unit vector at right angles to the tangent, and the
    thorn is anchored at distance [0.98 * radiusAt(t)] from the curve
    point, that is just inside the surface of the stem, in the plane
    across the curve. *)
Theorem thorn_anchor (getPointAt getTangentAt : R -> Vec3) (i : nat) :
  (i < thornCount)%nat ->
  0 < lengthSq (getTangentAt (t i)) ->
  let T := tangentAt getTangentAt i in
  let offset := vsub (thornPos getPointAt getTangentAt i)
                     (getPointAt (t i)) in
  (0.18 <= t i <= 0.74 /\ t 0 = 0.18 /\ t (thornCount - 1) = 0.74) /\
  0.19 <= lengthSq (crossVectors T (up T)) /\
  length (outward T i) = 1 /\
  dot (outward T i) T = 0 /\
  length offset = 0.98 * radiusAt (t i) /\
  dot offset T = 0 /\
  length offset < radiusAt (t i).
Proof.
  intros Hi Htan T offset.
  assert (HT : lengthSq T = 1) by (apply normalize_unit; exact Htan).
  pose proof (t_range i Hi) as Ht.
  assert (Hr : 0.028 <= radiusAt (t i) <= 0.052).
  { unfold radiusAt, lerp, rBase, rTop. lra. }
  assert (Ho : length (outward T i) = 1).
  { unfold length. rewrite (outward_unit T HT). apply sqrt_1. }
  assert (Hoff : length offset = 0.98 * radiusAt (t i)).
  { unfold offset, thornPos. fold T. rewrite offset_eq.
    unfold length. rewrite lengthSq_scaled, (outward_unit T HT).
    rewrite Rmult_1_r. rewrite sqrt_square by lra. lra. }
  split; [split; [exact Ht|split]|].
  - unfold t, u, lerp. cbn [INR]. lra.
  - unfold t, u, lerp. rewrite INR_8. lra.
  - split; [apply up_not_parallel; exact HT|].
    split; [exact Ho|].
    split; [apply outward_tangent|].
    split; [exact Hoff|].
    split; [|lra].
    unfold offset, thornPos. fold T. rewrite offset_eq, dot_scaled.
    rewrite (outward_tangent T). ring.
Qed.

Lemma thorn_anchor_witness :
  let getPointAt := fun s : R => (0, s, 0) in
  let getTangentAt := fun _ : R => (0, 2, 0) in
  length (vsub (thornPos getPointAt getTangentAt 4) (getPointAt (t 4)))
  = 0.98 * radiusAt (t 4).
Proof.
  intros getPointAt getTangentAt.
  refine (proj1 (proj2 (proj2 (proj2 (proj2
    (thorn_anchor getPointAt getTangentAt 4 _ _)))))).
  - unfold thornCount. lia.
  - unfold getTangentAt, lengthSq, dot. lra.
Defined.
End ThornFacts.

(* ================================================================== *)
(** * Ground and grass: the terrain and what lies on it *)
(* ================================================================== *)

Module GroundFacts.
Import Ground.
Local Open Scope R_scope.

Lemma terrainY_range x z : -0.24 <= terrainY x z <= 0.24.
Proof.
  unfold terrainY.
  pose proof (SIN_bound (x * 0.035)). pose proof (COS_bound (z * 0.030)).
  pose proof (SIN_bound ((x + z) * 0.020)). lra.
Qed.

Lemma noise_range x z : 0 <= noise x z <= 1.
Proof.
  unfold noise.
  pose proof (SIN_bound (x * 0.09)) as [S0 S1].
  pose proof (COS_bound (z * 0.08)) as [C0 C1].
  pose proof (SIN_bound ((x + z) * 0.05)).
  set (s := sin (x * 0.09)) in *. set (c := cos (z * 0.08)) in *.
  assert (P : -1 <= s * c <= 1) by (split; nra).
  rewrite Rmult_assoc. lra.
Qed.

Lemma mix_between c target alpha lo hi :
  0 <= alpha <= 1 -> lo <= c <= hi -> lo <= target <= hi ->
  lo <= mix c target alpha <= hi.
Proof. intros Ha Hc Ht. unfold mix. split; nra. Qed.

(** X30 ([createGround]): the terrain stays within 0.24 of the plane
    [y = 0], and [heightAt] is the same function, so every blade of grass
    is exactly 0.01 above the terrain; a blade lies at most 125 from the
    centre in x and z, inside the ground plane of half side 130, and has
    a size in [0.035, 0.09) and a phase in [0, 2 pi); the blend factor of
    the vertex colours is in [0, 1], so every colour channel of a vertex
    stays between the smallest and the largest of the three palette
    values. *)
Theorem ground_and_grass :
  (forall x z, -0.24 <= terrainY x z <= 0.24 /\
               heightAt x z = terrainY x z) /\
  (forall r1 r2 r3 r4,
     0 <= r1 < 1 -> 0 <= r2 < 1 -> 0 <= r3 < 1 -> 0 <= r4 < 1 ->
     let b := blade r1 r2 r3 r4 in
     (-125 <= bx b < 125 /\ -125 <= bz b < 125 /\
      Rabs (bx b) < halfSide /\ Rabs (bz b) < halfSide) /\
     by_ b - terrainY (bx b) (bz b) = 0.01 /\
     0.035 <= size b < 0.09 /\
     0 <= phase b < PI * 2) /\
  (forall x z, 0 <= noise x z <= 1) /\
  (forall base dark light lo hi x z,
     lo <= base <= hi -> lo <= dark <= hi -> lo <= light <= hi ->
     lo <= vertexChannel base dark light x z <= hi).
Proof.
  split; [|split; [|split]].
  - intros x z. split; [apply terrainY_range | reflexivity].
  - intros r1 r2 r3 r4 H1 H2 H3 H4 b. unfold b, blade, halfSide.
    cbn [bx by_ bz size phase].
    pose proof PI_RGT_0 as Hpi.
    repeat split; try lra; try nra.
    + apply Rabs_def1; lra.
    + apply Rabs_def1; lra.
    + unfold heightAt, terrainY. lra.
  - apply noise_range.
  - intros base dark light lo hi x z Hb Hd Hl. unfold vertexChannel.
    pose proof (noise_range x z) as Hn.
    apply mix_between; [lra | | exact Hl].
    apply mix_between; [lra | exact Hb | exact Hd].
Qed.

Lemma ground_and_grass_witness :
  let b := blade 0 0.5 0.25 0.75 in
  by_ b - terrainY (bx b) (bz b) = 0.01 /\
  0 <= vertexChannel 0.2 0.1 0.3 1 2 <= 1.
Proof.
  pose proof ground_and_grass as (_ & Hb & _ & Hc).
  split.
  - apply (Hb 0 0.5 0.25 0.75); lra.
  - apply Hc; lra.
Defined.
End GroundFacts.

(* ================================================================== *)
(** * A run of the page: what the field depends on *)
(* ================================================================== *)

Module SessionFacts.
Import Int32 Rng RngFacts FlowerField Session.
Local Open Scope R_scope.
Local Open Scope run_scope.

Lemma then_eq {A B} (m : Run A) (k : A -> Run B) w :
  then_ m k w = k (fst (m w)) (snd (m w)).
Proof. unfold then_. destruct (m w); reflexivity. Qed.

Lemma seeded_fst {A} (m : Rng.M A) w :
  fst (seeded m w) = fst (m (gen w)).
Proof. unfold seeded. destruct (m (gen w)); reflexivity. Qed.

Lemma seeded_entropy {A} (m : Rng.M A) w :
  entropy (snd (seeded m w)) = entropy w /\
  calls (snd (seeded m w)) = calls w.
Proof. unfold seeded. destruct (m (gen w)); split; reflexivity. Qed.

Lemma Math_random_gen w : gen (snd (Math_random w)) = gen w.
Proof. reflexivity. Qed.

(** [Math.random] never touches the seeded generator. *)
Lemma grassBlade_world w :
  gen (snd (grassBlade w)) = gen w /\
  entropy (snd (grassBlade w)) = entropy w /\
  calls (snd (grassBlade w)) = (4 + calls w)%nat.
Proof. unfold grassBlade. rewrite !then_eq. repeat split. Qed.

Lemma grassBlade_value w :
  fst (grassBlade w)
  = Ground.blade (entropy w (calls w)) (entropy w (S (calls w)))
                 (entropy w (S (S (calls w))))
                 (entropy w (S (S (S (calls w))))).
Proof. unfold grassBlade. rewrite !then_eq. reflexivity. Qed.

Lemma grassLoop_S n :
  grassLoop (S n)
  = then_ grassBlade (fun b =>
      then_ (grassLoop n) (fun rest => unit_ (b :: rest))).
Proof. reflexivity. Qed.

Lemma grassLoop_world n : forall w,
  gen (snd (grassLoop n w)) = gen w /\
  entropy (snd (grassLoop n w)) = entropy w /\
  calls (snd (grassLoop n w)) = (4 * n + calls w)%nat.
Proof.
  induction n as [|n IH]; intros w.
  - cbn [grassLoop]. unfold unit_. cbn [snd].
    split; [reflexivity | split; [reflexivity | lia]].
  - rewrite grassLoop_S, !then_eq. unfold unit_. cbn [snd].
    destruct (IH (snd (grassBlade w))) as (G & E & C).
    destruct (grassBlade_world w) as (G' & E' & C').
    rewrite G, E, C, G', E', C'.
    split; [reflexivity | split; [reflexivity | lia]].
Qed.

Lemma grassLoop_head n w :
  hd (Ground.blade 0 0 0 0) (fst (grassLoop (S n) w))
  = fst (grassBlade w).
Proof. rewrite grassLoop_S, !then_eq. reflexivity. Qed.

Lemma grassCount_pos mobile : exists n, grassCount mobile = S n.
Proof.
  unfold grassCount. destruct mobile; [exists 21999%nat | exists 54999%nat];
    reflexivity.
Qed.

Section Init.
Variable offsetHSL : Z -> R -> R -> R -> Vec3.
Variable cfg : Config.
Variable hc : Hearts.HeartConfig.
Variable mobile : bool.

(** The field of a run is the field of the seed, whatever [Math.random]
    returns and however many blades of grass are made before it. *)
Lemma run_flowerField e :
  flowerField (run offsetHSL cfg hc mobile e) = samples offsetHSL cfg.
Proof.
  unfold run, init. rewrite !then_eq. unfold unit_.
  cbn [fst flowerField]. rewrite seeded_fst.
  unfold createGround.
  destruct (grassLoop_world (grassCount mobile)
              {| gen := mulberry32 (seed cfg); entropy := e;
                 calls := 0 |}) as (G & _ & _).
  rewrite G. reflexivity.
Qed.

Lemma run_grass e :
  grass (run offsetHSL cfg hc mobile e)
  = fst (grassLoop (grassCount mobile)
           {| gen := mulberry32 (seed cfg); entropy := e; calls := 0 |}).
Proof.
  unfold run, init. rewrite !then_eq. unfold unit_.
  reflexivity.
Qed.

Lemma run_first_blade e :
  Ground.bx (hd (Ground.blade 0 0 0 0)
                (grass (run offsetHSL cfg hc mobile e)))
  = (e 0%nat - 0.5) * 250.
Proof.
  rewrite run_grass.
  destruct (grassCount_pos mobile) as [n ->].
  rewrite grassLoop_head, grassBlade_value. reflexivity.
Qed.
End Init.
End SessionFacts.

(* ================================================================== *)
(** * Determinism of the field across runs *)
(* ================================================================== *)

Module SessionClaims.
Import Int32 Rng FlowerField FieldClaims Session SessionFacts.
Local Open Scope R_scope.

(** C1.  Determinism of the field generator.  Two independent runs of the
    page, each with its own results of [Math.random] and on any device,
    build the same sequence of field instances (position, rotation and
    scale of the transform, colour, sway amplitude, phase) when their
    seeds agree after [seed >>> 0] and their configurations agree on the
    flower count and the two radii: the field draws only from the seeded
    generator, and the grass, which is made before it, leaves that
    generator untouched.  The grass of the same two runs differs as soon
    as their first results of [Math.random] differ. *)
Theorem field_run_deterministic
    (offsetHSL : Z -> R -> R -> R -> Vec3) (cfg cfg' : Config)
    (hc hc' : Hearts.HeartConfig) (mobile mobile' : bool)
    (e e' : nat -> R) :
  ushr (seed cfg) 0 = ushr (seed cfg') 0 ->
  flowerCount cfg = flowerCount cfg' ->
  fieldRadius cfg = fieldRadius cfg' ->
  clearRadius cfg = clearRadius cfg' ->
  map inst (flowerField (run offsetHSL cfg hc mobile e))
  = map inst (flowerField (run offsetHSL cfg' hc' mobile' e')) /\
  (e 0%nat <> e' 0%nat ->
   grass (run offsetHSL cfg hc mobile e)
   <> grass (run offsetHSL cfg' hc' mobile' e')).
Proof.
  intros Hs Hn Hf Hc. split.
  - rewrite !run_flowerField.
    now rewrite (samples_same_configuration offsetHSL cfg cfg' Hs Hn Hf Hc).
  - intros He Hg.
    pose proof (run_first_blade offsetHSL cfg hc mobile e) as B.
    pose proof (run_first_blade offsetHSL cfg' hc' mobile' e') as B'.
    rewrite Hg, B' in B. apply He. lra.
Qed.

Lemma field_run_deterministic_witness :
  let cfg' := {| seed := 20260214 + 4294967296; flowerCount := 10000;
                 fieldRadius := 120; clearRadius := 12;
                 tapCooldownMs := 900 |} in
  map inst (flowerField (run plainColor (CONFIG false) (Hearts.HEARTS false)
                           false (fun _ => 0.25)))
  = map inst (flowerField (run plainColor cfg' (Hearts.HEARTS false)
                             false (fun _ => 0.75))).
Proof.
  intros cfg'.
  refine (proj1 (field_run_deterministic plainColor (CONFIG false) cfg'
                   (Hearts.HEARTS false) (Hearts.HEARTS false) false false
                   (fun _ => 0.25) (fun _ => 0.75) _ _ _ _)).
  - vm_compute. reflexivity.
  - reflexivity.
  - reflexivity.
  - reflexivity.
Defined.
End SessionClaims.

(* ================================================================== *)
(** * Rose bloom surface: what the guard does *)
(* ================================================================== *)

Module GuardFacts.
Import JS JSFacts Rose RoseR RoseFacts RoseSurface.
Local Open Scope R_scope.

(** The grid of the source is the grid of 28 by 320 samples. *)
Lemma rh_raw_sample i j : rh_raw i j = sample nu nv i j.
Proof. reflexivity. Qed.







End GuardFacts.

(* ================================================================== *)
(** * Rose bloom surface: the degeneracy guard as it is written *)
(* ================================================================== *)

Module GuardClaims.
Import JS JSFacts Rose RoseR RoseFacts RoseSurface GuardFacts.
Local Open Scope R_scope.



End GuardClaims.
